(** * Img-2-pdf: the [ImageToPDF] component

    A shallow embedding of [src/components/ImageToPDF.jsx]: the image list
    kept in React state with its handlers ([handleFileSelect], [rotateImage],
    [moveUp], [moveDown], [removeImage], [clearAll]), the canvas renderer
    [loadImageWithRotation], and [generatePDF] with its page layout and its
    filename clean-up.

    Conventions of the embedding.
    - A JavaScript string is the list of its UTF-16 code units.
    - A JavaScript array of entries is a list of slots; the empty slot is
      [undefined].  A hole and a stored [undefined] are one and the same slot
      here: every array with a hole that the handlers can build also stores an
      [undefined] behind it, and a spread copy turns holes into [undefined].
    - A JavaScript Number is the rational it stands for, or one of
      [Infinity], [-Infinity], [NaN].  Every arithmetic operation rounds its
      exact result to binary64: to the nearest value of 53 significant bits,
      a tie going to the even one, with the subnormal range below and
      overflow to an infinity above ([Js.round64], [Js.of_rounded]).  The
      sign of a zero is not represented; the layout never produces a
      negative zero.  Module [Binary64] has the page layout once more on
      the primitive binary64 numbers, and the two are compared on concrete
      rasters.
    - What the browser and jsPDF decide (the identifiers and object URLs they
      hand out, whether an object URL decodes and to which natural size, the
      JPEG encoding of a canvas, whether [addImage] takes a page) enters as
      Section variables.  The state carries the number of entries created so
      far, which numbers the identifiers handed out.
    - Each handler runs from a render of the current state, so the [images]
      a handler closes over is the list its updater receives.
    - [URL.revokeObjectURL] acts on the browser's URL registry, which no
      handler reads back; it is left out, but an access to a field of
      [undefined] on the way to it throws as it does in the source. *)

From Stdlib Require Import ZArith NArith QArith Qreduction Qround Qabs Qpower.
From Stdlib Require Import Lia Lqa Bool.
From Stdlib Require PrimFloat FloatOps SpecFloat Uint63.

From stdpp Require Import base list strings pretty.

(** ** JavaScript values *)

Module Js.

(** Strings: lists of UTF-16 code units. *)
Abbreviation str := (list N).

Definition unit_of_ascii (a : Ascii.ascii) : N := Ascii.N_of_ascii a.

Fixpoint lit (s : String.string) : str :=
  match s with
  | String.EmptyString => []
  | String.String a s' => unit_of_ascii a :: lit s'
  end.

Definition str_eqb (a b : str) : bool := bool_decide (a = b).

(** [String.prototype.startsWith(p)] at position 0. *)
Fixpoint startsWith (p s : str) : bool :=
  match p, s with
  | [], _ => true
  | _ :: _, [] => false
  | c :: p', d :: s' => (c =? d)%N && startsWith p' s'
  end.

(** Numbers.  A finite Number is the rational it stands for; the results of
    the arithmetic are rounded to binary64 by [round64]. *)
Inductive num : Type :=
| Fin (q : Q)
| PInf
| NInf
| NaN.

(** The Number of an integer; the integers below [2 ^ 53] in size are
    Numbers as they are. *)
Definition of_Z (z : Z) : num := Fin (inject_Z z).
Definition of_N (n : N) : num := of_Z (Z.of_N n).

(** Floor of the binary logarithm of a positive rational. *)
Definition ilog2 (x : Q) : Z :=
  if Qle_bool 1 x then Z.log2 (Qfloor x)
  else (- Z.log2_up (Qceiling (/ x)))%Z.

(** The nearest integer, a tie going to the even one. *)
Definition rhe (x : Q) : Z :=
  let f := Qfloor x in
  match (x - inject_Z f ?= 1 # 2)%Q with
  | Lt => f
  | Gt => (f + 1)%Z
  | Eq => if Z.even f then f else (f + 1)%Z
  end.

(** The exponent of the last place of a positive binary64 value near [x]:
    53 significant bits, and no exponent below that of the subnormals. *)
Definition expo (x : Q) : Z := Z.max (ilog2 x - 52) (-1074).

(** The nearest multiple of [2 ^ e]. *)
Definition on_grid (e : Z) (x : Q) : Q :=
  (inject_Z (rhe (x / 2 ^ e)) * 2 ^ e)%Q.

(** The binary64 value nearest to a positive [x]. *)
Definition round_pos (x : Q) : Q := on_grid (expo x) x.

(** Round to nearest, ties to even, with an unbounded exponent above. *)
Definition round64 (x : Q) : Q :=
  Qred match (x ?= 0)%Q with
       | Eq => 0
       | Gt => round_pos x
       | Lt => - round_pos (- x)
       end%Q.

(** [Number.MAX_VALUE] *)
Definition max_value : Q := (inject_Z (2 ^ 53 - 1) * 2 ^ 971)%Q.

(** The Number of the real result of an operation: rounded, and an infinity
    when the rounded value is out of range. *)
Definition of_rounded (q : Q) : num :=
  let r := round64 q in
  if Qle_bool r max_value
  then if Qle_bool (- max_value) r then Fin r else NInf
  else PInf.

(** [a / b] *)
Definition div (a b : num) : num :=
  match a, b with
  | NaN, _ | _, NaN => NaN
  | Fin p, Fin q =>
      match (q ?= 0)%Q with
      | Eq => match (p ?= 0)%Q with
              | Eq => NaN
              | Gt => PInf
              | Lt => NInf
              end
      | _ => of_rounded (p / q)%Q
      end
  | Fin _, (PInf | NInf) => Fin 0%Q
  | PInf, Fin q => match (q ?= 0)%Q with Lt => NInf | _ => PInf end
  | NInf, Fin q => match (q ?= 0)%Q with Lt => PInf | _ => NInf end
  | (PInf | NInf), (PInf | NInf) => NaN
  end.

(** [a * b] *)
Definition mul (a b : num) : num :=
  match a, b with
  | NaN, _ | _, NaN => NaN
  | Fin p, Fin q => of_rounded (p * q)%Q
  | Fin p, PInf | PInf, Fin p =>
      match (p ?= 0)%Q with Eq => NaN | Gt => PInf | Lt => NInf end
  | Fin p, NInf | NInf, Fin p =>
      match (p ?= 0)%Q with Eq => NaN | Gt => NInf | Lt => PInf end
  | PInf, PInf | NInf, NInf => PInf
  | PInf, NInf | NInf, PInf => NInf
  end.

(** [a - b] *)
Definition sub (a b : num) : num :=
  match a, b with
  | NaN, _ | _, NaN => NaN
  | Fin p, Fin q => of_rounded (p - q)%Q
  | Fin _, PInf => NInf
  | Fin _, NInf => PInf
  | PInf, PInf | NInf, NInf => NaN
  | PInf, _ => PInf
  | NInf, _ => NInf
  end.

(** [a + b]: the operator of the centring equations [x + width / 2]. *)
Definition add (a b : num) : num :=
  match a, b with
  | NaN, _ | _, NaN => NaN
  | Fin p, Fin q => of_rounded (p + q)%Q
  | Fin _, PInf => PInf
  | Fin _, NInf => NInf
  | PInf, NInf | NInf, PInf => NaN
  | PInf, _ => PInf
  | NInf, _ => NInf
  end.

(** [a > b]; every comparison with [NaN] is false. *)
Definition gt (a b : num) : bool :=
  match a, b with
  | NaN, _ | _, NaN => false
  | Fin p, Fin q => match (p ?= q)%Q with Gt => true | _ => false end
  | PInf, PInf => false
  | PInf, _ => true
  | Fin _, NInf => true
  | _, _ => false
  end.

End Js.

Declare Scope js_scope.
Delimit Scope js_scope with js.
Bind Scope js_scope with Js.num.
Infix "/" := Js.div : js_scope.
Infix "*" := Js.mul : js_scope.
Infix "-" := Js.sub : js_scope.
Infix "+" := Js.add : js_scope.
Infix ">?" := Js.gt (at level 70, no associativity) : js_scope.

(** ** Page layout ([generatePDF], the block that fits an image on a page) *)

Record LayoutRect : Type := mkRect {
  x : Js.num;
  y : Js.num;
  finalWidth : Js.num;
  finalHeight : Js.num
}.

Definition pageWidth : Js.num := Js.of_Z 210.
Definition pageHeight : Js.num := Js.of_Z 297.
Definition margin : Js.num := Js.of_Z 10.
Definition maxWidth : Js.num := (pageWidth - (margin * Js.of_Z 2))%js.
Definition maxHeight : Js.num := (pageHeight - (margin * Js.of_Z 2))%js.

Definition layout (width height : Js.num) : LayoutRect :=
  let imgRatio := (width / height)%js in
  let pageRatio := (maxWidth / maxHeight)%js in
  let '(finalWidth, finalHeight) :=
    if (imgRatio >? pageRatio)%js
    then (maxWidth, (maxWidth / imgRatio)%js)
    else ((maxHeight * imgRatio)%js, maxHeight) in
  let x := ((pageWidth - finalWidth) / Js.of_Z 2)%js in
  let y := ((pageHeight - finalHeight) / Js.of_Z 2)%js in
  mkRect x y finalWidth finalHeight.

(** The same block on binary64 numbers, as the browser computes it; used to
    run concrete rasters. *)
Module Binary64.
Import PrimFloat.
Local Open Scope float_scope.

Record Rect : Type := mkRect {
  x : float;
  y : float;
  finalWidth : float;
  finalHeight : float
}.

Definition pageWidth : float := 210.
Definition pageHeight : float := 297.
Definition margin : float := 10.
Definition maxWidth : float := pageWidth - (margin * 2).
Definition maxHeight : float := pageHeight - (margin * 2).

Definition layout (width height : float) : Rect :=
  let imgRatio := width / height in
  let pageRatio := maxWidth / maxHeight in
  let '(finalWidth, finalHeight) :=
    if pageRatio <? imgRatio
    then (maxWidth, maxWidth / imgRatio)
    else (maxHeight * imgRatio, maxHeight) in
  let x := (pageWidth - finalWidth) / 2 in
  let y := (pageHeight - finalHeight) / 2 in
  mkRect x y finalWidth finalHeight.

(** The Number that a binary64 value stands for. *)
Definition to_num (f : float) : Js.num :=
  match FloatOps.Prim2SF f with
  | SpecFloat.S754_zero _ => Js.Fin 0
  | SpecFloat.S754_infinity s => if s then Js.NInf else Js.PInf
  | SpecFloat.S754_nan => Js.NaN
  | SpecFloat.S754_finite s m e =>
      Js.Fin (Qred ((if s then -1 else 1) * inject_Z (Zpos m) * 2 ^ e)%Q)
  end.

(** The binary64 value of a raster size below [2 ^ 63]. *)
Definition of_N (n : N) : float :=
  PrimFloat.of_uint63 (Uint63.of_Z (Z.of_N n)).

End Binary64.

Definition rect_of_binary64 (r : Binary64.Rect) : LayoutRect :=
  mkRect (Binary64.to_num (Binary64.x r)) (Binary64.to_num (Binary64.y r))
         (Binary64.to_num (Binary64.finalWidth r))
         (Binary64.to_num (Binary64.finalHeight r)).

Definition num_eqb (a b : Js.num) : bool :=
  match a, b with
  | Js.Fin p, Js.Fin q =>
      (Qnum p =? Qnum q)%Z && (Qden p =? Qden q)%positive
  | Js.PInf, Js.PInf | Js.NInf, Js.NInf | Js.NaN, Js.NaN => true
  | _, _ => false
  end.

Definition rect_eqb (a b : LayoutRect) : bool :=
  num_eqb (x a) (x b) && num_eqb (y a) (y b)
  && num_eqb (finalWidth a) (finalWidth b)
  && num_eqb (finalHeight a) (finalHeight b).

(** Whether the two layouts give the same rect for a raster. *)
Definition layouts_agree (w h : N) : bool :=
  rect_eqb
    (rect_of_binary64 (Binary64.layout (Binary64.of_N w) (Binary64.of_N h)))
    (layout (Js.of_N w) (Js.of_N h)).

Definition layouts_agree_below (n : nat) : bool :=
  forallb (fun w => forallb (fun h => layouts_agree (N.of_nat w) (N.of_nat h))
                      (seq 0 n))
          (seq 0 n).

(** ** The image list *)

Record File : Type := mkFile {
  file_name : Js.str;
  file_type : Js.str
}.

Module ImageEntry.
Record t : Type := mk {
  id : Js.str;
  file : File;
  url : Js.str;
  rotation : Z;
  name : Js.str
}.

Definition with_rotation (img : t) (r : Z) : t :=
  mk (id img) (file img) (url img) r (name img).
End ImageEntry.

(** One element of the [images] array; [None] is [undefined]. *)
Abbreviation slot := (option ImageEntry.t).

(** A handler that can throw returns an [option]: [None] stands for the
    [TypeError] raised by reading a property of [undefined]. *)

Module Array.

(** [a[i]] *)
Definition get (a : list slot) (i : nat) : slot :=
  match a !! i with
  | Some s => s
  | None => None
  end.

(** [a[i] = v]; writing past the end extends the array. *)
Definition set (a : list slot) (i : nat) (v : slot) : list slot :=
  if (i <? length a)%nat
  then <[i := v]> a
  else a ++ replicate (i - length a) None ++ [v].

(** [[a[i], a[j]] = [a[j], a[i]]] *)
Definition swap (a : list slot) (i j : nat) : list slot :=
  let rhs := (get a j, get a i) in
  set (set a i (fst rhs)) j (snd rhs).

(** [a.map(f)] for a callback that reads a property of its argument. *)
Definition map (f : ImageEntry.t -> ImageEntry.t) (a : list slot)
  : option (list slot) :=
  mapM (fun s : slot =>
          match s with
          | None => None
          | Some img => Some (Some (f img))
          end) a.

(** [a.filter(p)], same kind of callback. *)
Fixpoint filter (p : ImageEntry.t -> bool) (a : list slot)
  : option (list slot) :=
  match a with
  | [] => Some []
  | None :: _ => None
  | Some img :: a' =>
      match filter p a' with
      | None => None
      | Some r => Some (if p img then Some img :: r else r)
      end
  end.

(** [a.find(p)]: the outer [option] is the completion, the inner one the
    value found. *)
Fixpoint find (p : ImageEntry.t -> bool) (a : list slot)
  : option slot :=
  match a with
  | [] => Some None
  | None :: _ => None
  | Some img :: a' => if p img then Some (Some img) else find p a'
  end.

(** [a.forEach(f)] for a callback with no effect on the list. *)
Fixpoint forEach (a : list slot) : option unit :=
  match a with
  | [] => Some tt
  | None :: _ => None
  | Some _ :: a' => forEach a'
  end.

End Array.

Section Handlers.

(** The [n]-th identifier and object URL that the browser hands out. *)
Variable randomUUID : nat -> Js.str.
Variable createObjectURL : nat -> File -> Js.str.

Fixpoint newImages (n : nat) (imageFiles : list File) : list ImageEntry.t :=
  match imageFiles with
  | [] => []
  | f :: fs =>
      ImageEntry.mk (randomUUID n) f (createObjectURL n f) 0 (file_name f)
      :: newImages (S n) fs
  end.

Definition is_image (f : File) : bool :=
  Js.startsWith (Js.lit "image/"%string) (file_type f).

(** [handleFileSelect]; [n] counts the entries created so far. *)
Definition handleFileSelect (n : nat) (files : list File) (prev : list slot)
  : nat * list slot :=
  let imageFiles := List.filter is_image files in
  if (length imageFiles =? 0)%nat then (n, prev)
  else (n + length imageFiles,
        prev ++ (Some <$> newImages n imageFiles)).

End Handlers.

(** The callback of [rotateImage]; [%] is the remainder of truncated
    division. *)
Definition rotate_if (id : Js.str) (img : ImageEntry.t) : ImageEntry.t :=
  if Js.str_eqb (ImageEntry.id img) id
  then ImageEntry.with_rotation img (Z.rem (ImageEntry.rotation img + 90) 360)
  else img.

Definition rotateImage (id : Js.str) (prev : list slot) : option (list slot) :=
  Array.map (rotate_if id) prev.

(** [rotateImage id] applied [k] times in a row. *)
Fixpoint rotate_times (k : nat) (id : Js.str) (prev : list slot)
  : option (list slot) :=
  match k with
  | O => Some prev
  | S k' =>
      match rotateImage id prev with
      | None => None
      | Some next => rotate_times k' id next
      end
  end.

(** [index] is the row number that the list renderer passes in. *)
Definition moveUp (index : nat) (prev : list slot) : list slot :=
  if (index =? 0)%nat then prev
  else Array.swap prev (index - 1) index.

(** The guard reads the rendered [images]; the update runs on [prev]. *)
Definition moveDown (images : list slot) (index : nat) (prev : list slot)
  : list slot :=
  if (Z.of_nat index =? Z.of_nat (length images) - 1)%Z then prev
  else Array.swap prev index (index + 1).

Definition removeImage (id : Js.str) (prev : list slot) : option (list slot) :=
  match Array.find (fun i => Js.str_eqb (ImageEntry.id i) id) prev with
  | None => None
  | Some _ =>
      Array.filter (fun i => negb (Js.str_eqb (ImageEntry.id i) id)) prev
  end.

Definition clearAll (images : list slot) : option (list slot) :=
  match Array.forEach images with
  | None => None
  | Some _ => Some []
  end.

(** ** The whole component state and its list events *)

Record State : Type := mkState {
  images : list slot;
  filename : Js.str;
  isGenerating : bool;
  created : nat
}.

Definition initial : State :=
  mkState [] (Js.lit "my-document"%string) false 0.

Definition setImages (st : State) (imgs : list slot) : State :=
  mkState imgs (filename st) (isGenerating st) (created st).

Inductive event : Type :=
| Add (files : list File)
| Rotate (id : Js.str)
| MoveUp (index : nat)
| MoveDown (index : nat)
| Remove (id : Js.str)
| Clear.

Section Machine.

Variable randomUUID : nat -> Js.str.
Variable createObjectURL : nat -> File -> Js.str.

(** One event; [None] when the handler throws. *)
Definition step (st : State) (ev : event) : option State :=
  match ev with
  | Add files =>
      let '(n, imgs) :=
        handleFileSelect randomUUID createObjectURL
          (created st) files (images st) in
      Some (mkState imgs (filename st) (isGenerating st) n)
  | Rotate id => setImages st <$> rotateImage id (images st)
  | MoveUp index => Some (setImages st (moveUp index (images st)))
  | MoveDown index =>
      Some (setImages st (moveDown (images st) index (images st)))
  | Remove id => setImages st <$> removeImage id (images st)
  | Clear => setImages st <$> clearAll (images st)
  end.

Fixpoint run (st : State) (evs : list event) : option State :=
  match evs with
  | [] => Some st
  | ev :: evs' =>
      match step st ev with
      | None => None
      | Some st' => run st' evs'
      end
  end.

(** The states that some sequence of events leads to. *)
Inductive reachable : State -> Prop :=
| reachable_initial : reachable initial
| reachable_step st ev st' :
    reachable st -> step st ev = Some st' -> reachable st'.

End Machine.

(** ** Rendering one entry ([loadImageWithRotation]) *)

Record RenderedPage : Type := mkPage {
  dataUrl : Js.str;
  width : N;
  height : N
}.

(** How an awaited promise ends: with a value, with an exception, or never. *)
Inductive promise (A : Type) : Type :=
| Resolved (a : A)
| Rejected
| Pending.
Arguments Resolved {A} a.
Arguments Rejected {A}.
Arguments Pending {A}.

Section Render.

(** The natural size of the image behind an object URL; [None] when the
    browser cannot decode it, in which case [onload] never fires. *)
Variable decode : Js.str -> option (N * N).
(** [canvas.toDataURL('image/jpeg', 0.92)] of the image drawn at an angle. *)
Variable toDataURL : Js.str -> Z -> Js.str.

Definition loadImageWithRotation (imageData : slot) : promise RenderedPage :=
  match imageData with
  | None => Rejected
  | Some entry =>
      match decode (ImageEntry.url entry) with
      | None => Pending
      | Some (img_width, img_height) =>
          let rotation := ImageEntry.rotation entry in
          let isRotated := ((rotation =? 90) || (rotation =? 270))%Z in
          let '(canvas_width, canvas_height) :=
            if isRotated then (img_height, img_width)
            else (img_width, img_height) in
          Resolved
            (mkPage (toDataURL (ImageEntry.url entry) rotation)
               canvas_width canvas_height)
      end
  end.

End Render.

(** ** The output file name *)

Module Filename.

(** WhiteSpace and LineTerminator code units, as [trim] strips them. *)
Definition is_space (c : N) : bool :=
  ((9 <=? c) && (c <=? 13) || (c =? 32) || (c =? 160) || (c =? 5760)
   || (8192 <=? c) && (c <=? 8202) || (c =? 8232) || (c =? 8233)
   || (c =? 8239) || (c =? 8287) || (c =? 12288) || (c =? 65279))%N.

Fixpoint trimStart (s : Js.str) : Js.str :=
  match s with
  | [] => []
  | c :: s' => if is_space c then trimStart s' else s
  end.

Definition trimEnd (s : Js.str) : Js.str :=
  reverse (trimStart (reverse s)).

Definition trim (s : Js.str) : Js.str := trimEnd (trimStart s).

(** The class [a-zA-Z0-9-_]. *)
Definition in_class (c : N) : bool :=
  ((97 <=? c) && (c <=? 122) || (65 <=? c) && (c <=? 90)
   || (48 <=? c) && (c <=? 57) || (c =? 45) || (c =? 95))%N.

(** [s.replace(/[^a-zA-Z0-9-_]/g, '_')] *)
Definition replace (s : Js.str) : Js.str :=
  (fun c => if in_class c then c else 95%N) <$> s.

(** [filename.trim().replace(...) || 'document'] *)
Definition sanitize (filename : Js.str) : Js.str :=
  match replace (trim filename) with
  | [] => Js.lit "document"%string
  | r => r
  end.

End Filename.

(** ** Assembling the document ([generatePDF]) *)

(** What [generatePDF] does to the outside: calls into jsPDF, the console
    and the alert box. *)
Inductive effect : Type :=
| NewPDF
| AddPage
| AddImage (data : Js.str) (rect : LayoutRect)
| Save (name : Js.str)
| ConsoleError
| Alert (msg : Js.str).

(** How the [for] loop is left. *)
Inductive loop_exit : Type :=
| Finished
| Threw
| Awaiting.

(** How the call of the async function ends. *)
Inductive ending : Type :=
| Returned
| Suspended.

Section Generate.

Variable decode : Js.str -> option (N * N).
Variable toDataURL : Js.str -> Z -> Js.str.
(** Whether jsPDF takes the image ([true]) or throws. *)
Variable addImage_ok : Js.str -> LayoutRect -> bool.

(** The loop body from index [i] on, over the entries still to come. *)
Fixpoint pages (i : nat) (rest : list slot) : list effect * loop_exit :=
  match rest with
  | [] => ([], Finished)
  | entry :: rest' =>
      let new_page := if (0 <? i)%nat then [AddPage] else [] in
      match loadImageWithRotation decode toDataURL entry with
      | Pending => (new_page, Awaiting)
      | Rejected => (new_page, Threw)
      | Resolved imageData =>
          let rect :=
            layout (Js.of_N (width imageData)) (Js.of_N (height imageData)) in
          if addImage_ok (dataUrl imageData) rect then
            let '(effs, ex) := pages (S i) rest' in
            (new_page ++ AddImage (dataUrl imageData) rect :: effs, ex)
          else (new_page, Threw)
      end
  end.

Definition setIsGenerating (st : State) (b : bool) : State :=
  mkState (images st) (filename st) b (created st).

Definition generatePDF (st : State) : State * list effect * ending :=
  if (length (images st) =? 0)%nat then (st, [], Returned)
  else
    let '(effs, ex) := pages 0 (images st) in
    match ex with
    | Finished =>
        let sanitizedFilename := Filename.sanitize (filename st) in
        (setIsGenerating st false,
         NewPDF :: effs ++ [Save (sanitizedFilename ++ Js.lit ".pdf"%string)],
         Returned)
    | Threw =>
        (setIsGenerating st false,
         NewPDF :: effs
           ++ [ConsoleError;
               Alert (Js.lit "Error generating PDF. Please try again."%string)],
         Returned)
    | Awaiting =>
        (setIsGenerating st true, NewPDF :: effs, Suspended)
    end.

End Generate.

(** ** The rendered page (the JSX that [ImageToPDF] returns) *)

(** [`${n}`] for an integer: its decimal digits. *)
Definition decimal_nat (n : nat) : Js.str := Js.lit (pretty n).
Definition decimal_Z (z : Z) : Js.str := Js.lit (pretty z).

(** One row of the image list: thumbnail, texts, and the four buttons with
    the call each makes on a click. *)
Record Row : Type := mkRow {
  row_key : Js.str;
  thumb_src : Js.str;
  thumb_alt : Js.str;
  thumb_transform : Js.str;
  row_name : Js.str;
  row_caption : Js.str;
  up_click : event;
  up_disabled : bool;
  down_click : event;
  down_disabled : bool;
  rotate_click : event;
  remove_click : event
}.

(** The bar at the bottom: the file name field and the create button. *)
Record BottomBar : Type := mkBar {
  filename_value : Js.str;
  create_disabled : bool;
  create_label : Js.str
}.

Record View : Type := mkView {
  count_line : option Js.str;
  list_rows : list Row;
  empty_state : bool;
  bottom_bar : option BottomBar
}.

Definition render_row (images : list slot) (index : nat)
    (image : ImageEntry.t) : Row :=
  let rotation := ImageEntry.rotation image in
  mkRow (ImageEntry.id image)
    (ImageEntry.url image)
    (ImageEntry.name image)
    (Js.lit "rotate("%string ++ decimal_Z rotation ++ Js.lit "deg)"%string)
    (ImageEntry.name image)
    (Js.lit "Page "%string ++ decimal_nat (index + 1)
       ++ Js.lit " of "%string ++ decimal_nat (length images)
       ++ (if (rotation =? 0)%Z then []
           else Js.lit " "%string ++ [8226%N] ++ Js.lit " Rotated "%string
                  ++ decimal_Z rotation ++ [176%N]))
    (MoveUp index) (index =? 0)%nat
    (MoveDown index) (Z.of_nat index =? Z.of_nat (length images) - 1)%Z
    (Rotate (ImageEntry.id image))
    (Remove (ImageEntry.id image)).

(** [images.map((image, index) => ...)], from row [index] on; reading
    [image.id] of [undefined] throws. *)
Fixpoint render_rows (images : list slot) (index : nat) (rest : list slot)
  : option (list Row) :=
  match rest with
  | [] => Some []
  | None :: _ => None
  | Some image :: rest' =>
      match render_rows images (S index) rest' with
      | None => None
      | Some rows => Some (render_row images index image :: rows)
      end
  end.

(** What the component returns for a state; [None] when rendering throws. *)
Definition render (st : State) : option View :=
  let images := images st in
  let n := length images in
  match render_rows images 0 images with
  | None => None
  | Some rows =>
      Some (mkView
        (if (0 <? n)%nat
         then Some (decimal_nat n ++ Js.lit " image"%string
                      ++ (if (n =? 1)%nat then [] else Js.lit "s"%string)
                      ++ Js.lit " selected"%string)
         else None)
        rows
        (n =? 0)%nat
        (if (0 <? n)%nat
         then Some (mkBar (filename st) (isGenerating st)
                      (if isGenerating st
                       then Js.lit "Generating..."%string
                       else Js.lit "Create PDF"%string))
         else None))
  end.

(** The list events a click on the page can raise: "Clear all" when the
    count line is shown, and per row the buttons that are not disabled. *)
Definition row_clicks (r : Row) : list event :=
  (if up_disabled r then [] else [up_click r])
  ++ (if down_disabled r then [] else [down_click r])
  ++ [rotate_click r; remove_click r].

Definition clicks (v : View) : list event :=
  (match count_line v with Some _ => [Clear] | None => [] end)
  ++ mjoin (row_clicks <$> list_rows v).

(** ** Well-formed lists *)

(** The rotations an entry can have. *)
Definition valid_rotation (r : Z) : Prop :=
  r = 0%Z \/ r = 90%Z \/ r = 180%Z \/ r = 270%Z.

Definition slot_valid (s : slot) : Prop :=
  match s with
  | Some img => valid_rotation (ImageEntry.rotation img)
  | None => True
  end.

(** The entries of an array, [undefined] slots left out. *)
Definition entries (a : list slot) : list ImageEntry.t :=
  omap (fun s : slot => s) a.

(** The identifiers of the entries of a list. *)
Definition ids (l : list ImageEntry.t) : list Js.str := ImageEntry.id <$> l.

(** The ids in the list are pairwise different and were all handed out by
    the browser. *)
Definition ids_fresh (randomUUID : nat -> Js.str) (st : State) : Prop :=
  NoDup (ids (entries (images st)))
  /\ forall id, id ∈ ids (entries (images st)) ->
       exists n, n < created st /\ id = randomUUID n.

(** A property of entries, taken to slots: [undefined] has it. *)
Definition slot_holds (P : ImageEntry.t -> Prop) (s : slot) : Prop :=
  match s with
  | Some img => P img
  | None => True
  end.

(** An entry as [handleFileSelect] made it, but for its rotation: named
    after its file, with one of the first [c] ids handed out and the object
    URL made for its file along with that id. *)
Definition as_created (randomUUID : nat -> Js.str)
    (createObjectURL : nat -> File -> Js.str) (c : nat)
    (img : ImageEntry.t) : Prop :=
  ImageEntry.name img = file_name (ImageEntry.file img)
  /\ exists n, n < c
       /\ ImageEntry.id img = randomUUID n
       /\ ImageEntry.url img = createObjectURL n (ImageEntry.file img).

(** An event that the rendered list can raise: the move buttons exist for
    the rows of the list only. *)
Definition offered (st : State) (ev : event) : Prop :=
  match ev with
  | MoveUp index | MoveDown index => index < length (images st)
  | _ => True
  end.

(** Whether an entry gets onto its page: it decodes and jsPDF takes it. *)
Definition renders (decode : Js.str -> option (N * N))
    (toDataURL : Js.str -> Z -> Js.str)
    (addImage_ok : Js.str -> LayoutRect -> bool) (entry : ImageEntry.t) : bool :=
  match loadImageWithRotation decode toDataURL (Some entry) with
  | Resolved p =>
      addImage_ok (dataUrl p)
        (layout (Js.of_N (width p)) (Js.of_N (height p)))
  | _ => false
  end.

(** Effects of the page loop proper. *)
Definition page_effect (e : effect) : Prop :=
  match e with
  | AddPage | AddImage _ _ => True
  | _ => False
  end.

(** Whether a slot gets onto its page. *)
Definition slot_renders (decode : Js.str -> option (N * N))
    (toDataURL : Js.str -> Z -> Js.str)
    (addImage_ok : Js.str -> LayoutRect -> bool) (s : slot) : Prop :=
  match s with
  | Some entry => renders decode toDataURL addImage_ok entry = true
  | None => False
  end.

(** The image data and rect that [generatePDF] computes for an entry. *)
Definition page_of (decode : Js.str -> option (N * N))
    (toDataURL : Js.str -> Z -> Js.str) (entry : ImageEntry.t)
  : option (Js.str * LayoutRect) :=
  match loadImageWithRotation decode toDataURL (Some entry) with
  | Resolved p =>
      Some (dataUrl p, layout (Js.of_N (width p)) (Js.of_N (height p)))
  | _ => None
  end.

(** The images put on pages, in the order of the calls. *)
Definition added_images (effs : list effect) : list (Js.str * LayoutRect) :=
  omap (fun e => match e with
                 | AddImage data rect => Some (data, rect)
                 | _ => None
                 end) effs.

(** The jsPDF calls for a run of pages: a page break before each image. *)
Definition page_calls (ps : list (Js.str * LayoutRect)) : list effect :=
  ps ≫= (fun p => [AddPage; AddImage (fst p) (snd p)]).

(** The states reached from the empty list by file selections and by clicks
    on what is rendered. *)
Inductive ui_reachable (randomUUID : nat -> Js.str)
    (createObjectURL : nat -> File -> Js.str) : State -> Prop :=
| ui_initial : ui_reachable randomUUID createObjectURL initial
| ui_select st files st' :
    ui_reachable randomUUID createObjectURL st ->
    step randomUUID createObjectURL st (Add files) = Some st' ->
    ui_reachable randomUUID createObjectURL st'
| ui_click st v ev st' :
    ui_reachable randomUUID createObjectURL st ->
    render st = Some v -> ev ∈ clicks v ->
    step randomUUID createObjectURL st ev = Some st' ->
    ui_reachable randomUUID createObjectURL st'.

(** ** Sample browser behaviour, for concrete runs *)

Module Sample.

Definition randomUUID (n : nat) : Js.str :=
  Js.lit "img-"%string ++ [(48 + N.of_nat n)%N].

Definition createObjectURL (n : nat) (f : File) : Js.str :=
  Js.lit "blob:"%string ++ [(48 + N.of_nat n)%N].

Definition png (name : string) : File :=
  mkFile (Js.lit name) (Js.lit "image/png"%string).

Definition txt (name : string) : File :=
  mkFile (Js.lit name) (Js.lit "text/plain"%string).

Definition entry (n : nat) (rotation : Z) : ImageEntry.t :=
  ImageEntry.mk (randomUUID n) (png "scan.png")
    (createObjectURL n (png "scan.png")) rotation (Js.lit "scan.png"%string).

(** Every URL decodes to a raster of the given size. *)
Definition decode_as (w h : N) (url : Js.str) : option (N * N) :=
  Some (w, h).

(** Only the URL handed out first decodes. *)
Definition decode_first (url : Js.str) : option (N * N) :=
  if Js.str_eqb url (createObjectURL 0 (png "scan.png"))
  then Some (800, 600)%N else None.

Definition toDataURL (url : Js.str) (rotation : Z) : Js.str :=
  Js.lit "data:image/jpeg;"%string ++ url.

Definition addImage_ok (data : Js.str) (rect : LayoutRect) : bool := true.

(** jsPDF takes every image but the one made from the URL handed out
    second. *)
Definition refuses_second (data : Js.str) (rect : LayoutRect) : bool :=
  negb (Js.str_eqb data (toDataURL (ImageEntry.url (entry 1 0)) 0)).

(** Pick three files (one is no image), turn the first image twice, move
    it down, turn the other one, remove it, pick again, move up. *)
Definition session : list event :=
  [Add [png "a.png"; txt "notes.txt"; png "b.png"];
   Rotate (randomUUID 0); Rotate (randomUUID 0);
   MoveDown 0;
   Rotate (randomUUID 1);
   Remove (randomUUID 1);
   Add [png "c.png"];
   MoveUp 1].

Definition state (imgs : list ImageEntry.t) : State :=
  mkState (Some <$> imgs) (Js.lit "my-document"%string) false (length imgs).

End Sample.

(** * Properties *)

(** ** Rounding to binary64 *)

Section Rounding.
Local Open Scope Q_scope.

(** ** Powers of two *)

Lemma pow2_pos (e : Z) : 0 < 2 ^ e.
Proof. apply Qpower_0_lt. reflexivity. Qed.

Lemma pow2_add (a b : Z) : 2 ^ (a + b) == 2 ^ a * 2 ^ b.
Proof. apply Qpower_plus. discriminate. Qed.

Lemma pow2_le (a b : Z) : (a <= b)%Z -> 2 ^ a <= 2 ^ b.
Proof. intros H. apply Qpower_le_compat_l; [exact H | discriminate]. Qed.

Lemma pow2_lt (a b : Z) : (a < b)%Z -> 2 ^ a < 2 ^ b.
Proof. intros H. apply Qpower_lt_compat_l; [exact H | reflexivity]. Qed.

Lemma pow2_lt_inv (a b : Z) : 2 ^ a < 2 ^ b -> (a < b)%Z.
Proof. intros H. apply (Qpower_lt_compat_l_inv 2); [exact H | reflexivity]. Qed.

Lemma pow2_Z (n : Z) : (0 <= n)%Z -> inject_Z (2 ^ n) == 2 ^ n.
Proof. intros H. apply (Zpower_Qpower 2 n H). Qed.

Lemma pow2_div (a b : Z) : 2 ^ a / 2 ^ b == 2 ^ (a - b).
Proof.
  unfold Z.sub. rewrite pow2_add, Qpower_opp. reflexivity.
Qed.

(** ** The binary logarithm *)

Lemma ilog2_spec (x : Q) : 0 < x -> 2 ^ Js.ilog2 x <= x /\ x < 2 ^ (Js.ilog2 x + 1).
Proof.
  intros Hx. unfold Js.ilog2.
  destruct (Qle_bool 1 x) eqn:E.
  - apply Qle_bool_iff in E.
    assert (Hf : (1 <= Qfloor x)%Z).
    { change 1%Z with (Qfloor 1). by apply Qfloor_resp_le. }
    destruct (Z.log2_spec (Qfloor x)) as [H1 H2]; [lia |].
    pose proof (Z.log2_nonneg (Qfloor x)) as Hk.
    split.
    + rewrite <- pow2_Z by exact Hk.
      eapply Qle_trans; [| apply Qfloor_le]. by rewrite <- Zle_Qle.
    + rewrite <- pow2_Z by lia.
      eapply Qlt_le_trans; [apply Qlt_floor |].
      rewrite <- Zle_Qle. replace (Z.log2 (Qfloor x) + 1)%Z with (Z.succ (Z.log2 (Qfloor x))) by lia. lia.
  - assert (Hlt : x < 1).
    { apply Qnot_le_lt. intros H. apply Qle_bool_iff in H. congruence. }
    assert (Hinv : 1 < / x).
    { apply Qlt_shift_inv_l; [exact Hx | by rewrite Qmult_1_l]. }
    assert (Hc : (1 < Qceiling (/ x))%Z).
    { rewrite Zlt_Qlt. eapply Qlt_le_trans; [exact Hinv | apply Qle_ceiling]. }
    destruct (Z.log2_up_spec (Qceiling (/ x)) Hc) as [H1 H2].
    pose proof (Z.log2_up_nonneg (Qceiling (/ x))) as Hj.
    set (j := Z.log2_up (Qceiling (/ x))) in *.
    assert (Hj1 : (0 < j)%Z).
    { destruct (Z.eq_dec j 0%Z) as [H0 | H0]; [| lia].
      rewrite H0 in H2. simpl in H2. lia. }
    split.
    + rewrite Qpower_opp.
      apply Qle_shift_inv_r; [apply pow2_pos |].
      assert (H : / x <= 2 ^ j).
      { eapply Qle_trans; [apply Qle_ceiling |].
        rewrite <- pow2_Z by exact Hj. by rewrite <- Zle_Qle. }
      apply (Qmult_le_compat_r _ _ x) in H; [| lra].
      rewrite Qmult_comm, Qmult_inv_r in H by lra.
      by rewrite Qmult_comm.
    + replace (- j + 1)%Z with (- (j - 1))%Z by lia. rewrite Qpower_opp.
      apply Qlt_shift_inv_l; [apply pow2_pos |].
      assert (H : 2 ^ (j - 1) < / x).
      { eapply Qle_lt_trans; [| apply Qceiling_lt].
        rewrite <- pow2_Z by lia. rewrite <- Zle_Qle.
        replace (Z.pred j) with (j - 1)%Z in H1 by lia. lia. }
      apply (Qmult_lt_compat_r _ _ x) in H; [| exact Hx].
      rewrite (Qmult_comm (/ x)), Qmult_inv_r in H by lra.
      by rewrite Qmult_comm.
Qed.

Lemma ilog2_unique (x : Q) (k : Z) :
  2 ^ k <= x -> x < 2 ^ (k + 1) -> Js.ilog2 x = k.
Proof.
  intros H1 H2.
  assert (Hx : 0 < x) by (eapply Qlt_le_trans; [apply (pow2_pos k) | exact H1]).
  destruct (ilog2_spec x Hx) as [H3 H4].
  assert (Ha : (k < Js.ilog2 x + 1)%Z).
  { apply pow2_lt_inv. eapply Qle_lt_trans; eassumption. }
  assert (Hb : (Js.ilog2 x < k + 1)%Z).
  { apply pow2_lt_inv. eapply Qle_lt_trans; eassumption. }
  lia.
Qed.

Lemma ilog2_mono (x y : Q) : 0 < x -> x <= y -> (Js.ilog2 x <= Js.ilog2 y)%Z.
Proof.
  intros Hx Hxy.
  assert (Hy : 0 < y) by lra.
  destruct (ilog2_spec x Hx) as [H1 _]. destruct (ilog2_spec y Hy) as [_ H2].
  assert (H : (Js.ilog2 x < Js.ilog2 y + 1)%Z).
  { apply pow2_lt_inv. lra. }
  lia.
Qed.

Lemma ilog2_lt (x : Q) (k : Z) : 0 < x -> x < 2 ^ (k + 1) -> (Js.ilog2 x <= k)%Z.
Proof.
  intros Hx H. destruct (ilog2_spec x Hx) as [H1 _].
  assert (Ha : (Js.ilog2 x < k + 1)%Z) by (apply pow2_lt_inv; lra).
  lia.
Qed.

Lemma ilog2_ge (x : Q) (k : Z) : 2 ^ k <= x -> (k <= Js.ilog2 x)%Z.
Proof.
  intros H.
  assert (Hx : 0 < x) by (eapply Qlt_le_trans; [apply (pow2_pos k) | exact H]).
  destruct (ilog2_spec x Hx) as [_ H2].
  assert (Ha : (k < Js.ilog2 x + 1)%Z) by (apply pow2_lt_inv; lra).
  lia.
Qed.

(** ** Rounding to an integer *)

Lemma Qfloor_bounds (x : Q) : inject_Z (Qfloor x) <= x /\ x < inject_Z (Qfloor x) + 1.
Proof.
  split; [apply Qfloor_le |].
  pose proof (Qlt_floor x) as H. rewrite inject_Z_plus in H. exact H.
Qed.

Lemma rhe_cases (x : Q) :
  (Js.rhe x = Qfloor x /\ x - inject_Z (Qfloor x) <= 1 # 2)
  \/ (Js.rhe x = (Qfloor x + 1)%Z /\ 1 # 2 <= x - inject_Z (Qfloor x)).
Proof.
  unfold Js.rhe.
  destruct (x - inject_Z (Qfloor x) ?= 1 # 2) eqn:E.
  - apply Qeq_alt in E.
    destruct (Z.even (Qfloor x)); [left | right]; (split; [reflexivity | lra]).
  - apply Qlt_alt in E. left. split; [reflexivity | lra].
  - apply Qgt_alt in E. right. split; [reflexivity | lra].
Qed.

Lemma rhe_near (x : Q) :
  x - (1 # 2) <= inject_Z (Js.rhe x) /\ inject_Z (Js.rhe x) <= x + (1 # 2).
Proof.
  destruct (Qfloor_bounds x) as [H1 H2].
  destruct (rhe_cases x) as [[-> H] | [-> H]]; rewrite ?inject_Z_plus;
    change (inject_Z 1) with 1; split; lra.
Qed.

Lemma rhe_Z (z : Z) : Js.rhe (inject_Z z) = z.
Proof.
  unfold Js.rhe. rewrite Qfloor_Z.
  assert (E : (inject_Z z - inject_Z z ?= 1 # 2) = Lt).
  { apply Qlt_alt. assert (H : inject_Z z - inject_Z z == 0) by ring.
    rewrite H. reflexivity. }
  by rewrite E.
Qed.

#[global] Instance rhe_proper : Proper (Qeq ==> eq) Js.rhe.
Proof.
  intros x y Hxy. unfold Js.rhe. rewrite (Qfloor_comp x y Hxy).
  assert (E : (x - inject_Z (Qfloor y) ?= 1 # 2) = (y - inject_Z (Qfloor y) ?= 1 # 2)).
  { by rewrite Hxy. }
  by rewrite E.
Qed.

Lemma rhe_mono (x y : Q) : x <= y -> (Js.rhe x <= Js.rhe y)%Z.
Proof.
  intros Hxy.
  pose proof (Qfloor_resp_le x y Hxy) as Hf.
  destruct (Qfloor_bounds x) as [Hx1 Hx2]. destruct (Qfloor_bounds y) as [Hy1 Hy2].
  destruct (Z.eq_dec (Qfloor x) (Qfloor y)) as [Heq | Hne].
  - unfold Js.rhe. rewrite Heq.
    destruct (x - inject_Z (Qfloor y) ?= 1 # 2) eqn:Ex;
      destruct (y - inject_Z (Qfloor y) ?= 1 # 2) eqn:Ey;
      first [apply Qeq_alt in Ex | apply Qlt_alt in Ex | apply Qgt_alt in Ex];
      first [apply Qeq_alt in Ey | apply Qlt_alt in Ey | apply Qgt_alt in Ey];
      try (destruct (Z.even (Qfloor y))); try lia;
      exfalso; set (f := inject_Z (Qfloor y)) in *; clearbody f; lra.
  - assert (Hlt : (Qfloor x + 1 <= Qfloor y)%Z) by lia.
    destruct (rhe_cases x) as [[-> _] | [-> _]];
      destruct (rhe_cases y) as [[-> _] | [-> _]]; lia.
Qed.

Lemma rhe_nonneg (x : Q) : 0 <= x -> (0 <= Js.rhe x)%Z.
Proof. intros H. rewrite <- (rhe_Z 0). by apply rhe_mono. Qed.

(** ** Rounding to the multiples of a power of two *)

Lemma on_grid_mono (e : Z) (x y : Q) : x <= y -> Js.on_grid e x <= Js.on_grid e y.
Proof.
  intros Hxy. unfold Js.on_grid.
  apply Qmult_le_compat_r; [| apply Qlt_le_weak, pow2_pos].
  rewrite <- Zle_Qle. apply rhe_mono.
  apply Qmult_le_compat_r; [exact Hxy |].
  apply Qlt_le_weak, Qinv_lt_0_compat, pow2_pos.
Qed.

Lemma on_grid_exact (e e' : Z) (m : Z) :
  (e <= e')%Z -> Js.on_grid e (inject_Z m * 2 ^ e') == inject_Z m * 2 ^ e'.
Proof.
  intros He. unfold Js.on_grid.
  assert (Hs : inject_Z m * 2 ^ e' / 2 ^ e == inject_Z (m * 2 ^ (e' - e))).
  { rewrite inject_Z_mult, pow2_Z by lia.
    unfold Qdiv. rewrite <- Qmult_assoc. apply Qmult_comp; [reflexivity |].
    apply pow2_div. }
  rewrite Hs, rhe_Z, inject_Z_mult, pow2_Z by lia.
  rewrite <- Qmult_assoc, <- pow2_add.
  replace (e' - e + e)%Z with e' by lia. reflexivity.
Qed.

Lemma on_grid_near (e : Z) (x : Q) :
  x - 2 ^ (e - 1) <= Js.on_grid e x /\ Js.on_grid e x <= x + 2 ^ (e - 1).
Proof.
  unfold Js.on_grid.
  destruct (rhe_near (x / 2 ^ e)) as [H1 H2].
  pose proof (pow2_pos e) as Hp.
  assert (Hhalf : 2 ^ (e - 1) == (1 # 2) * 2 ^ e).
  { unfold Z.sub. rewrite pow2_add. rewrite Qmult_comm. reflexivity. }
  assert (Hx : x == x / 2 ^ e * 2 ^ e) by (field; lra).
  rewrite Hhalf.
  apply (Qmult_le_compat_r _ _ (2 ^ e)) in H1; [| lra].
  apply (Qmult_le_compat_r _ _ (2 ^ e)) in H2; [| lra].
  set (s := x / 2 ^ e) in *. set (p := 2 ^ e) in *.
  set (m := inject_Z (Js.rhe s)) in *.
  clearbody m. clearbody s. clearbody p. clear Hhalf.
  rewrite Hx. split; lra.
Qed.

(** ** Rounding a positive number *)

#[global] Instance ilog2_proper : Proper (Qeq ==> eq) Js.ilog2.
Proof.
  intros x y Hxy. unfold Js.ilog2.
  assert (E : Qle_bool 1 x = Qle_bool 1 y).
  { apply eq_true_iff_eq. rewrite !Qle_bool_iff.
    split; intros H; lra. }
  rewrite E, (Qfloor_comp x y Hxy).
  assert (Hc : Qceiling (/ x) = Qceiling (/ y)).
  { apply Qceiling_comp. by rewrite Hxy. }
  by rewrite Hc.
Qed.

#[global] Instance expo_proper : Proper (Qeq ==> eq) Js.expo.
Proof. intros x y Hxy. unfold Js.expo. by rewrite Hxy. Qed.

#[global] Instance on_grid_proper : Proper (eq ==> Qeq ==> Qeq) Js.on_grid.
Proof. intros e ? <- x y Hxy. unfold Js.on_grid. by rewrite Hxy. Qed.

#[global] Instance round_pos_proper : Proper (Qeq ==> Qeq) Js.round_pos.
Proof.
  intros x y Hxy. unfold Js.round_pos. rewrite (expo_proper x y Hxy).
  by apply on_grid_proper.
Qed.

Lemma round64_proper (x y : Q) : x == y -> Js.round64 x = Js.round64 y.
Proof.
  intros Hxy. unfold Js.round64. apply Qred_complete.
  assert (E : (x ?= 0) = (y ?= 0)) by by rewrite Hxy.
  rewrite E. destruct (y ?= 0); [reflexivity | |].
  - apply Qopp_comp, round_pos_proper. by rewrite Hxy.
  - by apply round_pos_proper.
Qed.

Lemma expo_ge (x : Q) : (-1074 <= Js.expo x)%Z.
Proof. unfold Js.expo. lia. Qed.

Lemma expo_le (x : Q) (k : Z) :
  0 < x -> x < 2 ^ (k + 1) -> (Js.expo x <= Z.max (k - 52) (-1074))%Z.
Proof.
  intros Hx H. pose proof (ilog2_lt x k Hx H). unfold Js.expo. lia.
Qed.

Lemma expo_normal (x : Q) :
  2 ^ (-1022) <= x -> Js.expo x = (Js.ilog2 x - 52)%Z.
Proof.
  intros H. pose proof (ilog2_ge x _ H). unfold Js.expo. lia.
Qed.

Lemma round_pos_mono (x y : Q) :
  0 < x -> x <= y -> Js.round_pos x <= Js.round_pos y.
Proof.
  intros Hx Hxy. assert (Hy : 0 < y) by lra.
  pose proof (ilog2_mono x y Hx Hxy) as Hk.
  unfold Js.round_pos.
  destruct (Z.eq_dec (Js.expo x) (Js.expo y)) as [Heq | Hne].
  - rewrite Heq. by apply on_grid_mono.
  - assert (Hey : Js.expo y = (Js.ilog2 y - 52)%Z) by (unfold Js.expo in *; lia).
    assert (Hlt : (Js.ilog2 x < Js.ilog2 y)%Z) by (unfold Js.expo in *; lia).
    assert (Hex : (Js.expo x < Js.expo y)%Z) by (unfold Js.expo in *; lia).
    destruct (ilog2_spec x Hx) as [_ Hx2]. destruct (ilog2_spec y Hy) as [Hy1 _].
    set (ky := Js.ilog2 y) in *.
    assert (Hp : inject_Z 1 * 2 ^ ky == 2 ^ ky) by (change (inject_Z 1) with 1; ring).
    apply Qle_trans with (inject_Z 1 * 2 ^ ky).
    + rewrite <- (on_grid_exact (Js.expo x) ky 1) by lia.
      apply on_grid_mono. rewrite Hp.
      apply Qlt_le_weak. eapply Qlt_le_trans; [exact Hx2 |]. apply pow2_le. lia.
    + rewrite <- (on_grid_exact (Js.expo y) ky 1) by lia.
      apply on_grid_mono. by rewrite Hp.
Qed.

Lemma round_pos_near (x : Q) :
  x - 2 ^ (Js.expo x - 1) <= Js.round_pos x
  /\ Js.round_pos x <= x + 2 ^ (Js.expo x - 1).
Proof. apply on_grid_near. Qed.

Lemma round_pos_nonneg (x : Q) : 0 <= x -> 0 <= Js.round_pos x.
Proof.
  intros Hx. unfold Js.round_pos, Js.on_grid.
  apply Qmult_le_0_compat; [| apply Qlt_le_weak, pow2_pos].
  change 0 with (inject_Z 0). rewrite <- Zle_Qle. apply rhe_nonneg.
  apply Qle_shift_div_l; [apply pow2_pos | lra].
Qed.

(** A value with a mantissa of at most 53 bits is its own rounding. *)
Lemma round_pos_exact (m e : Z) :
  (0 < m <= 2 ^ 53)%Z -> (-1074 <= e)%Z ->
  Js.round_pos (inject_Z m * 2 ^ e) == inject_Z m * 2 ^ e.
Proof.
  intros [Hm1 Hm2] He. unfold Js.round_pos.
  pose proof (pow2_pos e) as Hp.
  destruct (Z.eq_dec m (2 ^ 53)%Z) as [-> | Hne].
  - assert (Hx : inject_Z (2 ^ 53) * 2 ^ e == inject_Z 1 * 2 ^ (53 + e)).
    { rewrite pow2_Z by lia. rewrite pow2_add. change (inject_Z 1) with 1. ring. }
    rewrite Hx. apply on_grid_exact.
    assert (Hk : Js.ilog2 (inject_Z 1 * 2 ^ (53 + e)) = (53 + e)%Z).
    { apply ilog2_unique; change (inject_Z 1) with 1; rewrite Qmult_1_l.
      - apply Qle_refl.
      - apply pow2_lt. lia. }
    unfold Js.expo. rewrite Hk. lia.
  - apply on_grid_exact.
    assert (Hx : 0 < inject_Z m * 2 ^ e).
    { apply Qmult_lt_0_compat; [| exact Hp].
      change 0 with (inject_Z 0). rewrite <- Zlt_Qlt. lia. }
    assert (Hlt : inject_Z m * 2 ^ e < 2 ^ (52 + e + 1)).
    { replace (52 + e + 1)%Z with (53 + e)%Z by lia. rewrite pow2_add.
      apply Qmult_lt_compat_r; [exact Hp |].
      rewrite <- pow2_Z by lia. rewrite <- Zlt_Qlt. lia. }
    pose proof (expo_le _ _ Hx Hlt). lia.
Qed.

(** The mantissa of a rounded value. *)
Lemma round_pos_mantissa (x : Q) :
  0 < x ->
  exists m : Z,
    Js.round_pos x == inject_Z m * 2 ^ Js.expo x
    /\ (0 <= m <= 2 ^ 53)%Z
    /\ (Js.expo x = (Js.ilog2 x - 52)%Z -> (2 ^ 52 <= m)%Z).
Proof.
  intros Hx. exists (Js.rhe (x / 2 ^ Js.expo x)).
  pose proof (pow2_pos (Js.expo x)) as Hp.
  destruct (ilog2_spec x Hx) as [H1 H2].
  split; [reflexivity |]. split; [split |].
  - apply rhe_nonneg. apply Qle_shift_div_l; [exact Hp | lra].
  - rewrite <- (rhe_Z (2 ^ 53)). apply rhe_mono.
    apply Qle_shift_div_r; [exact Hp |].
    rewrite pow2_Z by lia. rewrite <- pow2_add.
    apply Qlt_le_weak. eapply Qlt_le_trans; [exact H2 |].
    apply pow2_le. unfold Js.expo. lia.
  - intros He. rewrite <- (rhe_Z (2 ^ 52)). apply rhe_mono.
    apply Qle_shift_div_l; [exact Hp |].
    rewrite pow2_Z by lia. rewrite <- pow2_add.
    eapply Qle_trans; [| exact H1]. apply pow2_le. lia.
Qed.

(** Halving a rounded value above the subnormal range is exact. *)
Lemma round_pos_half (x : Q) :
  0 < x -> (-1073 <= Js.expo x)%Z ->
  Js.round_pos (Js.round_pos x / 2) == Js.round_pos x / 2.
Proof.
  intros Hx He.
  destruct (round_pos_mantissa x Hx) as (m & Hm & [Hm0 Hm1] & Hm2).
  assert (Hnorm : Js.expo x = (Js.ilog2 x - 52)%Z) by (unfold Js.expo in *; lia).
  specialize (Hm2 Hnorm).
  assert (Hhalf : Js.round_pos x / 2 == inject_Z m * 2 ^ (Js.expo x - 1)).
  { rewrite Hm. unfold Z.sub. rewrite pow2_add.
    change (2 ^ Z.opp 1) with (/ 2).
    generalize (2 ^ Js.expo x). intros p. field. }
  rewrite Hhalf. apply round_pos_exact; lia.
Qed.

(** ** [round64] on the non-negative numbers *)

Lemma round64_0 : Js.round64 0 = 0.
Proof. reflexivity. Qed.

Lemma round64_pos (x : Q) : 0 < x -> Js.round64 x == Js.round_pos x.
Proof.
  intros Hx. unfold Js.round64. rewrite Qred_correct.
  assert (E : (x ?= 0) = Gt) by (by apply Qgt_alt).
  by rewrite E.
Qed.

Lemma round64_nonneg (x : Q) : 0 <= x -> 0 <= Js.round64 x.
Proof.
  intros Hx. destruct (Qlt_le_dec 0 x) as [Hp | Hz].
  - rewrite (round64_pos x Hp). by apply round_pos_nonneg.
  - assert (H0 : x == 0) by lra. rewrite (round64_proper x 0 H0), round64_0. lra.
Qed.

Lemma round64_mono (x y : Q) : 0 <= x -> x <= y -> Js.round64 x <= Js.round64 y.
Proof.
  intros Hx Hxy. destruct (Qlt_le_dec 0 x) as [Hp | Hz].
  - assert (Hy : 0 < y) by lra.
    rewrite (round64_pos x Hp), (round64_pos y Hy). by apply round_pos_mono.
  - assert (H0 : x == 0) by lra. rewrite (round64_proper x 0 H0), round64_0.
    apply round64_nonneg. lra.
Qed.

(** The values of [round64] are reduced fractions. *)
Lemma round64_canon (x y : Q) :
  Js.round64 x == Js.round64 y -> Js.round64 x = Js.round64 y.
Proof.
  unfold Js.round64. intros H. apply Qred_complete.
  by rewrite !Qred_correct in H.
Qed.

Lemma round64_between (lo hi x v : Q) :
  0 <= lo -> lo <= x -> x <= hi ->
  Js.round64 lo = v -> Js.round64 hi = v -> Js.round64 x = v.
Proof.
  intros H0 H1 H2 Hlo Hhi.
  pose proof (round64_mono lo x H0 H1) as Ha.
  assert (Hx : 0 <= x) by lra.
  pose proof (round64_mono x hi Hx H2) as Hb.
  rewrite <- Hlo. apply round64_canon. rewrite Hlo in *. rewrite Hhi in *. lra.
Qed.

Lemma round64_exact (m e : Z) :
  (0 <= m <= 2 ^ 53)%Z -> (-1074 <= e)%Z ->
  Js.round64 (inject_Z m * 2 ^ e) == inject_Z m * 2 ^ e.
Proof.
  intros [Hm1 Hm2] He.
  destruct (Z.eq_dec m 0%Z) as [-> | Hne].
  - assert (H0 : inject_Z 0 * 2 ^ e == 0) by (change (inject_Z 0) with 0; ring).
    rewrite (round64_proper _ 0 H0), round64_0. by rewrite H0.
  - assert (Hx : 0 < inject_Z m * 2 ^ e).
    { apply Qmult_lt_0_compat; [| apply pow2_pos].
      change 0 with (inject_Z 0). rewrite <- Zlt_Qlt. lia. }
    rewrite (round64_pos _ Hx). apply round_pos_exact; lia.
Qed.

(** The error of a rounding below [2 ^ (k + 1)] in the normal range. *)
Lemma round64_near (x : Q) (k : Z) :
  0 < x -> x < 2 ^ (k + 1) -> (-1022 <= k)%Z ->
  x - 2 ^ (k - 53) <= Js.round64 x /\ Js.round64 x <= x + 2 ^ (k - 53).
Proof.
  intros Hx Hlt Hk. rewrite (round64_pos x Hx).
  destruct (round_pos_near x) as [H1 H2].
  pose proof (expo_le x k Hx Hlt) as He.
  assert (Hp : 2 ^ (Js.expo x - 1) <= 2 ^ (k - 53)) by (apply pow2_le; lia).
  split; lra.
Qed.

(** The relative error of a rounding in the normal range. *)
Lemma round64_rel (x : Q) :
  2 ^ (-1022) <= x ->
  x - (1 # 9007199254740992) * x <= Js.round64 x /\ Js.round64 x <= x + (1 # 9007199254740992) * x.
Proof.
  intros Hn.
  assert (Hx : 0 < x) by (eapply Qlt_le_trans; [apply (pow2_pos (-1022)) | exact Hn]).
  destruct (ilog2_spec x Hx) as [H1 H2].
  pose proof (ilog2_ge x _ Hn) as Hk.
  destruct (round64_near x (Js.ilog2 x) Hx H2 Hk) as [H3 H4].
  assert (Hp : 2 ^ (Js.ilog2 x - 53) == (1 # 9007199254740992) * 2 ^ Js.ilog2 x).
  { unfold Z.sub. rewrite pow2_add. rewrite Qmult_comm. reflexivity. }
  rewrite Hp in H3, H4.
  set (p := 2 ^ Js.ilog2 x) in *. clearbody p. clear Hp H2 Hk Hn.
  split; lra.
Qed.

(** Halving a rounded value of the normal range is exact. *)
Lemma round64_half (x : Q) :
  2 ^ (-1021) <= x -> Js.round64 (Js.round64 x / 2) == Js.round64 x / 2.
Proof.
  intros Hn.
  assert (Hx : 0 < x) by (eapply Qlt_le_trans; [apply (pow2_pos (-1021)) | exact Hn]).
  pose proof (ilog2_ge x _ Hn) as Hk.
  assert (He : (-1073 <= Js.expo x)%Z) by (unfold Js.expo; lia).
  destruct (round_pos_mantissa x Hx) as (m & Hm & [Hm0 Hm1] & Hm2).
  assert (Hnorm : Js.expo x = (Js.ilog2 x - 52)%Z) by (unfold Js.expo in *; lia).
  specialize (Hm2 Hnorm).
  assert (Hhalf : Js.round64 x / 2 == inject_Z m * 2 ^ (Js.expo x - 1)).
  { rewrite (round64_pos x Hx), Hm. unfold Z.sub. rewrite pow2_add.
    change (2 ^ Z.opp 1) with (/ 2).
    generalize (2 ^ Js.expo x). intros p. field. }
  rewrite (round64_proper _ _ Hhalf), Hhalf. apply round64_exact; lia.
Qed.


(** A rounded value that reaches [2 ^ j], of a number below [2 ^ (j + 1)],
    is a multiple of [2 ^ (j - 52)]. *)
Lemma round64_grid (z : Q) (j : Z) :
  0 < z -> z < 2 ^ (j + 1) -> (-1022 <= j)%Z -> 2 ^ j <= Js.round64 z ->
  exists m : Z, Js.round64 z == inject_Z m * 2 ^ (j - 52).
Proof.
  intros Hz Hlt Hj Hge.
  destruct (Qlt_le_dec z (2 ^ j)) as [Hlow | Hhigh].
  - exists (2 ^ 52)%Z.
    assert (E : inject_Z 1 * 2 ^ j == 2 ^ j)
      by (change (inject_Z 1) with 1; ring).
    assert (Hle : Js.round64 z <= 2 ^ j).
    { rewrite <- E. rewrite <- (round64_exact 1 j) by lia.
      apply round64_mono; [lra |]. rewrite E. lra. }
    rewrite pow2_Z by lia. rewrite <- pow2_add.
    replace (52 + (j - 52))%Z with j by lia. lra.
  - pose proof (ilog2_unique z j Hhigh Hlt) as Hk.
    exists (Js.rhe (z / 2 ^ Js.expo z)).
    rewrite (round64_pos z Hz). unfold Js.round_pos, Js.on_grid.
    replace (Js.expo z) with (j - 52)%Z by (unfold Js.expo; lia).
    reflexivity.
Qed.

(** Two multiples of [g] that differ are at least [g] apart. *)
Lemma grid_gap (v b g : Q) (m mb : Z) :
  0 < g -> v == inject_Z m * g -> b == inject_Z mb * g -> v < b -> g <= b - v.
Proof.
  intros Hg Hv Hb Hlt. rewrite Hv, Hb in Hlt. rewrite Hv, Hb.
  apply Qmult_lt_r in Hlt; [| exact Hg].
  rewrite <- Zlt_Qlt in Hlt.
  assert (H1 : inject_Z m + 1 <= inject_Z mb).
  { change 1 with (inject_Z 1). rewrite <- inject_Z_plus, <- Zle_Qle. lia. }
  set (a := inject_Z m) in *. set (c := inject_Z mb) in *.
  clearbody a c. nra.
Qed.

End Rounding.

(** ** Numbers *)

Section LayoutFacts.
Local Open Scope Q_scope.

Lemma Qcompare_Gt_pos (q : Q) : (q ?= 0) = Gt <-> 0 < q.
Proof. rewrite <- Qgt_alt. reflexivity. Qed.

Lemma of_rounded_proper (p q : Q) : p == q -> Js.of_rounded p = Js.of_rounded q.
Proof. intros H. unfold Js.of_rounded. by rewrite (round64_proper p q H). Qed.

(** No overflow below [2 ^ 64]. *)
Lemma of_rounded_Fin (q : Q) :
  0 <= q -> q <= 18446744073709551616 ->
  Js.of_rounded q = Js.Fin (Js.round64 q).
Proof.
  intros H0 H1. unfold Js.of_rounded.
  pose proof (round64_nonneg q H0) as Ha.
  pose proof (round64_mono q _ H0 H1) as Hb.
  assert (Hv : Js.round64 18446744073709551616 = 18446744073709551616)
    by (vm_compute; reflexivity).
  rewrite Hv in Hb.
  assert (Hm : 18446744073709551616 <= Js.max_value)
    by (apply Qle_bool_iff; vm_compute; reflexivity).
  assert (E1 : Qle_bool (Js.round64 q) Js.max_value = true)
    by (apply Qle_bool_iff; lra).
  assert (E2 : Qle_bool (- Js.max_value) (Js.round64 q) = true)
    by (apply Qle_bool_iff; lra).
  cbv zeta. by rewrite E1, E2.
Qed.

Lemma div_Fin (p q : Q) :
  0 < q -> Js.div (Js.Fin p) (Js.Fin q) = Js.of_rounded (p / q).
Proof. intros Hq. apply Qcompare_Gt_pos in Hq. unfold Js.div. by rewrite Hq. Qed.

Lemma div_Fin_zero_pos (p : Q) :
  0 < p -> Js.div (Js.Fin p) (Js.Fin 0) = Js.PInf.
Proof.
  intros Hp. apply Qcompare_Gt_pos in Hp. unfold Js.div.
  change (0 ?= 0) with Eq. by rewrite Hp.
Qed.

Lemma gt_Fin_true (p q : Q) : Js.gt (Js.Fin p) (Js.Fin q) = true <-> q < p.
Proof.
  simpl. rewrite (Qgt_alt p q).
  destruct (p ?= q); split; congruence.
Qed.

Lemma gt_Fin_false (p q : Q) : Js.gt (Js.Fin p) (Js.Fin q) = false <-> p <= q.
Proof.
  simpl. rewrite Qle_alt.
  destruct (p ?= q); split; congruence.
Qed.

Lemma inject_N_pos (n : N) : (0 < n)%N -> 0 < inject_Z (Z.of_N n).
Proof. intros H. change 0 with (inject_Z 0). rewrite <- Zlt_Qlt. lia. Qed.

Lemma inject_N_ge_1 (n : N) : (0 < n)%N -> 1 <= inject_Z (Z.of_N n).
Proof. intros H. change 1 with (inject_Z 1). rewrite <- Zle_Qle. lia. Qed.

Lemma inject_N_le (n : N) :
  (n < 2 ^ 53)%N -> inject_Z (Z.of_N n) <= 9007199254740992.
Proof.
  intros H. change 9007199254740992 with (inject_Z 9007199254740992).
  rewrite <- Zle_Qle. change (2 ^ 53)%N with 9007199254740992%N in H. lia.
Qed.

Lemma normal_of_ge (x : Q) :
  (1 # 9007199254740992) <= x -> 2 ^ (-1021) <= x /\ 2 ^ (-1022) <= x.
Proof.
  intros H.
  pose proof (pow2_le (-1021) (-53)) as H1.
  pose proof (pow2_le (-1022) (-1021)) as H2.
  assert (E : 2 ^ (-53) == 1 # 9007199254740992) by reflexivity.
  rewrite E in H1.
  assert (Ha : 2 ^ (-1021) <= 1 # 9007199254740992) by (apply H1; lia).
  assert (Hb : 2 ^ (-1022) <= 2 ^ (-1021)) by (apply H2; lia).
  clear H1 H2 E.
  set (a := 2 ^ (-1021)) in *. set (b := 2 ^ (-1022)) in *.
  clearbody a b. split; lra.
Qed.

(** ** Layout *)

Local Abbreviation pr0 := (772277914440789 # 1125899906842624).

Lemma maxWidth_value : maxWidth = Js.Fin 190.
Proof. vm_compute. reflexivity. Qed.

Lemma maxHeight_value : maxHeight = Js.Fin 277.
Proof. vm_compute. reflexivity. Qed.

Lemma pageRatio_value : (maxWidth / maxHeight)%js = Js.Fin pr0.
Proof. vm_compute. reflexivity. Qed.

Lemma mul_maxHeight (r : Q) :
  0 <= r -> r <= 9007199254740992 ->
  (maxHeight * Js.Fin r)%js = Js.Fin (Js.round64 (277 * r)).
Proof.
  intros H0 H1. rewrite maxHeight_value.
  change (Js.of_rounded (277 * r) = Js.Fin (Js.round64 (277 * r))).
  apply of_rounded_Fin; lra.
Qed.

Lemma div_maxWidth (r : Q) :
  pr0 < r -> (maxWidth / Js.Fin r)%js = Js.Fin (Js.round64 (190 / r)).
Proof.
  intros H0. assert (Hr : 0 < r) by lra.
  rewrite maxWidth_value, (div_Fin _ _ Hr).
  apply of_rounded_Fin.
  - apply Qle_shift_div_l; [exact Hr | lra].
  - apply Qle_shift_div_r; [exact Hr | lra].
Qed.

Lemma sub_pageWidth (rw : Q) :
  0 <= rw -> rw <= 190 ->
  (pageWidth - Js.Fin rw)%js = Js.Fin (Js.round64 (210 - rw)).
Proof.
  intros H0 H1.
  change (Js.of_rounded (210 - rw) = Js.Fin (Js.round64 (210 - rw))).
  apply of_rounded_Fin; lra.
Qed.

Lemma sub_pageHeight (rh : Q) :
  0 <= rh -> rh <= 277 ->
  (pageHeight - Js.Fin rh)%js = Js.Fin (Js.round64 (297 - rh)).
Proof.
  intros H0 H1.
  change (Js.of_rounded (297 - rh) = Js.Fin (Js.round64 (297 - rh))).
  apply of_rounded_Fin; lra.
Qed.

Lemma half_Fin (s : Q) :
  0 <= s -> s <= 9007199254740992 ->
  (Js.Fin s / Js.of_Z 2)%js = Js.Fin (Js.round64 (s / 2)).
Proof.
  intros H0 H1.
  change (Js.of_rounded (s / 2) = Js.Fin (Js.round64 (s / 2))).
  assert (E : s / 2 == (1 # 2) * s) by field.
  apply of_rounded_Fin; rewrite E; lra.
Qed.

Lemma add_Fin (p q : Q) :
  0 <= p -> 0 <= q -> p + q <= 9007199254740992 ->
  (Js.Fin p + Js.Fin q)%js = Js.Fin (Js.round64 (p + q)).
Proof.
  intros H0 H1 H2.
  change (Js.of_rounded (p + q) = Js.Fin (Js.round64 (p + q))).
  apply of_rounded_Fin; lra.
Qed.

Lemma imgRatio_value (w h : N) :
  (0 < h)%N -> (w < 2 ^ 53)%N ->
  (Js.of_N w / Js.of_N h)%js
  = Js.Fin (Js.round64 (inject_Z (Z.of_N w) / inject_Z (Z.of_N h))).
Proof.
  intros Hh Hw53. unfold Js.of_N, Js.of_Z.
  pose proof (inject_N_ge_1 h Hh) as H1. pose proof (inject_N_le w Hw53) as H2.
  assert (H0 : 0 <= inject_Z (Z.of_N w)).
  { change 0 with (inject_Z 0). rewrite <- Zle_Qle. lia. }
  rewrite div_Fin by lra. apply of_rounded_Fin.
  - apply Qle_shift_div_l; lra.
  - apply Qle_shift_div_r; lra.
Qed.

Lemma ratio_bounds (w h : N) :
  (0 < w)%N -> (0 < h)%N -> (w < 2 ^ 53)%N -> (h < 2 ^ 53)%N ->
  (1 # 9007199254740992) <= inject_Z (Z.of_N w) / inject_Z (Z.of_N h)
  /\ inject_Z (Z.of_N w) / inject_Z (Z.of_N h) <= 9007199254740992.
Proof.
  intros Hw Hh Hw53 Hh53.
  pose proof (inject_N_ge_1 w Hw). pose proof (inject_N_ge_1 h Hh).
  pose proof (inject_N_le w Hw53). pose proof (inject_N_le h Hh53).
  split.
  - apply Qle_shift_div_l; lra.
  - apply Qle_shift_div_r; lra.
Qed.

(** The rounded ratio keeps the bounds of the ratio and is within one part
    in [2 ^ 53] of it. *)
Lemma round64_ratio (q : Q) :
  (1 # 9007199254740992) <= q -> q <= 9007199254740992 ->
  (1 # 9007199254740992) <= Js.round64 q
  /\ Js.round64 q <= 9007199254740992
  /\ q - (1 # 9007199254740992) * q <= Js.round64 q
  /\ Js.round64 q <= q + (1 # 9007199254740992) * q.
Proof.
  intros H1 H2.
  assert (Ha : Js.round64 (1 # 9007199254740992) = 1 # 9007199254740992)
    by (vm_compute; reflexivity).
  assert (Hb : Js.round64 9007199254740992 = 9007199254740992)
    by (vm_compute; reflexivity).
  destruct (normal_of_ge q H1) as [_ Hn].
  destruct (round64_rel q Hn) as [H3 H4].
  split; [| split; [| split; assumption]].
  - eapply Qle_trans; [| apply (round64_mono (1 # 9007199254740992) q); lra].
    rewrite Ha. lra.
  - eapply Qle_trans; [apply (round64_mono q 9007199254740992); lra |].
    rewrite Hb. lra.
Qed.

Lemma ratio_close (a b q e : Q) :
  0 < b -> q * b - e * (q * b) <= a -> a <= q * b + e * (q * b) ->
  Qabs (a / b - q) <= e * q.
Proof.
  intros Hb H1 H2. apply Qabs_Qle_condition.
  assert (Ha : a / b * b == a) by (field; lra).
  set (t := a / b) in *. clearbody t.
  split; apply (Qmult_le_r _ _ b Hb); nra.
Qed.

(** The tall branch: the rect is 277 high. *)
Lemma tall_width (r : Q) :
  0 <= r -> r <= pr0 ->
  0 <= Js.round64 (277 * r) /\ Js.round64 (277 * r) <= 190.
Proof.
  intros H0 H1. split; [apply round64_nonneg; lra |].
  assert (Hv : Js.round64 (277 * pr0) = 190) by (vm_compute; reflexivity).
  eapply Qle_trans; [apply (round64_mono _ (277 * pr0)); lra |].
  rewrite Hv. lra.
Qed.

(** The wide branch: the rect is 190 wide. *)
Lemma wide_height (r : Q) :
  pr0 < r -> r <= 9007199254740992 ->
  0 < Js.round64 (190 / r) /\ Js.round64 (190 / r) <= 277
  /\ 190 - (1 # 9007199254740992) * 190 <= Js.round64 (190 / r) * r
  /\ Js.round64 (190 / r) * r <= 190 + (1 # 9007199254740992) * 190.
Proof.
  intros H0 H1. assert (Hr : 0 < r) by lra.
  assert (Hd : 190 / r * r == 190) by (field; lra).
  assert (Hlo : (1 # 9007199254740992) <= 190 / r).
  { apply Qle_shift_div_l; lra. }
  assert (Hhi : 190 / r <= 190 / pr0).
  { apply Qle_shift_div_r; [exact Hr |].
    assert (Hc : 190 / pr0 * pr0 == 190) by reflexivity.
    assert (Hc0 : 0 < 190 / pr0) by reflexivity.
    set (c := 190 / pr0) in *. clearbody c. nra. }
  destruct (normal_of_ge _ Hlo) as [_ Hn].
  destruct (round64_rel _ Hn) as [H3 H4].
  assert (Hv : Js.round64 (190 / pr0) = 277) by (vm_compute; reflexivity).
  assert (Hle : Js.round64 (190 / r) <= 277).
  { eapply Qle_trans; [apply (round64_mono _ (190 / pr0)); lra |].
    rewrite Hv. lra. }
  set (d := 190 / r) in *. set (rh := Js.round64 d) in *.
  clearbody rh. clearbody d.
  split; [lra |]. split; [exact Hle |].
  split; nra.
Qed.

(** The offset that centres a box of size [v] on a page of size [c]. *)
Lemma offset_facts (c v : Q) (k : Z) :
  0 <= v -> 20 <= c - v -> c < 2 ^ (k + 1) -> (0 <= k)%Z ->
  Js.round64 c = c ->
  20 <= Js.round64 (c - v)
  /\ Js.round64 (c - v) <= c
  /\ c - v - 2 ^ (k - 53) <= Js.round64 (c - v)
  /\ Js.round64 (c - v) <= c - v + 2 ^ (k - 53)
  /\ Js.round64 (Js.round64 (c - v) / 2) == Js.round64 (c - v) / 2.
Proof.
  intros Hv H20 Hc Hk Hcc.
  assert (E20 : Js.round64 20 = 20) by (vm_compute; reflexivity).
  assert (Hn : (1 # 9007199254740992) <= c - v) by lra.
  destruct (normal_of_ge _ Hn) as [Hn1 _].
  assert (Hlt : c - v < 2 ^ (k + 1)) by lra.
  assert (Hpos : 0 < c - v) by lra.
  destruct (round64_near (c - v) k Hpos Hlt) as [H1 H2]; [lia |].
  split; [| split; [| split; [exact H1 | split; [exact H2 |]]]].
  - eapply Qle_trans; [| apply (round64_mono 20 (c - v)); lra].
    rewrite E20. lra.
  - eapply Qle_trans; [apply (round64_mono (c - v) c); lra |].
    rewrite Hcc. lra.
  - by apply round64_half.
Qed.

(** The offset of a box of size [v] on a page of size [c], as the code
    computes it. *)
Lemma offset_value (c v : Q) (k : Z) :
  0 <= v -> 20 <= c - v -> c < 2 ^ (k + 1) -> (0 <= k)%Z ->
  c <= 9007199254740992 -> Js.round64 c = c ->
  10 <= Js.round64 (Js.round64 (c - v) / 2)
  /\ Js.round64 (Js.round64 (c - v) / 2) <= (1 # 2) * c
  /\ ((Js.Fin c - Js.Fin v) / Js.of_Z 2)%js
     = Js.Fin (Js.round64 (Js.round64 (c - v) / 2)).
Proof.
  intros H0 H20 Hc Hk Hc53 Hcc.
  destruct (offset_facts c v k H0 H20 Hc Hk Hcc) as (Ha & Hb & _ & _ & Hd).
  set (s := Js.round64 (c - v)) in *.
  assert (Es : Js.round64 (s / 2) == (1 # 2) * s) by (rewrite Hd; field).
  split; [lra |]. split; [lra |].
  change (Js.Fin c - Js.Fin v)%js with (Js.of_rounded (c - v)).
  rewrite of_rounded_Fin by lra. fold s.
  rewrite half_Fin by lra. reflexivity.
Qed.

(** How far the box is from centred: [tol] is a quarter of the last place
    of the numbers of the size of [c], and half of the last place of
    [c / 2]. *)
Lemma centred (c tol : Q) (k : Z) (v : Q) :
  0 <= v -> 20 <= c - v -> c < 2 ^ (k + 1) -> (0 <= k)%Z ->
  c <= 9007199254740992 -> Js.round64 c = c ->
  2 ^ (k - 53) == 2 * tol ->
  Js.round64 ((1 # 2) * c - tol) = Js.round64 (c / 2) ->
  Js.round64 ((1 # 2) * c + tol) = Js.round64 (c / 2) ->
  0 <= (1 # 2) * c - tol ->
  Js.round64 (v / 2) == v / 2 ->
  Qabs (Js.round64 (Js.round64 (c - v) / 2) + v / 2 - c / 2) <= tol
  /\ (Js.Fin (Js.round64 (Js.round64 (c - v) / 2)) + Js.Fin v / Js.of_Z 2)%js
     = (Js.Fin c / Js.of_Z 2)%js.
Proof.
  intros H0 H20 Hc Hk Hc53 Hcc Htol Hlo Hhi Hlo0 Hh.
  destruct (offset_facts c v k H0 H20 Hc Hk Hcc) as (Ha & Hb & Hc1 & Hc2 & Hd).
  rewrite Htol in Hc1, Hc2.
  set (s := Js.round64 (c - v)) in *.
  set (rx := Js.round64 (s / 2)) in *.
  set (hv := Js.round64 (v / 2)) in *.
  assert (Es : rx == (1 # 2) * s) by (rewrite Hd; field).
  assert (Ev : v / 2 == (1 # 2) * v) by field.
  assert (Ec : c / 2 == (1 # 2) * c) by field.
  assert (Eh : hv == (1 # 2) * v) by (rewrite Hh; field).
  split.
  - apply Qabs_Qle_condition. rewrite Ev, Ec. split; lra.
  - rewrite (half_Fin v) by lra. fold hv.
    rewrite (half_Fin c) by lra.
    rewrite add_Fin by lra. f_equal.
    apply (round64_between ((1 # 2) * c - tol) ((1 # 2) * c + tol));
      [exact Hlo0 | lra | lra | exact Hlo | exact Hhi].
Qed.

Lemma centre_x_offset (rw : Q) :
  0 <= rw -> rw <= 190 ->
  10 <= Js.round64 (Js.round64 (210 - rw) / 2)
  /\ Js.round64 (Js.round64 (210 - rw) / 2) <= 105
  /\ ((pageWidth - Js.Fin rw) / Js.of_Z 2)%js
     = Js.Fin (Js.round64 (Js.round64 (210 - rw) / 2)).
Proof.
  intros H0 H1.
  destruct (offset_value 210 rw 7) as (Ha & Hb & Hc);
    [exact H0 | lra | reflexivity | lia | lra | vm_compute; reflexivity |].
  split; [exact Ha |]. split; [lra | exact Hc].
Qed.

Lemma centre_y_offset (rh : Q) :
  0 <= rh -> rh <= 277 ->
  10 <= Js.round64 (Js.round64 (297 - rh) / 2)
  /\ Js.round64 (Js.round64 (297 - rh) / 2) <= 297 # 2
  /\ ((pageHeight - Js.Fin rh) / Js.of_Z 2)%js
     = Js.Fin (Js.round64 (Js.round64 (297 - rh) / 2)).
Proof.
  intros H0 H1.
  destruct (offset_value 297 rh 8) as (Ha & Hb & Hc);
    [exact H0 | lra | reflexivity | lia | lra | vm_compute; reflexivity |].
  split; [exact Ha |]. split; [lra | exact Hc].
Qed.

Lemma centred_x (rw : Q) :
  0 <= rw -> rw <= 190 -> Js.round64 (rw / 2) == rw / 2 ->
  Qabs (Js.round64 (Js.round64 (210 - rw) / 2) + rw / 2 - 210 / 2)
  <= 1 # 140737488355328
  /\ (Js.Fin (Js.round64 (Js.round64 (210 - rw) / 2)) + Js.Fin rw / Js.of_Z 2)%js
     = (pageWidth / Js.of_Z 2)%js.
Proof.
  intros H0 H1 Hh.
  apply (centred 210 (1 # 140737488355328) 7 rw);
    [exact H0 | lra | reflexivity | lia | lra | vm_compute; reflexivity
    | reflexivity | vm_compute; reflexivity | vm_compute; reflexivity
    | lra | exact Hh].
Qed.

Lemma centred_y (rh : Q) :
  0 <= rh -> rh <= 277 -> Js.round64 (rh / 2) == rh / 2 ->
  Qabs (Js.round64 (Js.round64 (297 - rh) / 2) + rh / 2 - 297 / 2)
  <= 1 # 70368744177664
  /\ (Js.Fin (Js.round64 (Js.round64 (297 - rh) / 2)) + Js.Fin rh / Js.of_Z 2)%js
     = (pageHeight / Js.of_Z 2)%js.
Proof.
  intros H0 H1 Hh.
  apply (centred 297 (1 # 70368744177664) 8 rh);
    [exact H0 | lra | reflexivity | lia | lra | vm_compute; reflexivity
    | reflexivity | vm_compute; reflexivity | vm_compute; reflexivity
    | lra | exact Hh].
Qed.

(** The two branches of [layout] on a finite image ratio [r]. *)
Lemma layout_wide (pw ph r : Q) :
  (Js.Fin pw / Js.Fin ph)%js = Js.Fin r ->
  pr0 < r -> r <= 9007199254740992 ->
  layout (Js.Fin pw) (Js.Fin ph)
  = mkRect (Js.Fin 10)
           (Js.Fin (Js.round64 (Js.round64 (297 - Js.round64 (190 / r)) / 2)))
           (Js.Fin 190)
           (Js.Fin (Js.round64 (190 / r))).
Proof.
  intros Hd H0 H1.
  destruct (wide_height r H0 H1) as (Ha & Hb & _).
  destruct (centre_y_offset (Js.round64 (190 / r))) as (_ & _ & Hy);
    [lra | exact Hb |].
  assert (Hx : ((pageWidth - maxWidth) / Js.of_Z 2)%js = Js.Fin 10)
    by (vm_compute; reflexivity).
  unfold layout. rewrite Hd, pageRatio_value.
  rewrite (proj2 (gt_Fin_true r pr0) H0). cbv beta iota zeta.
  rewrite Hx, (div_maxWidth r H0), Hy, maxWidth_value. reflexivity.
Qed.

Lemma layout_tall (pw ph r : Q) :
  (Js.Fin pw / Js.Fin ph)%js = Js.Fin r ->
  0 <= r -> r <= pr0 ->
  layout (Js.Fin pw) (Js.Fin ph)
  = mkRect (Js.Fin (Js.round64 (Js.round64 (210 - Js.round64 (277 * r)) / 2)))
           (Js.Fin 10)
           (Js.Fin (Js.round64 (277 * r)))
           (Js.Fin 277).
Proof.
  intros Hd H0 H1.
  destruct (tall_width r H0 H1) as (Ha & Hb).
  destruct (centre_x_offset (Js.round64 (277 * r))) as (_ & _ & Hx);
    [exact Ha | exact Hb |].
  assert (Hy : ((pageHeight - maxHeight) / Js.of_Z 2)%js = Js.Fin 10)
    by (vm_compute; reflexivity).
  unfold layout. rewrite Hd, pageRatio_value.
  rewrite (proj2 (gt_Fin_false r pr0) H1). cbv beta iota zeta.
  rewrite Hy, mul_maxHeight by lra. rewrite Hx, maxHeight_value. reflexivity.
Qed.

(** A box no larger than the content box, placed by the rounded offset,
    ends before the far margin.  [v] is the rounded size, [c] the page. *)
Lemma offset_inside (c v z g p : Q) (j mb : Z) :
  0 < z -> z < 2 ^ (j + 1) -> (0 <= j)%Z -> v = Js.round64 z ->
  v <= c - 20 -> c < 2 ^ (j + 1) -> Js.round64 c = c ->
  2 ^ (j - 52) == g -> 2 ^ (j - 53) == (1 # 2) * g -> g <= 1 ->
  2 ^ j == p -> p + 1 <= c - 20 ->
  c - 20 == inject_Z mb * g ->
  Js.round64 (Js.round64 (c - v) / 2) + v <= c - 10.
Proof.
  intros Hz Hlt Hj -> Hle Hc Hcc Hg Hg2 Hg1 Hp Hp1 Hb.
  set (v := Js.round64 z) in *.
  assert (Hv0 : 0 <= v) by (apply round64_nonneg; lra).
  assert (Hgpos : 0 < g) by (rewrite <- Hg; apply pow2_pos).
  destruct (offset_facts c v j Hv0) as (_ & _ & _ & Hs & Hd);
    [lra | exact Hc | exact Hj | exact Hcc |].
  rewrite Hg2 in Hs.
  assert (Es : Js.round64 (Js.round64 (c - v) / 2) == (1 # 2) * Js.round64 (c - v))
    by (rewrite Hd; field).
  rewrite Es. set (s := Js.round64 (c - v)) in *.
  destruct (Qlt_le_dec v (c - 20)) as [Hlow | Hfull].
  - assert (Hgap : g <= c - 20 - v).
    { destruct (Qlt_le_dec v p) as [Hsmall | Hbig]; [lra |].
      rewrite <- Hp in Hbig.
      destruct (round64_grid z j Hz Hlt) as [m Hm]; [lia | exact Hbig |].
      fold v in Hm. rewrite Hg in Hm.
      apply (grid_gap v (c - 20) g m mb Hgpos Hm Hb Hlow). }
    clearbody s v. lra.
  - assert (E : c - v == 20) by lra.
    assert (E20 : s = 20).
    { unfold s. rewrite (round64_proper _ _ E). vm_compute. reflexivity. }
    rewrite E20. lra.
Qed.

End LayoutFacts.

(** ** The layout claim *)

(** C1. For a raster of [pixelWidth >= 0] by [pixelHeight > 0] pixels
    (whole numbers below [2 ^ 53], which a Number holds exactly; the width
    and height of a canvas are such), on the fixed page of 210 by 297 with
    margin 10 (content box 190 by 277), the rect that the code computes in
    binary64 is finite, at most 190 wide and 277 high, and of positive
    height; its width over its height is the ratio of the raster to within
    one part in [2 ^ 51]; and it is centred: the code's own
    [x + width / 2] equals [pageWidth / 2] and [y + height / 2] equals
    [pageHeight / 2], and as real numbers the two sums are within
    [2 ^ -47] of 105 and within [2 ^ -46] of 148.5. *)
Theorem layout_fits_centered (pixelWidth pixelHeight : N) :
  (0 < pixelHeight)%N -> (pixelWidth < 2 ^ 53)%N -> (pixelHeight < 2 ^ 53)%N ->
  exists rx ry rw rh : Q,
    layout (Js.of_N pixelWidth) (Js.of_N pixelHeight)
    = mkRect (Js.Fin rx) (Js.Fin ry) (Js.Fin rw) (Js.Fin rh)
    /\ maxWidth = Js.Fin 190 /\ maxHeight = Js.Fin 277
    /\ pageWidth = Js.Fin 210 /\ pageHeight = Js.Fin 297
    /\ (0 <= rw)%Q /\ (rw <= 190)%Q /\ (0 < rh)%Q /\ (rh <= 277)%Q
    /\ (Qabs (rw / rh
              - inject_Z (Z.of_N pixelWidth) / inject_Z (Z.of_N pixelHeight))
        <= (1 # 2251799813685248)
           * (inject_Z (Z.of_N pixelWidth) / inject_Z (Z.of_N pixelHeight)))%Q
    /\ (Js.Fin rx + Js.Fin rw / Js.of_Z 2)%js = (pageWidth / Js.of_Z 2)%js
    /\ (Js.Fin ry + Js.Fin rh / Js.of_Z 2)%js = (pageHeight / Js.of_Z 2)%js
    /\ (Qabs (rx + rw / 2 - 210 / 2) <= 1 # 140737488355328)%Q
    /\ (Qabs (ry + rh / 2 - 297 / 2) <= 1 # 70368744177664)%Q.
Proof.
  intros Hh Hw53 Hh53.
  pose proof (imgRatio_value pixelWidth pixelHeight Hh Hw53) as Hd.
  change (Js.of_N pixelWidth) with (Js.Fin (inject_Z (Z.of_N pixelWidth))) in *.
  change (Js.of_N pixelHeight) with (Js.Fin (inject_Z (Z.of_N pixelHeight))) in *.
  destruct (N.eq_dec pixelWidth 0%N) as [-> | Hw0].
  - assert (E : (inject_Z (Z.of_N 0) / inject_Z (Z.of_N pixelHeight) == 0)%Q).
    { unfold Qdiv. apply Qmult_0_l. }
    rewrite (round64_proper _ _ E), round64_0 in Hd.
    rewrite (layout_tall _ _ _ Hd) by lra.
    exists 105%Q, 10%Q, 0%Q, 277%Q.
    split; [vm_compute; reflexivity |].
    split; [exact maxWidth_value |]. split; [exact maxHeight_value |].
    do 2 (split; [reflexivity |]).
    do 4 (split; [lra |]).
    split; [rewrite E; apply Qle_bool_iff; reflexivity |].
    split; [vm_compute; reflexivity |]. split; [vm_compute; reflexivity |].
    split; apply Qle_bool_iff; reflexivity.
  - destruct (ratio_bounds pixelWidth pixelHeight) as [Hq1 Hq2];
      [lia | exact Hh | exact Hw53 | exact Hh53 |].
    set (q := (inject_Z (Z.of_N pixelWidth) / inject_Z (Z.of_N pixelHeight))%Q) in *.
    destruct (round64_ratio q Hq1 Hq2) as (Hr1 & Hr2 & Hr3 & Hr4).
    set (r := Js.round64 q) in *.
    destruct (Qlt_le_dec (772277914440789 # 1125899906842624)%Q r)
      as [Hwide | Htall].
    + rewrite (layout_wide _ _ r Hd Hwide Hr2).
      destruct (wide_height r Hwide Hr2) as (Ha & Hb & Hc1 & Hc2).
      assert (Hn : (1 # 9007199254740992 <= 190 / r)%Q).
      { apply Qle_shift_div_l; lra. }
      pose proof (round64_half _ (proj1 (normal_of_ge _ Hn))) as Hhalf.
      set (rh := Js.round64 (190 / r)) in *.
      destruct (centred_y rh) as [Hy1 Hy2]; [lra | exact Hb | exact Hhalf |].
      do 4 eexists. split; [reflexivity |].
      split; [exact maxWidth_value |]. split; [exact maxHeight_value |].
      do 2 (split; [reflexivity |]).
      do 2 (split; [lra |]). split; [exact Ha |]. split; [exact Hb |].
      split.
      { assert (H1 : (r * rh <= (q + (1 # 9007199254740992) * q) * rh)%Q).
        { apply Qmult_le_compat_r; lra. }
        assert (H2 : ((q - (1 # 9007199254740992) * q) * rh <= r * rh)%Q).
        { apply Qmult_le_compat_r; lra. }
        apply ratio_close; [exact Ha | |]; clearbody rh r q; nra. }
      split; [vm_compute; reflexivity |]. split; [exact Hy2 |].
      split; [apply Qle_bool_iff; reflexivity | exact Hy1].
    + assert (Hr0 : (0 <= r)%Q) by lra.
      rewrite (layout_tall _ _ r Hd Hr0 Htall).
      destruct (tall_width r Hr0 Htall) as (Ha & Hb).
      assert (Hn : (1 # 9007199254740992 <= 277 * r)%Q) by lra.
      destruct (normal_of_ge _ Hn) as [Hn1 Hn2].
      pose proof (round64_half _ Hn1) as Hhalf.
      destruct (round64_rel _ Hn2) as [He1 He2].
      set (rw := Js.round64 (277 * r)) in *.
      destruct (centred_x rw) as [Hx1 Hx2]; [exact Ha | exact Hb | exact Hhalf |].
      do 4 eexists. split; [reflexivity |].
      split; [exact maxWidth_value |]. split; [exact maxHeight_value |].
      do 2 (split; [reflexivity |]).
      split; [exact Ha |]. split; [exact Hb |]. do 2 (split; [lra |]).
      split.
      { apply ratio_close; [lra | |]; clearbody rw r q; lra. }
      split; [exact Hx2 |]. split; [vm_compute; reflexivity |].
      split; [exact Hx1 | apply Qle_bool_iff; reflexivity].
Qed.

Lemma layout_fits_centered_witness :
  (0 < 800)%N /\ (600 < 2 ^ 53)%N /\ (800 < 2 ^ 53)%N /\
  exists rx ry rw rh : Q,
    layout (Js.of_N 600) (Js.of_N 800)
    = mkRect (Js.Fin rx) (Js.Fin ry) (Js.Fin rw) (Js.Fin rh)
    /\ maxWidth = Js.Fin 190 /\ maxHeight = Js.Fin 277
    /\ pageWidth = Js.Fin 210 /\ pageHeight = Js.Fin 297
    /\ (0 <= rw)%Q /\ (rw <= 190)%Q /\ (0 < rh)%Q /\ (rh <= 277)%Q
    /\ (Qabs (rw / rh - inject_Z (Z.of_N 600) / inject_Z (Z.of_N 800))
        <= (1 # 2251799813685248)
           * (inject_Z (Z.of_N 600) / inject_Z (Z.of_N 800)))%Q
    /\ (Js.Fin rx + Js.Fin rw / Js.of_Z 2)%js = (pageWidth / Js.of_Z 2)%js
    /\ (Js.Fin ry + Js.Fin rh / Js.of_Z 2)%js = (pageHeight / Js.of_Z 2)%js
    /\ (Qabs (rx + rw / 2 - 210 / 2) <= 1 # 140737488355328)%Q
    /\ (Qabs (ry + rh / 2 - 297 / 2) <= 1 # 70368744177664)%Q.
Proof.
  assert (H1 : (0 < 800)%N) by reflexivity.
  assert (H2 : (600 < 2 ^ 53)%N) by reflexivity.
  assert (H3 : (800 < 2 ^ 53)%N) by reflexivity.
  split; [exact H1 |]. split; [exact H2 |]. split; [exact H3 |].
  exact (layout_fits_centered 600 800 H1 H2 H3).
Defined.

(** The 800 by 600 raster of the specification's worked example: every
    step but the ratio is exact, and the rounding of the ratio cancels. *)
Example layout_800_600 :
  layout (Js.of_N 800) (Js.of_N 600)
  = mkRect (Js.Fin 10) (Js.Fin (309 # 4)) (Js.Fin 190) (Js.Fin (285 # 2)).
Proof. vm_compute. reflexivity. Qed.

(** A raster whose rect is rounded: 600 by 800 gets the height
    253.33333333333334 and the offset 21.833333333333329, not 760/3 and
    131/6. *)
Example layout_600_800 :
  layout (Js.of_N 600) (Js.of_N 800)
  = mkRect (Js.Fin 10) (Js.Fin (1536384247878997 # 70368744177664))
           (Js.Fin 190) (Js.Fin (8913374262504107 # 35184372088832))
  /\ ~ (8913374262504107 # 35184372088832 == 760 / 3)%Q.
Proof. split; [vm_compute; reflexivity | discriminate]. Qed.

(** C2, as the code has it.  For a raster of height zero the layout raises
    nothing and yields a rect: with a positive width the ratio is [Infinity]
    and the rect is 190 wide and 0 high at (10, 148.5); with width zero the
    ratio is [NaN], and so are the rect's width and [x]. *)
Theorem layout_zero_height (pixelWidth : N) :
  layout (Js.of_N pixelWidth) (Js.of_N 0)
  = if (pixelWidth =? 0)%N
    then mkRect Js.NaN (Js.Fin 10) Js.NaN (Js.Fin 277)
    else mkRect (Js.Fin 10) (Js.Fin (297 # 2)) (Js.Fin 190) (Js.Fin 0).
Proof.
  destruct (N.eqb_spec pixelWidth 0) as [-> | Hne]; [vm_compute; reflexivity |].
  unfold layout.
  assert (Hinf : Js.div (Js.of_N pixelWidth) (Js.of_N 0) = Js.PInf).
  { apply div_Fin_zero_pos, inject_N_pos. lia. }
  rewrite Hinf. vm_compute. reflexivity.
Qed.

(** ** Rendering *)

(** C4. A decoded source of natural size [w] by [h] renders to a raster of
    [h] by [w] when the entry's rotation is 90 or 270, and of [w] by [h] when
    it is 0 or 180. *)
Theorem loadImageWithRotation_dimensions
    (decode : Js.str -> option (N * N)) (toDataURL : Js.str -> Z -> Js.str)
    (entry : ImageEntry.t) (w h : N) :
  decode (ImageEntry.url entry) = Some (w, h) ->
  exists p,
    loadImageWithRotation decode toDataURL (Some entry) = Resolved p
    /\ (ImageEntry.rotation entry = 90%Z \/ ImageEntry.rotation entry = 270%Z ->
        width p = h /\ height p = w)
    /\ (ImageEntry.rotation entry = 0%Z \/ ImageEntry.rotation entry = 180%Z ->
        width p = w /\ height p = h).
Proof.
  intros Hdec. unfold loadImageWithRotation. rewrite Hdec.
  destruct (ImageEntry.rotation entry =? 90)%Z eqn:E90;
    destruct (ImageEntry.rotation entry =? 270)%Z eqn:E270; simpl;
    eexists; (split; [reflexivity |]); simpl;
    split; intros [Hr | Hr]; rewrite Hr in *; try discriminate; auto.
Qed.

Lemma loadImageWithRotation_dimensions_witness :
  Sample.decode_as 800 600 (ImageEntry.url (Sample.entry 0 90)) = Some (800, 600)%N
  /\ exists p,
    loadImageWithRotation (Sample.decode_as 800 600) Sample.toDataURL
      (Some (Sample.entry 0 90)) = Resolved p
    /\ (ImageEntry.rotation (Sample.entry 0 90) = 90%Z
        \/ ImageEntry.rotation (Sample.entry 0 90) = 270%Z ->
        width p = 600%N /\ height p = 800%N)
    /\ (ImageEntry.rotation (Sample.entry 0 90) = 0%Z
        \/ ImageEntry.rotation (Sample.entry 0 90) = 180%Z ->
        width p = 800%N /\ height p = 600%N).
Proof.
  split; [reflexivity |].
  apply (loadImageWithRotation_dimensions (Sample.decode_as 800 600)
           Sample.toDataURL (Sample.entry 0 90) 800 600).
  reflexivity.
Defined.

(** Any other rotation value takes the unswapped branch. *)
Lemma loadImageWithRotation_unswapped
    (decode : Js.str -> option (N * N)) (toDataURL : Js.str -> Z -> Js.str)
    (entry : ImageEntry.t) (w h : N) :
  decode (ImageEntry.url entry) = Some (w, h) ->
  ImageEntry.rotation entry <> 90%Z -> ImageEntry.rotation entry <> 270%Z ->
  loadImageWithRotation decode toDataURL (Some entry)
  = Resolved (mkPage (toDataURL (ImageEntry.url entry) (ImageEntry.rotation entry)) w h).
Proof.
  intros Hdec H90 H270. unfold loadImageWithRotation. rewrite Hdec.
  apply Z.eqb_neq in H90, H270. rewrite H90, H270. reflexivity.
Qed.

(** ** Assembly *)

Section PagesFacts.

Variable decode : Js.str -> option (N * N).
Variable toDataURL : Js.str -> Z -> Js.str.
Variable addImage_ok : Js.str -> LayoutRect -> bool.

Local Abbreviation loop := (pages decode toDataURL addImage_ok).

(** The loop only ever adds pages and images. *)
Lemma pages_effects (rest : list slot) :
  forall i, Forall page_effect (fst (loop i rest)).
Proof.
  induction rest as [| entry rest IH]; intros i; simpl; [constructor |].
  assert (Hnew : Forall page_effect (if (0 <? i)%nat then [AddPage] else [])).
  { destruct (0 <? i)%nat; repeat constructor. }
  destruct (loadImageWithRotation decode toDataURL entry) as [p | |];
    simpl; try exact Hnew.
  destruct (addImage_ok _ _); simpl; [| exact Hnew].
  specialize (IH (S i)).
  destruct (loop (S i) rest) as [effs ex]; simpl in *.
  apply Forall_app. split; [exact Hnew |].
  constructor; [exact I | exact IH].
Qed.

(** The loop stops at the first entry that never finishes loading. *)
Lemma pages_awaiting (before : list ImageEntry.t) (bad : ImageEntry.t)
    (after : list slot) :
  Forall (fun e => renders decode toDataURL addImage_ok e = true) before ->
  decode (ImageEntry.url bad) = None ->
  forall i, snd (loop i ((Some <$> before) ++ Some bad :: after)) = Awaiting.
Proof.
  intros Hbefore Hbad.
  induction Hbefore as [| e before He _ IH]; intros i; simpl.
  - rewrite Hbad. reflexivity.
  - unfold renders in He. simpl in He.
    destruct (decode (ImageEntry.url e)) as [[w h] |]; [| discriminate].
    simpl in *.
    destruct ((ImageEntry.rotation e =? 90)%Z
              || (ImageEntry.rotation e =? 270)%Z);
      simpl in *; rewrite He;
      specialize (IH (S i));
      destruct (loop (S i) _); simpl in *; exact IH.
Qed.

(** A loop that runs to its end has decoded every entry. *)
Lemma pages_finished (rest : list slot) :
  forall i, snd (loop i rest) = Finished ->
  Forall (fun s : slot =>
            exists e, s = Some e /\ is_Some (decode (ImageEntry.url e))) rest.
Proof.
  induction rest as [| entry rest IH]; intros i; simpl; [constructor |].
  destruct entry as [e |]; simpl; [| discriminate].
  destruct (decode (ImageEntry.url e)) as [[w h] |] eqn:Hdec;
    [| discriminate].
  match goal with
  | |- context [if ?b then (?a1, ?a2) else _] => destruct b; simpl
  end.
  all: destruct (addImage_ok _ _); simpl; [| discriminate].
  all: specialize (IH (S i)).
  all: destruct (loop (S i) rest) as [effs ex]; simpl in *.
  all: intros Hex; constructor; [eauto | exact (IH Hex)].
Qed.

End PagesFacts.

(** C8. With an empty image list [generatePDF] returns at once: no jsPDF
    document is created, nothing is saved or shown, and the state is as it
    was. *)
Theorem generatePDF_empty
    (decode : Js.str -> option (N * N)) (toDataURL : Js.str -> Z -> Js.str)
    (addImage_ok : Js.str -> LayoutRect -> bool)
    (filename : Js.str) (isGenerating : bool) (created : nat) :
  generatePDF decode toDataURL addImage_ok
    (mkState [] filename isGenerating created)
  = (mkState [] filename isGenerating created, [], Returned).
Proof. reflexivity. Qed.

(** When some entry of the list cannot be decoded, nothing is ever saved
    and the image list stays as it was. *)
Lemma generatePDF_undecodable_no_output
    (decode : Js.str -> option (N * N)) (toDataURL : Js.str -> Z -> Js.str)
    (addImage_ok : Js.str -> LayoutRect -> bool)
    (st : State) (bad : ImageEntry.t) :
  Some bad ∈ images st ->
  decode (ImageEntry.url bad) = None ->
  let '(st', effs, _) := generatePDF decode toDataURL addImage_ok st in
  images st' = images st /\ forall name, Save name ∉ effs.
Proof.
  intros Hin Hbad. unfold generatePDF.
  destruct (length (images st) =? 0)%nat.
  { split; [reflexivity |]. intros name H. inversion H. }
  pose proof (pages_effects decode toDataURL addImage_ok (images st) 0) as Heffs.
  pose proof (pages_finished decode toDataURL addImage_ok (images st) 0) as Hfin.
  destruct (pages decode toDataURL addImage_ok 0 (images st)) as [effs ex].
  simpl in Heffs, Hfin.
  assert (Hpage : forall name, Save name ∉ effs).
  { intros name H. rewrite Forall_forall in Heffs.
    exact (Heffs _ H). }
  destruct ex.
  - exfalso. specialize (Hfin eq_refl). rewrite Forall_forall in Hfin.
    destruct (Hfin _ Hin) as (e & [= <-] & [dims Hdims]). congruence.
  - split; [reflexivity |]. intros name H.
    apply elem_of_cons in H as [H | H]; [discriminate |].
    apply elem_of_app in H as [H | H]; [exact (Hpage _ H) |].
    repeat (apply elem_of_cons in H as [H | H]; [discriminate |]).
    inversion H.
  - split; [reflexivity |]. intros name H.
    apply elem_of_cons in H as [H | H]; [discriminate |].
    exact (Hpage _ H).
Qed.

(** C3, as the code has it.  When the entries before an undecodable one all
    get onto their pages, [generatePDF] stops at its [await] for good: it
    neither returns nor reports, [isGenerating] stays [true], no alert is
    shown and nothing is saved; the image list is as it was. *)
Theorem generatePDF_undecodable_suspends
    (decode : Js.str -> option (N * N)) (toDataURL : Js.str -> Z -> Js.str)
    (addImage_ok : Js.str -> LayoutRect -> bool)
    (st : State) (before : list ImageEntry.t) (bad : ImageEntry.t)
    (after : list slot) :
  images st = (Some <$> before) ++ Some bad :: after ->
  Forall (fun e => renders decode toDataURL addImage_ok e = true) before ->
  decode (ImageEntry.url bad) = None ->
  exists effs,
    generatePDF decode toDataURL addImage_ok st
    = (setIsGenerating st true, effs, Suspended)
    /\ images (setIsGenerating st true) = images st
    /\ isGenerating (setIsGenerating st true) = true
    /\ (forall msg, Alert msg ∉ effs)
    /\ (forall name, Save name ∉ effs).
Proof.
  intros Himgs Hbefore Hbad. unfold generatePDF. rewrite Himgs.
  assert (Hlen : (length ((Some <$> before) ++ Some bad :: after) =? 0)%nat = false).
  { apply Nat.eqb_neq. rewrite length_app. simpl. lia. }
  rewrite Hlen.
  pose proof (pages_awaiting decode toDataURL addImage_ok before bad after
                Hbefore Hbad 0) as Hex.
  pose proof (pages_effects decode toDataURL addImage_ok
                ((Some <$> before) ++ Some bad :: after) 0) as Heffs.
  destruct (pages decode toDataURL addImage_ok 0 _) as [effs ex].
  simpl in Hex, Heffs. subst ex.
  exists (NewPDF :: effs). rewrite Forall_forall in Heffs.
  split; [reflexivity |]. split; [exact Himgs |]. split; [reflexivity |].
  split.
  - intros msg H. apply elem_of_cons in H as [H | H]; [discriminate |].
    exact (Heffs _ H).
  - intros name H. apply elem_of_cons in H as [H | H]; [discriminate |].
    exact (Heffs _ H).
Qed.

Lemma generatePDF_undecodable_suspends_witness :
  images (Sample.state [Sample.entry 0 0; Sample.entry 1 0; Sample.entry 2 90])
  = (Some <$> [Sample.entry 0 0]) ++ Some (Sample.entry 1 0)
      :: [Some (Sample.entry 2 90)]
  /\ Forall (fun e => renders Sample.decode_first Sample.toDataURL
                        Sample.addImage_ok e = true) [Sample.entry 0 0]
  /\ Sample.decode_first (ImageEntry.url (Sample.entry 1 0)) = None
  /\ exists effs,
    generatePDF Sample.decode_first Sample.toDataURL Sample.addImage_ok
      (Sample.state [Sample.entry 0 0; Sample.entry 1 0; Sample.entry 2 90])
    = (setIsGenerating
         (Sample.state [Sample.entry 0 0; Sample.entry 1 0; Sample.entry 2 90])
         true, effs, Suspended)
    /\ images (setIsGenerating
         (Sample.state [Sample.entry 0 0; Sample.entry 1 0; Sample.entry 2 90])
         true)
       = images (Sample.state
                   [Sample.entry 0 0; Sample.entry 1 0; Sample.entry 2 90])
    /\ isGenerating (setIsGenerating
         (Sample.state [Sample.entry 0 0; Sample.entry 1 0; Sample.entry 2 90])
         true) = true
    /\ (forall msg, Alert msg ∉ effs)
    /\ (forall name, Save name ∉ effs).
Proof.
  assert (H1 : Forall (fun e => renders Sample.decode_first Sample.toDataURL
                          Sample.addImage_ok e = true) [Sample.entry 0 0]).
  { repeat constructor. }
  assert (H2 : Sample.decode_first (ImageEntry.url (Sample.entry 1 0)) = None).
  { vm_compute. reflexivity. }
  split; [reflexivity |]. split; [exact H1 |]. split; [exact H2 |].
  exact (generatePDF_undecodable_suspends Sample.decode_first Sample.toDataURL
           Sample.addImage_ok
           (Sample.state [Sample.entry 0 0; Sample.entry 1 0; Sample.entry 2 90])
           [Sample.entry 0 0] (Sample.entry 1 0) [Some (Sample.entry 2 90)]
           eq_refl H1 H2).
Defined.

(** The run on a single undecodable image. *)
Example generatePDF_single_undecodable :
  generatePDF Sample.decode_first Sample.toDataURL Sample.addImage_ok
    (Sample.state [Sample.entry 1 0])
  = (setIsGenerating (Sample.state [Sample.entry 1 0]) true,
     [NewPDF], Suspended).
Proof. vm_compute. reflexivity. Qed.

(** C2 fails as stated: a raster of 800 by 0 pixels goes through the layout
    with an infinite ratio, its rect is handed to jsPDF, and the document is
    saved; a raster of 0 by 0 pixels gets a [NaN] width. *)
Lemma zero_height_not_rejected :
  Js.div (Js.of_N 800) (Js.of_N 0) = Js.PInf
  /\ layout (Js.of_N 800) (Js.of_N 0)
     = mkRect (Js.Fin 10) (Js.Fin (297 # 2)) (Js.Fin 190) (Js.Fin 0)
  /\ finalWidth (layout (Js.of_N 0) (Js.of_N 0)) = Js.NaN
  /\ generatePDF (Sample.decode_as 800 0) Sample.toDataURL Sample.addImage_ok
       (Sample.state [Sample.entry 0 0])
     = (setIsGenerating (Sample.state [Sample.entry 0 0]) false,
        [NewPDF;
         AddImage (Sample.toDataURL (ImageEntry.url (Sample.entry 0 0)) 0)
           (mkRect (Js.Fin 10) (Js.Fin (297 # 2)) (Js.Fin 190) (Js.Fin 0));
         Save (Js.lit "my-document.pdf"%string)],
        Returned).
Proof. repeat split; vm_compute; reflexivity. Qed.

(** ** The file name *)

Lemma trimStart_split (s : Js.str) :
  exists l,
    s = l ++ Filename.trimStart s
    /\ Forall (fun c => Filename.is_space c = true) l
    /\ forall c, head (Filename.trimStart s) = Some c ->
                 Filename.is_space c = false.
Proof.
  induction s as [| c s (l & Hs & Hl & Hhead)]; simpl.
  - exists []. repeat split; [constructor | discriminate].
  - destruct (Filename.is_space c) eqn:Hc.
    + exists (c :: l). split; [simpl; congruence |].
      split; [constructor; assumption | exact Hhead].
    + exists []. split; [reflexivity |]. split; [constructor |].
      simpl. intros c' [= <-]. exact Hc.
Qed.

Lemma trimEnd_split (s : Js.str) :
  exists r,
    s = Filename.trimEnd s ++ r
    /\ Forall (fun c => Filename.is_space c = true) r
    /\ forall c, last (Filename.trimEnd s) = Some c ->
                 Filename.is_space c = false.
Proof.
  unfold Filename.trimEnd.
  destruct (trimStart_split (reverse s)) as (l & Hs & Hl & Hhead).
  exists (reverse l). split; [| split].
  - rewrite <- reverse_app, <- Hs, reverse_involutive. reflexivity.
  - apply Forall_reverse. exact Hl.
  - intros c. rewrite last_reverse. apply Hhead.
Qed.

(** [trim] cuts the longest runs of white space off both ends. *)
Lemma trim_split (s : Js.str) :
  exists l r,
    s = l ++ Filename.trim s ++ r
    /\ Forall (fun c => Filename.is_space c = true) l
    /\ Forall (fun c => Filename.is_space c = true) r
    /\ (forall c, head (Filename.trim s) = Some c -> Filename.is_space c = false)
    /\ (forall c, last (Filename.trim s) = Some c -> Filename.is_space c = false).
Proof.
  unfold Filename.trim.
  destruct (trimStart_split s) as (l & Hs & Hl & Hhead).
  destruct (trimEnd_split (Filename.trimStart s)) as (r & Ht & Hr & Hlast).
  exists l, r. split; [congruence |]. split; [exact Hl |]. split; [exact Hr |].
  split; [| exact Hlast].
  intros c Hc. apply Hhead. rewrite Ht.
  rewrite head_app, Hc. reflexivity.
Qed.

Lemma replace_lookup (s : Js.str) (i : nat) (c : N) :
  s !! i = Some c ->
  Filename.replace s !! i = Some (if Filename.in_class c then c else 95%N).
Proof.
  intros H. unfold Filename.replace. rewrite list_lookup_fmap, H. reflexivity.
Qed.

Lemma replace_in_class (s : Js.str) :
  Forall (fun c => Filename.in_class c = true) (Filename.replace s).
Proof.
  unfold Filename.replace. apply Forall_fmap, Forall_forall. intros c _. simpl.
  destruct (Filename.in_class c) eqn:Hc; [exact Hc | reflexivity].
Qed.

(** C9. The file name is cut down to the text [t] between its leading and
    trailing white space; the result has, place by place, the characters of
    [t] that lie in [a-zA-Z0-9-_] and ['_'] (code unit 95) for the others,
    and is
    ["document"] when [t] is empty.  ["My Doc!! 2024"] gives
    ["My_Doc___2024"]. *)
Theorem sanitize_spec (filename : Js.str) :
  (exists l t r,
     filename = l ++ t ++ r
     /\ Forall (fun c => Filename.is_space c = true) l
     /\ Forall (fun c => Filename.is_space c = true) r
     /\ (forall c, head t = Some c -> Filename.is_space c = false)
     /\ (forall c, last t = Some c -> Filename.is_space c = false)
     /\ (t = [] -> Filename.sanitize filename = Js.lit "document"%string)
     /\ (t <> [] ->
         length (Filename.sanitize filename) = length t
         /\ forall i c, t !! i = Some c ->
              Filename.sanitize filename !! i
              = Some (if Filename.in_class c then c else 95%N)))
  /\ Forall (fun c => Filename.in_class c = true) (Filename.sanitize filename)
  /\ Filename.sanitize (Js.lit "My Doc!! 2024"%string)
     = Js.lit "My_Doc___2024"%string.
Proof.
  split; [| split].
  - destruct (trim_split filename) as (l & r & Hs & Hl & Hr & Hhead & Hlast).
    exists l, (Filename.trim filename), r.
    do 5 (split; [assumption |]).
    unfold Filename.sanitize. split.
    + intros ->. reflexivity.
    + intros Hne.
      assert (Hrep : Filename.replace (Filename.trim filename) <> []).
      { unfold Filename.replace. intros H. apply fmap_nil_inv in H. auto. }
      destruct (Filename.replace (Filename.trim filename)) as [| c0 r0] eqn:E;
        [contradiction |].
      rewrite <- E. split.
      * unfold Filename.replace. apply length_fmap.
      * intros i c. apply replace_lookup.
  - unfold Filename.sanitize.
    pose proof (replace_in_class (Filename.trim filename)) as H.
    destruct (Filename.replace (Filename.trim filename)); [| exact H].
    vm_compute. repeat constructor.
  - vm_compute. reflexivity.
Qed.

Example sanitize_blank :
  Filename.sanitize (Js.lit "   "%string) = Js.lit "document"%string.
Proof. vm_compute. reflexivity. Qed.

Example sanitize_trims_then_replaces :
  Filename.sanitize (Js.lit "  a b.c  "%string) = Js.lit "a_b_c"%string.
Proof. vm_compute. reflexivity. Qed.

(** ** Arrays without [undefined] *)

Lemma array_map_dense (f : ImageEntry.t -> ImageEntry.t) (l : list ImageEntry.t) :
  Array.map f (Some <$> l) = Some (Some <$> (f <$> l)).
Proof.
  unfold Array.map. induction l as [| e l IH]; [reflexivity |].
  rewrite !fmap_cons. cbn [mapM]. rewrite IH. reflexivity.
Qed.

Lemma array_filter_dense (p : ImageEntry.t -> bool) (l : list ImageEntry.t) :
  Array.filter p (Some <$> l) = Some (Some <$> List.filter p l).
Proof.
  induction l as [| e l IH]; [reflexivity |].
  rewrite fmap_cons. cbn [Array.filter List.filter]. rewrite IH.
  destruct (p e); reflexivity.
Qed.

Lemma array_find_dense (p : ImageEntry.t -> bool) (l : list ImageEntry.t) :
  is_Some (Array.find p (Some <$> l)).
Proof.
  induction l as [| e l IH]; [by eexists |].
  rewrite fmap_cons. cbn [Array.find].
  destruct (p e); [by eexists | exact IH].
Qed.

Lemma array_forEach_dense (l : list ImageEntry.t) :
  Array.forEach (Some <$> l) = Some tt.
Proof. induction l as [| e l IH]; [reflexivity | exact IH]. Qed.

Lemma array_get_dense (l : list ImageEntry.t) (i : nat) :
  Array.get (Some <$> l) i = l !! i.
Proof.
  unfold Array.get. rewrite list_lookup_fmap.
  destruct (l !! i); reflexivity.
Qed.

Lemma array_set_dense (l : list ImageEntry.t) (i : nat) (v : ImageEntry.t) :
  i < length l ->
  Array.set (Some <$> l) i (Some v) = Some <$> <[i := v]> l.
Proof.
  intros Hi. unfold Array.set. rewrite length_fmap.
  apply Nat.ltb_lt in Hi. rewrite Hi. symmetry. apply list_fmap_insert.
Qed.

Lemma array_swap_dense (l : list ImageEntry.t) (i j : nat) (a b : ImageEntry.t) :
  l !! i = Some a -> l !! j = Some b ->
  Array.swap (Some <$> l) i j = Some <$> <[j := a]> (<[i := b]> l).
Proof.
  intros Ha Hb. unfold Array.swap. rewrite !array_get_dense, Ha, Hb. simpl.
  rewrite array_set_dense by (eapply lookup_lt_Some; eassumption).
  rewrite array_set_dense
    by (rewrite length_insert; eapply lookup_lt_Some; eassumption).
  reflexivity.
Qed.

(** What a swap of two rows does to the rows. *)
Lemma swap_rows (l : list ImageEntry.t) (i j : nat) (a b : ImageEntry.t) :
  i <> j -> l !! i = Some a -> l !! j = Some b ->
  let l' := <[j := a]> (<[i := b]> l) in
  length l' = length l
  /\ l' !! i = l !! j
  /\ l' !! j = l !! i
  /\ forall k, k <> i -> k <> j -> l' !! k = l !! k.
Proof.
  intros Hij Ha Hb l'. subst l'.
  pose proof (lookup_lt_Some _ _ _ Ha) as Hi.
  pose proof (lookup_lt_Some _ _ _ Hb) as Hj.
  split; [by rewrite !length_insert |].
  split; [| split].
  - rewrite list_lookup_insert_ne by auto.
    rewrite list_lookup_insert_eq by exact Hi. by rewrite Hb.
  - rewrite list_lookup_insert_eq by (by rewrite length_insert).
    by rewrite Ha.
  - intros k Hki Hkj. by rewrite !list_lookup_insert_ne by auto.
Qed.

(** ** Reordering *)

(** C7. On a non-empty list, [moveUp index] at a row other than the first
    swaps rows [index - 1] and [index], and [moveDown index] at a row other
    than the last swaps rows [index] and [index + 1]; all other rows stay.
    [moveUp 0] and [moveDown (length - 1)] change nothing. *)
Theorem move_swaps_neighbours (l : list ImageEntry.t) :
  l <> [] ->
  (forall index, 0 < index < length l ->
     exists l',
       moveUp index (Some <$> l) = Some <$> l'
       /\ length l' = length l
       /\ l' !! (index - 1) = l !! index
       /\ l' !! index = l !! (index - 1)
       /\ forall k, k <> index - 1 -> k <> index -> l' !! k = l !! k)
  /\ (forall index, index + 1 < length l ->
     exists l',
       moveDown (Some <$> l) index (Some <$> l) = Some <$> l'
       /\ length l' = length l
       /\ l' !! index = l !! (index + 1)
       /\ l' !! (index + 1) = l !! index
       /\ forall k, k <> index -> k <> index + 1 -> l' !! k = l !! k)
  /\ moveUp 0 (Some <$> l) = Some <$> l
  /\ moveDown (Some <$> l) (length l - 1) (Some <$> l) = Some <$> l.
Proof.
  intros Hne. split; [| split; [| split]].
  - intros index [Hpos Hlt].
    destruct (lookup_lt_is_Some_2 l (index - 1)) as [a Ha]; [lia |].
    destruct (lookup_lt_is_Some_2 l index) as [b Hb]; [lia |].
    exists (<[index := a]> (<[index - 1 := b]> l)).
    split.
    + unfold moveUp. destruct (Nat.eqb_spec index 0) as [-> | _]; [lia |].
      apply array_swap_dense; assumption.
    + apply (swap_rows l (index - 1) index a b); [lia | assumption..].
  - intros index Hlt.
    destruct (lookup_lt_is_Some_2 l index) as [a Ha]; [lia |].
    destruct (lookup_lt_is_Some_2 l (index + 1)) as [b Hb]; [lia |].
    exists (<[index + 1 := a]> (<[index := b]> l)).
    split.
    + unfold moveDown. rewrite length_fmap.
      destruct (Z.eqb_spec (Z.of_nat index) (Z.of_nat (length l) - 1));
        [lia |].
      apply array_swap_dense; assumption.
    + apply (swap_rows l index (index + 1) a b); [lia | assumption..].
  - reflexivity.
  - unfold moveDown. rewrite length_fmap.
    destruct l as [| e l]; [contradiction |].
    destruct (Z.eqb_spec (Z.of_nat (length (e :: l) - 1))
                (Z.of_nat (length (e :: l)) - 1)) as [_ | Hx];
      [reflexivity |].
    simpl in Hx. lia.
Qed.

Lemma move_swaps_neighbours_witness :
  [Sample.entry 0 0; Sample.entry 1 90; Sample.entry 2 0] <> []
  /\ moveUp 1 (Some <$> [Sample.entry 0 0; Sample.entry 1 90; Sample.entry 2 0])
     = Some <$> [Sample.entry 1 90; Sample.entry 0 0; Sample.entry 2 0]
  /\ moveDown (Some <$> [Sample.entry 0 0; Sample.entry 1 90; Sample.entry 2 0]) 2
       (Some <$> [Sample.entry 0 0; Sample.entry 1 90; Sample.entry 2 0])
     = Some <$> [Sample.entry 0 0; Sample.entry 1 90; Sample.entry 2 0].
Proof.
  assert (Hne : [Sample.entry 0 0; Sample.entry 1 90; Sample.entry 2 0] <> [])
    by discriminate.
  split; [exact Hne |]. split; [reflexivity |].
  exact (proj2 (proj2 (proj2
    (move_swaps_neighbours
       [Sample.entry 0 0; Sample.entry 1 90; Sample.entry 2 0] Hne)))).
Defined.

(** ** Rotation *)

Lemma str_eqb_eq (a b : Js.str) : Js.str_eqb a b = true <-> a = b.
Proof. unfold Js.str_eqb. apply bool_decide_eq_true. Qed.

Lemma str_eqb_neq (a b : Js.str) : Js.str_eqb a b = false <-> a <> b.
Proof. unfold Js.str_eqb. apply bool_decide_eq_false. Qed.

Lemma valid_rotation_range (r : Z) : valid_rotation r -> (0 <= r < 360)%Z.
Proof. unfold valid_rotation. lia. Qed.

Lemma valid_rotation_next (r : Z) :
  valid_rotation r -> valid_rotation (Z.rem (r + 90) 360).
Proof.
  intros [-> | [-> | [-> | ->]]]; vm_compute; auto.
Qed.

Lemma rotate_if_valid (id : Js.str) (img : ImageEntry.t) :
  valid_rotation (ImageEntry.rotation img) ->
  valid_rotation (ImageEntry.rotation (rotate_if id img)).
Proof.
  intros H. unfold rotate_if.
  destruct (Js.str_eqb (ImageEntry.id img) id); [| exact H].
  simpl. apply valid_rotation_next, H.
Qed.

Lemma rotate_if_id (id : Js.str) (img : ImageEntry.t) :
  ImageEntry.id (rotate_if id img) = ImageEntry.id img.
Proof.
  unfold rotate_if. destruct (Js.str_eqb (ImageEntry.id img) id); reflexivity.
Qed.

Lemma rotateImage_dense (id : Js.str) (l : list ImageEntry.t) :
  rotateImage id (Some <$> l) = Some (Some <$> (rotate_if id <$> l)).
Proof. apply array_map_dense. Qed.

Lemma rotate_times_dense (k : nat) (id : Js.str) :
  forall l : list ImageEntry.t,
    rotate_times k id (Some <$> l)
    = Some (Some <$> (Nat.iter k (rotate_if id) <$> l)).
Proof.
  induction k as [| k IH]; intros l.
  - simpl. by rewrite list_fmap_id.
  - cbn [rotate_times]. rewrite rotateImage_dense, IH.
    do 2 f_equal. rewrite <- list_fmap_compose.
    apply list_fmap_ext. intros _ e _. unfold compose.
    symmetry. apply Nat.iter_succ_r.
Qed.

(** [k] quarter turns of an entry whose rotation lies in [0, 360). *)
Lemma iter_rotate_if (k : nat) (img : ImageEntry.t) :
  (0 <= ImageEntry.rotation img < 360)%Z ->
  Nat.iter k (rotate_if (ImageEntry.id img)) img
  = ImageEntry.with_rotation img
      ((ImageEntry.rotation img + 90 * Z.of_nat k) mod 360).
Proof.
  intros Hr. induction k as [| k IH].
  - simpl. rewrite Z.add_0_r, Z.mod_small by exact Hr. by destruct img.
  - rewrite Nat.iter_succ, IH. unfold rotate_if. simpl.
    assert (Heq : Js.str_eqb (ImageEntry.id img) (ImageEntry.id img) = true)
      by by apply str_eqb_eq.
    rewrite Heq. unfold ImageEntry.with_rotation. simpl. f_equal.
    rewrite Z.rem_mod_nonneg.
    + rewrite Zplus_mod_idemp_l. f_equal. lia.
    + pose proof (Z.mod_pos_bound
                    (ImageEntry.rotation img + 90 * Z.of_nat k) 360).
      lia.
    + lia.
Qed.

Lemma iter_rotate_if_other (k : nat) (id : Js.str) (img : ImageEntry.t) :
  ImageEntry.id img <> id -> Nat.iter k (rotate_if id) img = img.
Proof.
  intros Hne. induction k as [| k IH]; [reflexivity |].
  rewrite Nat.iter_succ, IH. unfold rotate_if.
  apply str_eqb_neq in Hne. by rewrite Hne.
Qed.

(** C5. On a list whose rotations are all in {0, 90, 180, 270}:
    [rotateImage id] sets the rotation of the entry with that id to
    [(rotation + 90) mod 360] and leaves its other fields and all other
    entries alone; [k] calls take an entry from rotation 0 to
    [(90 * k) mod 360]; four calls give the list back; and an id that no
    entry has changes nothing. *)
Theorem rotateImage_quarter_turns (l : list ImageEntry.t) (id : Js.str) :
  Forall (fun img => valid_rotation (ImageEntry.rotation img)) l ->
  (exists l',
      rotateImage id (Some <$> l) = Some (Some <$> l')
      /\ length l' = length l
      /\ (forall i img, l !! i = Some img -> ImageEntry.id img = id ->
            l' !! i
            = Some (ImageEntry.mk (ImageEntry.id img) (ImageEntry.file img)
                      (ImageEntry.url img)
                      ((ImageEntry.rotation img + 90) mod 360)
                      (ImageEntry.name img)))
      /\ (forall i img, l !! i = Some img -> ImageEntry.id img <> id ->
            l' !! i = Some img))
  /\ (forall k, exists l',
      rotate_times k id (Some <$> l) = Some (Some <$> l')
      /\ forall i img, l !! i = Some img -> ImageEntry.id img = id ->
           ImageEntry.rotation img = 0%Z ->
           ImageEntry.rotation <$> l' !! i
           = Some ((90 * Z.of_nat k) mod 360)%Z)
  /\ rotate_times 4 id (Some <$> l) = Some (Some <$> l)
  /\ (id ∉ ids l -> rotateImage id (Some <$> l) = Some (Some <$> l)).
Proof.
  intros Hvalid. rewrite Forall_forall in Hvalid.
  split; [| split; [| split]].
  - exists (rotate_if id <$> l). split; [apply rotateImage_dense |].
    split; [apply length_fmap |]. split.
    + intros i img Hi Hid. rewrite list_lookup_fmap, Hi. simpl. f_equal.
      unfold rotate_if. apply str_eqb_eq in Hid. rewrite Hid.
      unfold ImageEntry.with_rotation. f_equal.
      apply Z.rem_mod_nonneg; [| lia].
      assert (Hin : img ∈ l) by (eapply list_elem_of_lookup_2; eassumption).
      pose proof (valid_rotation_range _ (Hvalid _ Hin)). lia.
    + intros i img Hi Hid. rewrite list_lookup_fmap, Hi. simpl. f_equal.
      unfold rotate_if. apply str_eqb_neq in Hid. by rewrite Hid.
  - intros k. exists (Nat.iter k (rotate_if id) <$> l).
    split; [apply rotate_times_dense |].
    intros i img Hi Hid Hr. rewrite list_lookup_fmap, Hi. simpl. f_equal.
    subst id. rewrite iter_rotate_if by (rewrite Hr; lia).
    simpl. rewrite Hr. reflexivity.
  - rewrite rotate_times_dense. do 2 f_equal.
    rewrite <- (list_fmap_id l) at 2. apply list_fmap_ext.
    intros _ img Hin%list_elem_of_lookup_2.
    change (Nat.iter 4 (rotate_if id) img = img).
    pose proof (valid_rotation_range _ (Hvalid _ Hin)) as Hr.
    destruct (decide (ImageEntry.id img = id)) as [<- | Hne].
    + rewrite iter_rotate_if by exact Hr.
      replace ((ImageEntry.rotation img + 90 * Z.of_nat 4) mod 360)%Z
        with (ImageEntry.rotation img); [by destruct img |].
      change (90 * Z.of_nat 4)%Z with (1 * 360)%Z.
      rewrite Z.mod_add by lia. symmetry. apply Z.mod_small, Hr.
    + apply iter_rotate_if_other, Hne.
  - intros Hnotin. rewrite rotateImage_dense. do 2 f_equal.
    rewrite <- (list_fmap_id l) at 2. apply list_fmap_ext.
    intros _ img Hin%list_elem_of_lookup_2.
    change (rotate_if id img = img). unfold rotate_if.
    destruct (Js.str_eqb (ImageEntry.id img) id) eqn:E; [| reflexivity].
    exfalso. apply Hnotin. apply str_eqb_eq in E. subst id.
    unfold ids. apply list_elem_of_fmap. eauto.
Qed.

Lemma rotateImage_quarter_turns_witness :
  Forall (fun img => valid_rotation (ImageEntry.rotation img))
    [Sample.entry 0 0; Sample.entry 1 270]
  /\ rotate_times 4 (Sample.randomUUID 1)
       (Some <$> [Sample.entry 0 0; Sample.entry 1 270])
     = Some (Some <$> [Sample.entry 0 0; Sample.entry 1 270])
  /\ rotateImage (Sample.randomUUID 1)
       (Some <$> [Sample.entry 0 0; Sample.entry 1 270])
     = Some (Some <$> [Sample.entry 0 0; Sample.entry 1 0]).
Proof.
  assert (Hvalid : Forall (fun img => valid_rotation (ImageEntry.rotation img))
                     [Sample.entry 0 0; Sample.entry 1 270]).
  { constructor; [by left | constructor; [by do 3 right | constructor]]. }
  split; [exact Hvalid |]. split; [| vm_compute; reflexivity].
  exact (proj1 (proj2 (proj2
    (rotateImage_quarter_turns [Sample.entry 0 0; Sample.entry 1 270]
       (Sample.randomUUID 1) Hvalid)))).
Defined.

(** ** Removal *)

Lemma removeImage_dense (id : Js.str) (l : list ImageEntry.t) :
  removeImage id (Some <$> l)
  = Some (Some <$> List.filter
                     (fun i => negb (Js.str_eqb (ImageEntry.id i) id)) l).
Proof.
  unfold removeImage.
  destruct (array_find_dense (fun i => Js.str_eqb (ImageEntry.id i) id) l)
    as [found Hfound].
  rewrite Hfound. apply array_filter_dense.
Qed.

Lemma filter_all (p : ImageEntry.t -> bool) (l : list ImageEntry.t) :
  (forall e, e ∈ l -> p e = true) -> List.filter p l = l.
Proof.
  induction l as [| e l IH]; intros H; [reflexivity |].
  cbn [List.filter]. rewrite (H e) by apply list_elem_of_here.
  f_equal. apply IH. intros e' He'. apply H, list_elem_of_further, He'.
Qed.

(** C10. On a list without duplicate ids, [removeImage id] takes out the
    one entry with that id and keeps all others, in their order and with
    all their fields; when no entry has the id the list stays as it is. *)
Theorem removeImage_frame (l : list ImageEntry.t) (id : Js.str) :
  NoDup (ids l) ->
  (id ∉ ids l -> removeImage id (Some <$> l) = Some (Some <$> l))
  /\ (forall e, e ∈ l -> ImageEntry.id e = id ->
        exists l1 l2,
          l = l1 ++ e :: l2
          /\ removeImage id (Some <$> l) = Some (Some <$> (l1 ++ l2))).
Proof.
  intros Hnodup. rewrite removeImage_dense. split.
  - intros Hnotin. rewrite filter_all; [reflexivity |].
    intros e He. apply negb_true_iff, str_eqb_neq. intros Heq.
    apply Hnotin. subst id. unfold ids. apply list_elem_of_fmap. eauto.
  - intros e He Hid.
    apply list_elem_of_split in He as (l1 & l2 & ->).
    exists l1, l2. split; [reflexivity |].
    unfold ids in Hnodup. rewrite fmap_app, fmap_cons in Hnodup.
    apply NoDup_app in Hnodup as (_ & Hl1 & Hrest).
    apply NoDup_cons in Hrest as (Hl2 & _).
    rewrite List.filter_app. cbn [List.filter].
    assert (He : Js.str_eqb (ImageEntry.id e) id = true)
      by by apply str_eqb_eq.
    rewrite He. simpl negb. cbv iota.
    rewrite !filter_all; [reflexivity | |].
    + intros e' He'. apply negb_true_iff, str_eqb_neq. intros Heq.
      apply Hl2. rewrite Hid, <- Heq. apply list_elem_of_fmap. eauto.
    + intros e' He'. apply negb_true_iff, str_eqb_neq. intros Heq.
      apply (Hl1 (ImageEntry.id e')).
      * apply list_elem_of_fmap. eauto.
      * rewrite Heq, <- Hid. apply list_elem_of_here.
Qed.

Lemma removeImage_frame_witness :
  NoDup (ids [Sample.entry 0 0; Sample.entry 1 90; Sample.entry 2 180])
  /\ exists l1 l2,
      [Sample.entry 0 0; Sample.entry 1 90; Sample.entry 2 180]
      = l1 ++ Sample.entry 1 90 :: l2
      /\ removeImage (Sample.randomUUID 1)
           (Some <$> [Sample.entry 0 0; Sample.entry 1 90; Sample.entry 2 180])
         = Some (Some <$> (l1 ++ l2)).
Proof.
  assert (Hnodup :
    NoDup (ids [Sample.entry 0 0; Sample.entry 1 90; Sample.entry 2 180])).
  { apply (bool_decide_unpack _). vm_compute. exact I. }
  split; [exact Hnodup |].
  apply (proj2 (removeImage_frame
                  [Sample.entry 0 0; Sample.entry 1 90; Sample.entry 2 180]
                  (Sample.randomUUID 1) Hnodup)
           (Sample.entry 1 90)).
  - apply list_elem_of_further, list_elem_of_here.
  - reflexivity.
Defined.

(** Without the condition on ids every entry with the id goes. *)
Example removeImage_duplicate_ids :
  removeImage (Sample.randomUUID 0)
    (Some <$> [Sample.entry 0 0; Sample.entry 1 0; Sample.entry 0 90])
  = Some (Some <$> [Sample.entry 1 0]).
Proof. vm_compute. reflexivity. Qed.

(** ** The rotation invariant *)

Lemma slot_valid_get (a : list slot) (i : nat) :
  Forall slot_valid a -> slot_valid (Array.get a i).
Proof.
  intros Ha. unfold Array.get. destruct (a !! i) as [s |] eqn:E; [| exact I].
  rewrite Forall_forall in Ha. apply Ha.
  eapply list_elem_of_lookup_2, E.
Qed.

Lemma slot_valid_set (a : list slot) (i : nat) (v : slot) :
  Forall slot_valid a -> slot_valid v -> Forall slot_valid (Array.set a i v).
Proof.
  intros Ha Hv. unfold Array.set. destruct (i <? length a).
  - apply Forall_insert; assumption.
  - apply Forall_app. split; [exact Ha |].
    apply Forall_app. split; [| by constructor].
    apply Forall_replicate. exact I.
Qed.

Lemma slot_valid_swap (a : list slot) (i j : nat) :
  Forall slot_valid a -> Forall slot_valid (Array.swap a i j).
Proof.
  intros Ha. unfold Array.swap. simpl.
  apply slot_valid_set; [apply slot_valid_set |];
    auto using slot_valid_get.
Qed.

Lemma slot_valid_map (f : ImageEntry.t -> ImageEntry.t) (a : list slot) :
  (forall img, valid_rotation (ImageEntry.rotation img) ->
               valid_rotation (ImageEntry.rotation (f img))) ->
  Forall slot_valid a ->
  forall a', Array.map f a = Some a' -> Forall slot_valid a'.
Proof.
  intros Hf Ha. unfold Array.map.
  induction Ha as [| s a Hs Ha IH]; intros a' Hmap.
  - injection Hmap as <-. constructor.
  - cbn [mapM] in Hmap. destruct s as [img |]; [| discriminate].
    simpl in Hmap.
    destruct (mapM _ a) as [r |]; [| discriminate].
    injection Hmap as <-. constructor; [apply Hf, Hs | by apply IH].
Qed.

Lemma slot_valid_filter (p : ImageEntry.t -> bool) (a : list slot) :
  Forall slot_valid a ->
  forall a', Array.filter p a = Some a' -> Forall slot_valid a'.
Proof.
  intros Ha. induction Ha as [| s a Hs Ha IH]; intros a' Hfil.
  - injection Hfil as <-. constructor.
  - cbn [Array.filter] in Hfil. destruct s as [img |]; [| discriminate].
    destruct (Array.filter p a) as [r |]; [| discriminate].
    injection Hfil as <-.
    destruct (p img); [constructor; [exact Hs |] |]; by apply IH.
Qed.

Lemma slot_valid_newImages (randomUUID : nat -> Js.str)
    (createObjectURL : nat -> File -> Js.str) (files : list File) :
  forall n,
    Forall slot_valid (Some <$> newImages randomUUID createObjectURL n files).
Proof.
  induction files as [| f files IH]; intros n; [constructor |].
  cbn [newImages]. rewrite fmap_cons. constructor; [| apply IH].
  simpl. by left.
Qed.

Section Invariant.

Variable randomUUID : nat -> Js.str.
Variable createObjectURL : nat -> File -> Js.str.

Lemma step_slot_valid (st st' : State) (ev : event) :
  Forall slot_valid (images st) ->
  step randomUUID createObjectURL st ev = Some st' ->
  Forall slot_valid (images st').
Proof.
  intros Hst Hstep. destruct ev as [files | id | index | index | id |];
    simpl in Hstep.
  - unfold handleFileSelect in Hstep.
    destruct (length (List.filter is_image files) =? 0)%nat;
      injection Hstep as <-; simpl; [exact Hst |].
    apply Forall_app. split; [exact Hst | apply slot_valid_newImages].
  - destruct (rotateImage id (images st)) as [a' |] eqn:E; [| discriminate].
    injection Hstep as <-. simpl.
    eapply slot_valid_map; [| exact Hst | exact E].
    intros img. apply rotate_if_valid.
  - injection Hstep as <-. simpl. unfold moveUp.
    destruct (index =? 0)%nat; [exact Hst | by apply slot_valid_swap].
  - injection Hstep as <-. simpl. unfold moveDown.
    destruct (_ =? _)%Z; [exact Hst | by apply slot_valid_swap].
  - destruct (removeImage id (images st)) as [a' |] eqn:E; [| discriminate].
    injection Hstep as <-. simpl. unfold removeImage in E.
    destruct (Array.find _ _); [| discriminate].
    eapply slot_valid_filter; [exact Hst | exact E].
  - destruct (clearAll (images st)) as [a' |] eqn:E; [| discriminate].
    injection Hstep as <-. simpl. unfold clearAll in E.
    destruct (Array.forEach _); [| discriminate].
    injection E as <-. constructor.
Qed.

Lemma run_reachable (evs : list event) :
  forall st st',
    reachable randomUUID createObjectURL st ->
    run randomUUID createObjectURL st evs = Some st' ->
    reachable randomUUID createObjectURL st'.
Proof.
  induction evs as [| ev evs IH]; intros st st' Hst Hrun; simpl in Hrun.
  - by injection Hrun as <-.
  - destruct (step randomUUID createObjectURL st ev) as [st1 |] eqn:E;
      [| discriminate].
    eapply IH; [| exact Hrun]. eapply reachable_step; eassumption.
Qed.

End Invariant.

(** C6. In every state that add, rotate, move up, move down, remove and
    clear events lead to from the empty list, each entry's rotation is one
    of 0, 90, 180 and 270. *)
Theorem rotation_invariant (randomUUID : nat -> Js.str)
    (createObjectURL : nat -> File -> Js.str) (st : State) :
  reachable randomUUID createObjectURL st ->
  forall img, Some img ∈ images st ->
    valid_rotation (ImageEntry.rotation img).
Proof.
  intros Hreach.
  assert (Hall : Forall slot_valid (images st)).
  { induction Hreach as [| st ev st' _ IH Hstep]; [constructor |].
    eapply step_slot_valid; eassumption. }
  intros img Hin. rewrite Forall_forall in Hall. exact (Hall _ Hin).
Qed.

Lemma rotation_invariant_witness :
  exists st,
    run Sample.randomUUID Sample.createObjectURL initial Sample.session
    = Some st
    /\ images st <> []
    /\ reachable Sample.randomUUID Sample.createObjectURL st
    /\ forall img, Some img ∈ images st ->
         valid_rotation (ImageEntry.rotation img).
Proof.
  eexists. split; [vm_compute; reflexivity |]. split; [discriminate |].
  assert (Hreach : reachable Sample.randomUUID Sample.createObjectURL
            (default initial
               (run Sample.randomUUID Sample.createObjectURL initial
                  Sample.session))).
  { apply (run_reachable Sample.randomUUID Sample.createObjectURL
             Sample.session initial _ (reachable_initial _ _)).
    vm_compute. reflexivity. }
  split; [exact Hreach |].
  exact (rotation_invariant Sample.randomUUID Sample.createObjectURL _ Hreach).
Defined.

(** ** Events the rendered list offers *)

(** From a list without [undefined], an event of the rendered list never
    throws and leaves a list without [undefined]. *)
Lemma step_offered_dense (randomUUID : nat -> Js.str)
    (createObjectURL : nat -> File -> Js.str)
    (st : State) (ev : event) (l : list ImageEntry.t) :
  images st = Some <$> l -> offered st ev ->
  exists st' l',
    step randomUUID createObjectURL st ev = Some st'
    /\ images st' = Some <$> l'.
Proof.
  intros Himgs Hoff.
  destruct ev as [files | id | index | index | id |]; simpl in *;
    rewrite Himgs in *.
  - unfold handleFileSelect.
    destruct (length (List.filter is_image files) =? 0)%nat.
    + by eexists _, l.
    + eexists _, (l ++ newImages randomUUID createObjectURL (created st)
                         (List.filter is_image files)).
      split; [reflexivity |]. simpl. by rewrite fmap_app.
  - rewrite rotateImage_dense. by eexists _, _.
  - rewrite length_fmap in Hoff. unfold moveUp.
    destruct (Nat.eqb_spec index 0) as [-> | Hpos]; [by eexists _, l |].
    destruct (lookup_lt_is_Some_2 l (index - 1)) as [a Ha]; [lia |].
    destruct (lookup_lt_is_Some_2 l index) as [b Hb]; [lia |].
    rewrite (array_swap_dense l (index - 1) index a b Ha Hb).
    by eexists _, _.
  - rewrite length_fmap in Hoff. unfold moveDown. rewrite length_fmap.
    destruct (Z.eqb_spec (Z.of_nat index) (Z.of_nat (length l) - 1))
      as [_ | Hne]; [by eexists _, l |].
    destruct (lookup_lt_is_Some_2 l index) as [a Ha]; [lia |].
    destruct (lookup_lt_is_Some_2 l (index + 1)) as [b Hb]; [lia |].
    rewrite (array_swap_dense l index (index + 1) a b Ha Hb).
    by eexists _, _.
  - rewrite removeImage_dense. by eexists _, _.
  - unfold clearAll. rewrite array_forEach_dense. by eexists _, [].
Qed.

(** A move past the rows of the list stores [undefined], and the next
    [rotateImage] throws on it. *)
Example moveUp_past_the_end :
  moveUp 2 (Some <$> [Sample.entry 0 0; Sample.entry 1 0])
  = [Some (Sample.entry 0 0); None; Some (Sample.entry 1 0)]
  /\ rotateImage (Sample.randomUUID 0)
       (moveUp 2 (Some <$> [Sample.entry 0 0; Sample.entry 1 0])) = None.
Proof. split; vm_compute; reflexivity. Qed.

(** ** Identifiers stay unique *)

Lemma entries_dense (l : list ImageEntry.t) : entries (Some <$> l) = l.
Proof.
  unfold entries. induction l as [| e l IH]; [reflexivity |].
  rewrite fmap_cons. cbn [omap list_omap]. by rewrite IH.
Qed.

Lemma entries_app (a b : list slot) :
  entries (a ++ b) = entries a ++ entries b.
Proof. apply omap_app. Qed.

Lemma entries_replicate_None (k : nat) : entries (replicate k None) = [].
Proof. induction k as [| k IH]; [reflexivity | exact IH]. Qed.

Lemma array_get_lookup (a : list slot) (i : nat) (s : slot) :
  a !! i = Some s -> Array.get a i = s.
Proof. intros H. unfold Array.get. by rewrite H. Qed.

Lemma array_get_ge (a : list slot) (i : nat) :
  length a <= i -> Array.get a i = None.
Proof.
  intros H. unfold Array.get. by rewrite (lookup_ge_None_2 a i H).
Qed.

(** Writing a slot trades the old content for the new one. *)
Lemma entries_set (a : list slot) (i : nat) (v : slot) :
  entries (Array.set a i v) ++ entries [Array.get a i]
  ≡ₚ entries a ++ entries [v].
Proof.
  unfold Array.set. destruct (Nat.ltb_spec i (length a)) as [Hlt | Hge].
  - destruct (lookup_lt_is_Some_2 a i Hlt) as [s Hs].
    rewrite (array_get_lookup a i s Hs).
    rewrite (insert_take_drop a i v Hlt).
    rewrite <- (take_drop_middle a i s Hs) at 3.
    rewrite !entries_app.
    change (v :: drop (S i) a) with ([v] ++ drop (S i) a).
    change (s :: drop (S i) a) with ([s] ++ drop (S i) a).
    rewrite !entries_app. solve_Permutation.
  - rewrite (array_get_ge a i Hge), !entries_app, entries_replicate_None.
    simpl. by rewrite !app_nil_r.
Qed.

Lemma array_get_set_ne (a : list slot) (i j : nat) (v : slot) :
  i <> j -> Array.get (Array.set a i v) j = Array.get a j.
Proof.
  intros Hij. unfold Array.set, Array.get.
  destruct (Nat.ltb_spec i (length a)) as [Hlt | Hge].
  - by rewrite list_lookup_insert_ne.
  - destruct (decide (j < length a)) as [Hj | Hj].
    + by rewrite lookup_app_l.
    + rewrite lookup_app_r by lia.
      rewrite (lookup_ge_None_2 a j) by lia.
      destruct (decide (j < i)) as [Hji | Hji].
      * rewrite lookup_app_l by (rewrite length_replicate; lia).
        rewrite lookup_replicate_2 by lia. reflexivity.
      * rewrite lookup_app_r by (rewrite length_replicate; lia).
        rewrite length_replicate.
        destruct (j - length a - (i - length a)) as [| k] eqn:E; [lia |].
        reflexivity.
Qed.

(** A swap moves entries about and neither adds nor drops one. *)
Lemma entries_swap (a : list slot) (i j : nat) :
  i <> j -> entries (Array.swap a i j) ≡ₚ entries a.
Proof.
  intros Hij. unfold Array.swap. simpl.
  pose proof (entries_set a i (Array.get a j)) as H1.
  pose proof (entries_set (Array.set a i (Array.get a j)) j (Array.get a i))
    as H2.
  rewrite (array_get_set_ne a i j _ Hij) in H2.
  rewrite H1 in H2. eapply Permutation_app_inv_r. exact H2.
Qed.

Lemma array_map_Some (f : ImageEntry.t -> ImageEntry.t) (a a' : list slot) :
  Array.map f a = Some a' ->
  exists l, a = Some <$> l /\ a' = Some <$> (f <$> l).
Proof.
  unfold Array.map. revert a'.
  induction a as [| s a IH]; intros a' H.
  - injection H as <-. by exists [].
  - cbn [mapM] in H. destruct s as [img |]; [| discriminate]. simpl in H.
    destruct (mapM _ a) as [r |]; [| discriminate].
    injection H as <-. destruct (IH r eq_refl) as (l & -> & ->).
    by exists (img :: l).
Qed.

Lemma array_filter_Some (p : ImageEntry.t -> bool) (a a' : list slot) :
  Array.filter p a = Some a' ->
  exists l, a = Some <$> l /\ a' = Some <$> List.filter p l.
Proof.
  revert a'. induction a as [| s a IH]; intros a' H.
  - injection H as <-. by exists [].
  - cbn [Array.filter] in H. destruct s as [img |]; [| discriminate].
    destruct (Array.filter p a) as [r |]; [| discriminate].
    injection H as <-. destruct (IH r eq_refl) as (l & -> & ->).
    exists (img :: l). split; [reflexivity |].
    cbn [List.filter]. by destruct (p img).
Qed.

Lemma ids_newImages (randomUUID : nat -> Js.str)
    (createObjectURL : nat -> File -> Js.str) (files : list File) :
  forall n,
    ids (newImages randomUUID createObjectURL n files)
    = randomUUID <$> seq n (length files).
Proof.
  induction files as [| f files IH]; intros n; [reflexivity |].
  cbn [newImages length seq]. unfold ids in *.
  rewrite !fmap_cons, IH. reflexivity.
Qed.

Lemma ids_filter_sublist (p : ImageEntry.t -> bool) (l : list ImageEntry.t) :
  ids (List.filter p l) `sublist_of` ids l.
Proof.
  unfold ids. induction l as [| e l IH]; [constructor |].
  cbn [List.filter]. destruct (p e); rewrite ?fmap_cons.
  - by apply sublist_skip.
  - by apply sublist_cons.
Qed.

Section UniqueIds.

Variable randomUUID : nat -> Js.str.
Variable createObjectURL : nat -> File -> Js.str.
(** The browser never hands out an identifier twice. *)
Hypothesis randomUUID_inj : forall m n, randomUUID m = randomUUID n -> m = n.

Lemma ids_fresh_perm (st st' : State) :
  entries (images st') ≡ₚ entries (images st) ->
  created st' = created st ->
  ids_fresh randomUUID st -> ids_fresh randomUUID st'.
Proof.
  intros Hperm Hc [Hnodup Hold]. unfold ids_fresh, ids in *.
  rewrite Hc. split.
  - by rewrite Hperm.
  - intros id Hid. apply Hold. by rewrite <- Hperm.
Qed.

Lemma ids_fresh_sublist (st st' : State) :
  ids (entries (images st')) `sublist_of` ids (entries (images st)) ->
  created st' = created st ->
  ids_fresh randomUUID st -> ids_fresh randomUUID st'.
Proof.
  intros Hsub Hc [Hnodup Hold]. unfold ids_fresh. rewrite Hc. split.
  - eapply sublist_NoDup; eassumption.
  - intros id Hid. apply Hold. exact (sublist_subseteq _ _ Hsub id Hid).
Qed.

Lemma step_ids_fresh (st st' : State) (ev : event) :
  ids_fresh randomUUID st ->
  step randomUUID createObjectURL st ev = Some st' ->
  ids_fresh randomUUID st'.
Proof.
  intros Hst Hstep. destruct ev as [files | id | index | index | id |];
    simpl in Hstep.
  - unfold handleFileSelect in Hstep.
    destruct (length (List.filter is_image files) =? 0)%nat;
      injection Hstep as <-; [by destruct st |].
    destruct Hst as [Hnodup Hold]. unfold ids_fresh. simpl.
    rewrite entries_app, entries_dense. unfold ids in *.
    rewrite fmap_app.
    pose proof (ids_newImages randomUUID createObjectURL
                  (List.filter is_image files) (created st)) as Hnew.
    unfold ids in Hnew. rewrite Hnew. split.
    + apply NoDup_app. split; [exact Hnodup |]. split.
      * intros id Hid Hid'. destruct (Hold id Hid) as (m & Hm & ->).
        apply list_elem_of_fmap in Hid' as (k & Hk & Hin).
        apply randomUUID_inj in Hk. apply elem_of_seq in Hin. lia.
      * assert (Hinj : Inj (=) (=) randomUUID)
          by (intros m k; apply randomUUID_inj).
        apply (NoDup_fmap_2 _), NoDup_seq.
    + intros id Hid. apply elem_of_app in Hid as [Hid | Hid].
      * destruct (Hold id Hid) as (m & Hm & ->). exists m. split; [lia | done].
      * apply list_elem_of_fmap in Hid as (k & -> & Hin).
        apply elem_of_seq in Hin. exists k. split; [lia | done].
  - destruct (rotateImage id (images st)) as [a' |] eqn:E; [| discriminate].
    injection Hstep as <-.
    apply array_map_Some in E as (l & Hl & ->).
    destruct Hst as [Hnodup Hold]. unfold ids_fresh in *. simpl.
    rewrite Hl in Hnodup, Hold. rewrite entries_dense in *.
    assert (Hids : ids (rotate_if id <$> l) = ids l).
    { unfold ids. rewrite <- list_fmap_compose. apply list_fmap_ext.
      intros _ e _. apply rotate_if_id. }
    rewrite Hids. by split.
  - injection Hstep as <-. apply (ids_fresh_perm st); [| reflexivity | exact Hst].
    simpl. unfold moveUp.
    destruct (Nat.eqb_spec index 0) as [-> | Hpos]; [reflexivity |].
    apply entries_swap. lia.
  - injection Hstep as <-. apply (ids_fresh_perm st); [| reflexivity | exact Hst].
    simpl. unfold moveDown.
    destruct (_ =? _)%Z; [reflexivity |].
    apply entries_swap. lia.
  - destruct (removeImage id (images st)) as [a' |] eqn:E; [| discriminate].
    injection Hstep as <-. unfold removeImage in E.
    destruct (Array.find _ _); [| discriminate].
    apply array_filter_Some in E as (l & Hl & ->).
    apply (ids_fresh_sublist st); [| reflexivity | exact Hst].
    simpl. rewrite Hl, !entries_dense. apply ids_filter_sublist.
  - destruct (clearAll (images st)) as [a' |] eqn:E; [| discriminate].
    injection Hstep as <-. unfold clearAll in E.
    destruct (Array.forEach _); [| discriminate].
    injection E as <-. split; [constructor |].
    intros id Hid. inversion Hid.
Qed.

(** In every reachable state the ids of the entries are pairwise different;
    this is the condition under which [removeImage] takes out one entry. *)
Lemma reachable_ids_fresh (st : State) :
  reachable randomUUID createObjectURL st -> ids_fresh randomUUID st.
Proof.
  induction 1 as [| st ev st' _ IH Hstep].
  - split; [constructor |]. intros id Hid. inversion Hid.
  - eapply step_ids_fresh; eassumption.
Qed.

Lemma reachable_dense_NoDup (st : State) (l : list ImageEntry.t) :
  reachable randomUUID createObjectURL st ->
  images st = Some <$> l -> NoDup (ids l).
Proof.
  intros Hreach Hl. destruct (reachable_ids_fresh st Hreach) as [Hnodup _].
  by rewrite Hl, entries_dense in Hnodup.
Qed.

End UniqueIds.

(** ** Concrete rasters in binary64 *)

Module Binary64Runs.
Import PrimFloat.
Local Open Scope float_scope.

Example binary64_layout_800_600 :
  Binary64.layout 800 600 = Binary64.mkRect 10 77.25 190 142.5.
Proof. vm_compute. reflexivity. Qed.

Example binary64_layout_190_277 :
  Binary64.layout 190 277 = Binary64.mkRect 10 10 190 277.
Proof. vm_compute. reflexivity. Qed.

Example binary64_layout_800_0 :
  Binary64.layout 800 0 = Binary64.mkRect 10 148.5 190 0.
Proof. vm_compute. reflexivity. Qed.

Example binary64_layout_0_0 :
  Binary64.layout 0 0 = Binary64.mkRect nan 10 nan 277.
Proof. vm_compute. reflexivity. Qed.

(** 21.833333333333329 and 253.33333333333334, written exactly. *)
Example binary64_layout_600_800 :
  Binary64.layout 600 800
  = Binary64.mkRect 10 0x1.5d55555555554p+4 190 0x1.faaaaaaaaaaabp+7.
Proof. vm_compute. reflexivity. Qed.

End Binary64Runs.

(** ** The layout against the primitive binary64 numbers *)

Lemma num_eqb_eq (a b : Js.num) : num_eqb a b = true -> a = b.
Proof.
  destruct a as [[pn pd] | | |], b as [[qn qd] | | |]; simpl; try done.
  rewrite andb_true_iff, Z.eqb_eq, Pos.eqb_eq. by intros [-> ->].
Qed.

Lemma rect_eqb_eq (a b : LayoutRect) : rect_eqb a b = true -> a = b.
Proof.
  destruct a, b. unfold rect_eqb. cbn [x y finalWidth finalHeight].
  rewrite !andb_true_iff. intros [[[H1 H2] H3] H4].
  by rewrite (num_eqb_eq _ _ H1), (num_eqb_eq _ _ H2),
             (num_eqb_eq _ _ H3), (num_eqb_eq _ _ H4).
Qed.

Lemma layouts_agree_below_spec (n w h : nat) :
  layouts_agree_below n = true -> (w < n)%nat -> (h < n)%nat ->
  layouts_agree (N.of_nat w) (N.of_nat h) = true.
Proof.
  unfold layouts_agree_below. intros Hall Hw Hh.
  rewrite List.forallb_forall in Hall.
  specialize (Hall w (proj2 (List.in_seq n 0 w) ltac:(lia))).
  rewrite List.forallb_forall in Hall.
  apply Hall, List.in_seq. lia.
Qed.

Lemma layouts_agree_below_40 : layouts_agree_below 40 = true.
Proof. vm_compute. reflexivity. Qed.

(** X22. On every raster of fewer than 40 by 40 pixels, the empty ones
    among them, the layout on rounded rationals gives the rect that the
    same block gives on the primitive binary64 numbers. *)
Theorem layout_agrees_with_binary64 (w h : nat) :
  (w < 40)%nat -> (h < 40)%nat ->
  rect_of_binary64
    (Binary64.layout (Binary64.of_N (N.of_nat w)) (Binary64.of_N (N.of_nat h)))
  = layout (Js.of_N (N.of_nat w)) (Js.of_N (N.of_nat h)).
Proof.
  intros Hw Hh. apply rect_eqb_eq.
  exact (layouts_agree_below_spec 40 w h layouts_agree_below_40 Hw Hh).
Qed.

Lemma layout_agrees_with_binary64_witness :
  (3 < 40)%nat /\ (7 < 40)%nat
  /\ rect_of_binary64
       (Binary64.layout (Binary64.of_N (N.of_nat 3)) (Binary64.of_N (N.of_nat 7)))
     = layout (Js.of_N (N.of_nat 3)) (Js.of_N (N.of_nat 7)).
Proof.
  assert (H1 : (3 < 40)%nat) by lia.
  assert (H2 : (7 < 40)%nat) by lia.
  split; [exact H1 |]. split; [exact H2 |].
  exact (layout_agrees_with_binary64 3 7 H1 H2).
Defined.

(** The same on the sizes of photographs and on the largest integers. *)
Example layouts_agree_on_photographs :
  forallb (fun w => forallb (layouts_agree w)
                      [1; 600; 1080; 3024; 65535; 4294967295;
                       9007199254740991]%N)
          [0; 1; 800; 1920; 4032; 65535; 4294967295; 9007199254740991]%N
  = true.
Proof. vm_compute. reflexivity. Qed.

(** * Further properties of the component *)

(** ** Selecting files *)

Lemma startsWith_prefix (p s : Js.str) :
  Js.startsWith p s = true <-> exists rest, s = p ++ rest.
Proof.
  revert s. induction p as [| c p IH]; intros s; simpl.
  - split; [intros _; by exists s | done].
  - destruct s as [| d s]; [split; [done | intros [rest [=]]] |].
    rewrite andb_true_iff, N.eqb_eq, IH. split.
    + intros [-> [rest ->]]. by exists rest.
    + intros [rest [= -> ->]]. split; [done | by exists rest].
Qed.

Lemma newImages_length (randomUUID : nat -> Js.str)
    (createObjectURL : nat -> File -> Js.str) (files : list File) :
  forall n, length (newImages randomUUID createObjectURL n files) = length files.
Proof.
  induction files as [| f files IH]; intros n; [reflexivity |].
  cbn [newImages length]. by rewrite IH.
Qed.

Lemma newImages_lookup (randomUUID : nat -> Js.str)
    (createObjectURL : nat -> File -> Js.str) (files : list File) :
  forall n k f,
    files !! k = Some f ->
    newImages randomUUID createObjectURL n files !! k
    = Some (ImageEntry.mk (randomUUID (n + k)) f (createObjectURL (n + k) f)
              0 (file_name f)).
Proof.
  induction files as [| f0 files IH]; intros n k f Hk; [done |].
  destruct k as [| k]; cbn [newImages].
  - injection Hk as ->. simpl. by rewrite Nat.add_0_r.
  - simpl in *. rewrite (IH (S n) k f Hk). do 3 f_equal; lia.
Qed.

Lemma filter_is_image (files : list File) :
  List.filter is_image files
  = filter (fun f => Js.lit "image/"%string `prefix_of` file_type f) files.
Proof.
  induction files as [| f files IH]; [reflexivity |].
  cbn [List.filter]. rewrite filter_cons, <- IH.
  destruct (is_image f) eqn:E; unfold is_image in E.
  - rewrite decide_True; [reflexivity |].
    by apply startsWith_prefix in E.
  - rewrite decide_False; [reflexivity |].
    intros H. apply startsWith_prefix in H. congruence.
Qed.

(** X1. A file selection appends, after the entries already there and in
    the order of the selection, one entry for each file whose type starts
    with ["image/"], a file selected twice getting two: the accepted files
    are the selection filtered by that prefix, and the [k]-th of them gets
    the next fresh id and object URL, rotation 0 and the file's name.
    Other files are skipped, and a selection without an image file changes
    nothing. *)
Theorem handleFileSelect_appends (randomUUID : nat -> Js.str)
    (createObjectURL : nat -> File -> Js.str)
    (n : nat) (files : list File) (prev : list slot) :
  exists accepted new,
    handleFileSelect randomUUID createObjectURL n files prev
    = (n + length accepted, prev ++ (Some <$> new))
    /\ accepted
       = filter (fun f => Js.lit "image/"%string `prefix_of` file_type f) files
    /\ length new = length accepted
    /\ (forall k f, accepted !! k = Some f ->
          new !! k
          = Some (ImageEntry.mk (randomUUID (n + k)) f
                    (createObjectURL (n + k) f) 0 (file_name f)))
    /\ accepted `sublist_of` files
    /\ (forall f, f ∈ accepted <->
          f ∈ files
          /\ exists rest, file_type f = Js.lit "image/"%string ++ rest)
    /\ (accepted = [] ->
          handleFileSelect randomUUID createObjectURL n files prev = (n, prev)).
Proof.
  exists (List.filter is_image files),
         (newImages randomUUID createObjectURL n (List.filter is_image files)).
  assert (Hrun : handleFileSelect randomUUID createObjectURL n files prev
            = (n + length (List.filter is_image files),
               prev ++ (Some <$> newImages randomUUID createObjectURL n
                                   (List.filter is_image files)))).
  { unfold handleFileSelect.
    destruct (List.filter is_image files) as [| f fs] eqn:E; [| reflexivity].
    simpl. by rewrite Nat.add_0_r, app_nil_r. }
  split; [exact Hrun |]. split; [apply filter_is_image |].
  split; [apply newImages_length |].
  split; [apply newImages_lookup |]. split; [| split].
  - clear Hrun. induction files as [| f files IH]; [constructor |].
    cbn [List.filter]. destruct (is_image f).
    + by apply sublist_skip.
    + by apply sublist_cons.
  - intros f. rewrite list_elem_of_In, List.filter_In, <- list_elem_of_In.
    unfold is_image. by rewrite startsWith_prefix.
  - intros Hnone. rewrite Hrun, Hnone. simpl. by rewrite Nat.add_0_r, app_nil_r.
Qed.

(** A file selected twice is taken twice. *)
Example handleFileSelect_repeated_file :
  handleFileSelect Sample.randomUUID Sample.createObjectURL 0
    [Sample.png "a.png"; Sample.png "a.png"] []
  = (2, [Some (ImageEntry.mk (Sample.randomUUID 0) (Sample.png "a.png")
                 (Sample.createObjectURL 0 (Sample.png "a.png")) 0
                 (Js.lit "a.png"%string));
         Some (ImageEntry.mk (Sample.randomUUID 1) (Sample.png "a.png")
                 (Sample.createObjectURL 1 (Sample.png "a.png")) 0
                 (Js.lit "a.png"%string))]).
Proof. vm_compute. reflexivity. Qed.

Example handleFileSelect_skips_text :
  handleFileSelect Sample.randomUUID Sample.createObjectURL 0
    [Sample.txt "notes.txt"; Sample.png "a.png"] []
  = (1, [Some (ImageEntry.mk (Sample.randomUUID 0) (Sample.png "a.png")
                 (Sample.createObjectURL 0 (Sample.png "a.png")) 0
                 (Js.lit "a.png"%string))]).
Proof. vm_compute. reflexivity. Qed.

(** ** Handlers on arrays with [undefined] *)

Lemma array_map_None (f : ImageEntry.t -> ImageEntry.t) (a : list slot) :
  Array.map f a = None <-> None ∈ a.
Proof.
  unfold Array.map. induction a as [| s a IH].
  - split; [discriminate | intros H; inversion H].
  - cbn [mapM]. destruct s as [img |]; simpl.
    + rewrite elem_of_cons. destruct (mapM _ a) as [r |]; simpl.
      * split; [discriminate |]. intros [? | Hin]; [discriminate |].
        by apply IH in Hin.
      * split; [intros _; right; by apply IH | done].
    + split; [intros _; apply list_elem_of_here | done].
Qed.

Lemma array_filter_None (p : ImageEntry.t -> bool) (a : list slot) :
  Array.filter p a = None <-> None ∈ a.
Proof.
  induction a as [| s a IH].
  - split; [discriminate | intros H; inversion H].
  - cbn [Array.filter]. destruct s as [img |].
    + rewrite elem_of_cons. destruct (Array.filter p a) as [r |].
      * split; [discriminate |]. intros [? | Hin]; [discriminate |].
        by apply IH in Hin.
      * split; [intros _; right; by apply IH | done].
    + split; [intros _; apply list_elem_of_here | done].
Qed.

Lemma array_forEach_None (a : list slot) :
  Array.forEach a = None <-> None ∈ a.
Proof.
  induction a as [| s a IH].
  - split; [discriminate | intros H; inversion H].
  - cbn [Array.forEach]. destruct s as [img |].
    + rewrite elem_of_cons, IH. split; [auto |].
      intros [? | Hin]; [discriminate | exact Hin].
    + split; [intros _; apply list_elem_of_here | done].
Qed.

Lemma undefined_or_dense (a : list slot) :
  None ∈ a \/ exists l : list ImageEntry.t, a = Some <$> l.
Proof.
  induction a as [| s a [Hin | [l ->]]].
  - right. by exists [].
  - left. by apply list_elem_of_further.
  - destruct s as [e |].
    + right. by exists (e :: l).
    + left. apply list_elem_of_here.
Qed.

Lemma dense_no_undefined (l : list ImageEntry.t) : None ∉ (Some <$> l : list slot).
Proof. intros H. apply list_elem_of_fmap in H as (e & ? & _). discriminate. Qed.

(** X2. [rotateImage], [removeImage] and [clearAll] throw exactly when the
    list holds an [undefined]; short of that [clearAll] leaves the empty
    list, and [rotateImage] a list of the same length. *)
Theorem handlers_throw_iff_undefined (id : Js.str) (a : list slot) :
  (rotateImage id a = None <-> None ∈ a)
  /\ (removeImage id a = None <-> None ∈ a)
  /\ (clearAll a = None <-> None ∈ a)
  /\ (None ∉ a -> clearAll a = Some [])
  /\ (forall a', rotateImage id a = Some a' -> length a' = length a).
Proof.
  split; [apply array_map_None |]. split; [| split; [| split]].
  - unfold removeImage. destruct (undefined_or_dense a) as [Hin | [l ->]].
    + split; [done | intros _].
      destruct (Array.find _ a); [| done]. by apply array_filter_None.
    + destruct (array_find_dense
                  (fun i => Js.str_eqb (ImageEntry.id i) id) l) as [r ->].
      rewrite array_filter_dense. split; [discriminate |].
      intros H. by apply dense_no_undefined in H.
  - unfold clearAll. rewrite <- array_forEach_None.
    destruct (Array.forEach a); split; done.
  - intros Hnone. unfold clearAll.
    destruct (Array.forEach a) eqn:E; [done |].
    by apply array_forEach_None in E.
  - intros a' H. apply array_map_Some in H as (l & -> & ->).
    by rewrite !length_fmap.
Qed.

(** ** Reordering *)

(** X3. A move neither drops nor duplicates an entry, whatever the row
    number: the entries after [moveUp] or [moveDown] are the entries before,
    in another order. *)
Theorem move_permutes_entries (images : list slot) (index : nat)
    (prev : list slot) :
  entries (moveUp index prev) ≡ₚ entries prev
  /\ entries (moveDown images index prev) ≡ₚ entries prev.
Proof.
  split.
  - unfold moveUp. destruct (Nat.eqb_spec index 0); [done |].
    apply entries_swap. lia.
  - unfold moveDown. destruct (_ =? _)%Z; [done |].
    apply entries_swap. lia.
Qed.

Lemma swap_swap_rows (l : list ImageEntry.t) (i j : nat) (a b : ImageEntry.t) :
  i <> j -> l !! i = Some a -> l !! j = Some b ->
  <[j := b]> (<[i := a]> (<[j := a]> (<[i := b]> l))) = l.
Proof.
  intros Hij Ha Hb.
  pose proof (lookup_lt_Some _ _ _ Ha) as Hi.
  pose proof (lookup_lt_Some _ _ _ Hb) as Hj.
  apply list_eq. intros k.
  destruct (decide (k = j)) as [-> | Hkj].
  { rewrite list_lookup_insert_eq by (by rewrite !length_insert). done. }
  rewrite list_lookup_insert_ne by done.
  destruct (decide (k = i)) as [-> | Hki].
  { rewrite list_lookup_insert_eq by (by rewrite !length_insert). done. }
  by rewrite !list_lookup_insert_ne by done.
Qed.

(** X4. Moving a row up and then down again, or down and then up again,
    gives the list back; so does moving it up twice in place (the second
    click acts on the row now at that place). *)
Theorem move_round_trip (l : list ImageEntry.t) (index : nat) :
  0 < index < length l ->
  let a : list slot := Some <$> l in
  moveDown (moveUp index a) (index - 1) (moveUp index a) = a
  /\ moveUp index (moveDown a (index - 1) a) = a
  /\ moveUp index (moveUp index a) = a.
Proof.
  intros [Hpos Hlt] a. subst a.
  destruct (lookup_lt_is_Some_2 l (index - 1)) as [x Hx]; [lia |].
  destruct (lookup_lt_is_Some_2 l index) as [y Hy]; [lia |].
  assert (Hup : moveUp index (Some <$> l)
                = Some <$> <[index := x]> (<[index - 1 := y]> l)).
  { unfold moveUp. destruct (Nat.eqb_spec index 0); [lia |].
    by apply array_swap_dense. }
  assert (Hdown : moveDown (Some <$> l) (index - 1) (Some <$> l)
                  = Some <$> <[index := x]> (<[index - 1 := y]> l)).
  { unfold moveDown. rewrite length_fmap.
    destruct (Z.eqb_spec (Z.of_nat (index - 1)) (Z.of_nat (length l) - 1));
      [lia |].
    replace (index - 1 + 1) with index by lia.
    by apply array_swap_dense. }
  set (l' := <[index := x]> (<[index - 1 := y]> l)) in *.
  assert (Hx' : l' !! (index - 1) = Some y).
  { subst l'. rewrite list_lookup_insert_ne by lia.
    apply list_lookup_insert_eq. by eapply lookup_lt_Some. }
  assert (Hy' : l' !! index = Some x).
  { subst l'. apply list_lookup_insert_eq. rewrite length_insert.
    by eapply lookup_lt_Some. }
  assert (Hback : <[index := y]> (<[index - 1 := x]> l') = l).
  { subst l'. apply swap_swap_rows; [lia | done..]. }
  assert (Hlen : length l' = length l) by (subst l'; by rewrite !length_insert).
  rewrite Hup, Hdown. split; [| split].
  - unfold moveDown. rewrite length_fmap, Hlen.
    destruct (Z.eqb_spec (Z.of_nat (index - 1)) (Z.of_nat (length l) - 1));
      [lia |].
    replace (index - 1 + 1) with index by lia.
    rewrite (array_swap_dense l' (index - 1) index y x Hx' Hy').
    by rewrite Hback.
  - unfold moveUp. destruct (Nat.eqb_spec index 0); [lia |].
    rewrite (array_swap_dense l' (index - 1) index y x Hx' Hy').
    by rewrite Hback.
  - unfold moveUp. destruct (Nat.eqb_spec index 0); [lia |].
    rewrite (array_swap_dense l' (index - 1) index y x Hx' Hy').
    by rewrite Hback.
Qed.

Lemma move_round_trip_witness :
  0 < 1 < length [Sample.entry 0 0; Sample.entry 1 90; Sample.entry 2 0]
  /\ moveUp 1 (moveUp 1
       (Some <$> [Sample.entry 0 0; Sample.entry 1 90; Sample.entry 2 0]))
     = Some <$> [Sample.entry 0 0; Sample.entry 1 90; Sample.entry 2 0].
Proof.
  assert (H : 0 < 1 < length
            [Sample.entry 0 0; Sample.entry 1 90; Sample.entry 2 0])
    by (simpl; lia).
  split; [exact H |].
  exact (proj2 (proj2 (move_round_trip
    [Sample.entry 0 0; Sample.entry 1 90; Sample.entry 2 0] 1 H))).
Defined.

Lemma array_set_undefined (a : list slot) (i : nat) :
  (Array.set a i None) !! i = Some None.
Proof.
  unfold Array.set. destruct (Nat.ltb_spec i (length a)) as [Hlt | Hge].
  - by apply list_lookup_insert_eq.
  - rewrite lookup_app_r by lia.
    destruct (decide (i = length a)) as [-> | Hne].
    + by rewrite Nat.sub_diag.
    + rewrite lookup_app_r by (rewrite length_replicate; lia).
      by rewrite length_replicate, Nat.sub_diag.
Qed.

Lemma array_set_length (a : list slot) (i : nat) (v : slot) :
  length (Array.set a i v) = Nat.max (length a) (S i).
Proof.
  unfold Array.set. destruct (Nat.ltb_spec i (length a)) as [Hlt | Hge].
  - rewrite length_insert. lia.
  - rewrite !length_app, length_replicate. simpl. lia.
Qed.

Lemma array_set_lookup_ne (a : list slot) (i j : nat) (v : slot) :
  i <> j -> j < length (Array.set a i v) ->
  exists s, Array.set a i v !! j = Some s /\ Array.get a j = s.
Proof.
  intros Hij Hj. destruct (lookup_lt_is_Some_2 _ _ Hj) as [s Hs].
  exists s. split; [exact Hs |].
  rewrite <- (array_get_set_ne a i j v Hij). by apply array_get_lookup.
Qed.

(** X5. A move at a row number past the end of the list (the rendered
    buttons never pass one) leaves an [undefined] in the list and makes it
    longer; the next [rotateImage] then throws. *)
Theorem move_past_end_leaves_undefined (prev : list slot) (index : nat) :
  0 < index -> length prev <= index ->
  None ∈ moveUp index prev
  /\ None ∈ moveDown prev index prev
  /\ length (moveUp index prev) = S index
  /\ length (moveDown prev index prev) = S (S index)
  /\ forall id, rotateImage id (moveUp index prev) = None.
Proof.
  intros Hpos Hge.
  assert (Hup : None ∈ moveUp index prev).
  { unfold moveUp. destruct (Nat.eqb_spec index 0); [lia |].
    unfold Array.swap. simpl. rewrite (array_get_ge prev index Hge).
    pose proof (array_set_undefined prev (index - 1)) as Hi.
    destruct (array_set_lookup_ne (Array.set prev (index - 1) None) index
                (index - 1) (Array.get prev (index - 1))) as (s & Hs & Hget).
    { lia. }
    { rewrite !array_set_length. lia. }
    rewrite (array_get_lookup _ _ _ Hi) in Hget. subst s.
    by eapply list_elem_of_lookup_2. }
  split; [exact Hup |]. split; [| split; [| split]].
  - unfold moveDown.
    destruct (Z.eqb_spec (Z.of_nat index) (Z.of_nat (length prev) - 1));
      [lia |].
    unfold Array.swap. simpl.
    rewrite (array_get_ge prev index Hge),
            (array_get_ge prev (index + 1)) by lia.
    eapply list_elem_of_lookup_2. apply array_set_undefined.
  - unfold moveUp. destruct (Nat.eqb_spec index 0); [lia |].
    unfold Array.swap. simpl. rewrite !array_set_length. lia.
  - unfold moveDown.
    destruct (Z.eqb_spec (Z.of_nat index) (Z.of_nat (length prev) - 1));
      [lia |].
    unfold Array.swap. simpl. rewrite !array_set_length. lia.
  - intros id. by apply array_map_None.
Qed.

Lemma move_past_end_leaves_undefined_witness :
  0 < 2 /\ length (Some <$> [Sample.entry 0 0; Sample.entry 1 0] : list slot) <= 2
  /\ None ∈ moveUp 2 (Some <$> [Sample.entry 0 0; Sample.entry 1 0]).
Proof.
  assert (H1 : 0 < 2) by lia.
  assert (H2 : length (Some <$> [Sample.entry 0 0; Sample.entry 1 0]
                       : list slot) <= 2) by (simpl; lia).
  split; [exact H1 |]. split; [exact H2 |].
  exact (proj1 (move_past_end_leaves_undefined
                  (Some <$> [Sample.entry 0 0; Sample.entry 1 0]) 2 H1 H2)).
Defined.

(** ** Rotation and the other handlers *)

Lemma rotate_if_comm (id1 id2 : Js.str) (img : ImageEntry.t) :
  rotate_if id1 (rotate_if id2 img) = rotate_if id2 (rotate_if id1 img).
Proof.
  unfold rotate_if at 1 3. rewrite !rotate_if_id.
  unfold rotate_if.
  destruct (Js.str_eqb (ImageEntry.id img) id1),
           (Js.str_eqb (ImageEntry.id img) id2); reflexivity.
Qed.

(** X6. Rotations of two entries can be made in either order, and a
    rotation can be made before or after a move of a rendered row: the list
    that results is the same. *)
Theorem rotateImage_commutes (id1 id2 : Js.str) (l : list ImageEntry.t)
    (index : nat) :
  index < length l ->
  let a : list slot := Some <$> l in
  (rotateImage id1 a ≫= rotateImage id2) = (rotateImage id2 a ≫= rotateImage id1)
  /\ rotateImage id1 (moveUp index a) = moveUp index <$> rotateImage id1 a
  /\ rotateImage id1 (moveDown a index a)
     = (fun a' => moveDown a' index a') <$> rotateImage id1 a.
Proof.
  intros Hlt a. subst a. rewrite !rotateImage_dense. simpl.
  rewrite !rotateImage_dense. split; [| split].
  - do 2 f_equal. rewrite <- !list_fmap_compose. apply list_fmap_ext.
    intros _ e _. simpl. apply rotate_if_comm.
  - unfold moveUp. destruct (Nat.eqb_spec index 0) as [-> | Hpos].
    { apply rotateImage_dense. }
    destruct (lookup_lt_is_Some_2 l (index - 1)) as [x Hx]; [lia |].
    destruct (lookup_lt_is_Some_2 l index) as [y Hy]; [lia |].
    rewrite (array_swap_dense l (index - 1) index x y Hx Hy).
    rewrite (array_swap_dense (rotate_if id1 <$> l) (index - 1) index
               (rotate_if id1 x) (rotate_if id1 y))
      by (by rewrite list_lookup_fmap, ?Hx, ?Hy).
    rewrite rotateImage_dense. by rewrite !list_fmap_insert.
  - unfold moveDown. rewrite !length_fmap.
    destruct (Z.eqb_spec (Z.of_nat index) (Z.of_nat (length l) - 1))
      as [_ | Hne].
    { apply rotateImage_dense. }
    destruct (lookup_lt_is_Some_2 l index) as [x Hx]; [lia |].
    destruct (lookup_lt_is_Some_2 l (index + 1)) as [y Hy]; [lia |].
    rewrite (array_swap_dense l index (index + 1) x y Hx Hy).
    rewrite (array_swap_dense (rotate_if id1 <$> l) index (index + 1)
               (rotate_if id1 x) (rotate_if id1 y))
      by (by rewrite list_lookup_fmap, ?Hx, ?Hy).
    rewrite rotateImage_dense. by rewrite !list_fmap_insert.
Qed.

Lemma rotateImage_commutes_witness :
  1 < length [Sample.entry 0 0; Sample.entry 1 90]
  /\ rotateImage (Sample.randomUUID 0)
       (moveUp 1 (Some <$> [Sample.entry 0 0; Sample.entry 1 90]))
     = moveUp 1 <$> rotateImage (Sample.randomUUID 0)
                      (Some <$> [Sample.entry 0 0; Sample.entry 1 90]).
Proof.
  assert (H : 1 < length [Sample.entry 0 0; Sample.entry 1 90])
    by (simpl; lia).
  split; [exact H |].
  exact (proj1 (proj2 (rotateImage_commutes (Sample.randomUUID 0)
    (Sample.randomUUID 1) [Sample.entry 0 0; Sample.entry 1 90] 1 H))).
Defined.

(** ** Removal *)

Lemma filter_other_id (id : Js.str) (l : list ImageEntry.t) :
  List.filter (fun i => negb (Js.str_eqb (ImageEntry.id i) id)) l
  = filter (fun e => ImageEntry.id e <> id) l.
Proof.
  induction l as [| e l IH]; [reflexivity |].
  cbn [List.filter]. rewrite filter_cons, <- IH.
  destruct (Js.str_eqb (ImageEntry.id e) id) eqn:E; cbn [negb].
  - rewrite decide_False; [reflexivity |].
    apply str_eqb_eq in E. by intros H.
  - rewrite decide_True; [reflexivity |]. by apply str_eqb_neq.
Qed.

(** X7. [removeImage id] keeps exactly the entries with another id, each
    as often as it was there and in their order: the new list is the old
    one filtered by [id <> id'].  So no entry with that id is left, whether
    one or several had it, and removing the same id once more changes
    nothing. *)
Theorem removeImage_clears_id (id : Js.str) (l : list ImageEntry.t) :
  exists l',
    removeImage id (Some <$> l) = Some (Some <$> l')
    /\ l' = filter (fun e => ImageEntry.id e <> id) l
    /\ (id ∉ ids l')
    /\ (forall e, e ∈ l' <-> e ∈ l /\ ImageEntry.id e <> id)
    /\ l' `sublist_of` l
    /\ length l' <= length l
    /\ removeImage id (Some <$> l') = Some (Some <$> l').
Proof.
  set (keep := fun i => negb (Js.str_eqb (ImageEntry.id i) id)).
  exists (List.filter keep l).
  assert (Hin : forall e, e ∈ List.filter keep l
                          <-> e ∈ l /\ ImageEntry.id e <> id).
  { intros e. rewrite list_elem_of_In, List.filter_In, <- list_elem_of_In.
    subst keep. simpl. by rewrite negb_true_iff, str_eqb_neq. }
  assert (Hsub : List.filter keep l `sublist_of` l).
  { clear Hin. induction l as [| e l IH]; [constructor |].
    cbn [List.filter]. destruct (keep e).
    - by apply sublist_skip.
    - by apply sublist_cons. }
  split; [apply removeImage_dense |]. split; [apply filter_other_id |].
  split; [| split; [| split; [| split]]].
  - unfold ids. intros H. apply list_elem_of_fmap in H as (e & -> & He).
    apply Hin in He as [_ Hne]. by apply Hne.
  - exact Hin.
  - exact Hsub.
  - by apply sublist_length.
  - rewrite removeImage_dense. do 2 f_equal. apply filter_all.
    intros e He. apply Hin in He as [_ Hne].
    by apply negb_true_iff, str_eqb_neq.
Qed.

(** ** Identifiers *)

(** X8. When the browser never hands out an identifier twice, no two
    entries of a reachable state share an id, and every id in the list is
    one the browser handed out for an earlier selection. *)
Theorem reachable_ids_unique (randomUUID : nat -> Js.str)
    (createObjectURL : nat -> File -> Js.str) (st : State) :
  (forall m n, randomUUID m = randomUUID n -> m = n) ->
  reachable randomUUID createObjectURL st ->
  NoDup (ids (entries (images st)))
  /\ forall img, Some img ∈ images st ->
       exists n, n < created st /\ ImageEntry.id img = randomUUID n.
Proof.
  intros Hinj Hreach.
  destruct (reachable_ids_fresh randomUUID createObjectURL Hinj st Hreach)
    as [Hnodup Hold].
  split; [exact Hnodup |]. intros img Hin. apply Hold.
  unfold ids. apply list_elem_of_fmap. exists img. split; [done |].
  unfold entries. apply list_elem_of_omap. by exists (Some img).
Qed.

Lemma sample_randomUUID_inj (m n : nat) :
  Sample.randomUUID m = Sample.randomUUID n -> m = n.
Proof.
  unfold Sample.randomUUID. intros H. apply app_inv_head in H.
  injection H as H. lia.
Qed.

Lemma reachable_ids_unique_witness :
  exists st,
    run Sample.randomUUID Sample.createObjectURL initial Sample.session
    = Some st
    /\ reachable Sample.randomUUID Sample.createObjectURL st
    /\ NoDup (ids (entries (images st))).
Proof.
  eexists. split; [vm_compute; reflexivity |].
  assert (Hreach : reachable Sample.randomUUID Sample.createObjectURL
            (default initial
               (run Sample.randomUUID Sample.createObjectURL initial
                  Sample.session))).
  { apply (run_reachable Sample.randomUUID Sample.createObjectURL
             Sample.session initial _ (reachable_initial _ _)).
    vm_compute. reflexivity. }
  split; [exact Hreach |].
  exact (proj1 (reachable_ids_unique Sample.randomUUID Sample.createObjectURL
                  _ sample_randomUUID_inj Hreach)).
Defined.

(** ** The rendered page *)

Lemma render_rows_dense (images : list slot) (l : list ImageEntry.t) :
  forall index,
    render_rows images index (Some <$> l)
    = Some (imap (fun k => render_row images (index + k)) l).
Proof.
  induction l as [| e l IH]; intros index; [reflexivity |].
  rewrite fmap_cons. cbn [render_rows imap]. rewrite IH.
  rewrite Nat.add_0_r. do 2 f_equal.
  apply imap_ext. intros k x _. simpl. f_equal. lia.
Qed.

Lemma render_rows_None (images a : list slot) :
  forall index, render_rows images index a = None <-> None ∈ a.
Proof.
  induction a as [| s a IH]; intros index.
  - split; [discriminate | intros H; inversion H].
  - cbn [render_rows]. destruct s as [img |].
    + rewrite elem_of_cons. specialize (IH (S index)).
      destruct (render_rows images (S index) a).
      * split; [discriminate |]. intros [? | Hin]; [discriminate |].
        by apply IH in Hin.
      * split; [intros _; right; by apply IH | done].
    + split; [intros _; apply list_elem_of_here | done].
Qed.

Lemma render_rows_length (images a : list slot) :
  forall index rows,
    render_rows images index a = Some rows -> length rows = length a.
Proof.
  induction a as [| s a IH]; intros index rows H.
  - by injection H as <-.
  - cbn [render_rows] in H. destruct s as [img |]; [| discriminate].
    destruct (render_rows images (S index) a) as [r |] eqn:E; [| discriminate].
    injection H as <-. simpl. f_equal. by eapply IH.
Qed.

(** X9. Rendering throws exactly when the list holds an [undefined].
    Otherwise there is one row per entry; the "no images" notice shows
    exactly when the list is empty, the count line with "Clear all" and the
    bottom bar with the create button exactly when it is not, and an empty
    list offers no click on the list. *)
Theorem render_shape (st : State) :
  (render st = None <-> None ∈ images st)
  /\ forall v, render st = Some v ->
       length (list_rows v) = length (images st)
       /\ (empty_state v = true <-> images st = [])
       /\ (is_Some (count_line v) <-> images st <> [])
       /\ (is_Some (bottom_bar v) <-> images st <> [])
       /\ (images st = [] -> clicks v = []).
Proof.
  unfold render. split.
  - rewrite <- (render_rows_None (images st) (images st) 0).
    destruct (render_rows _ _ _); split; done.
  - intros v Hv.
    destruct (render_rows (images st) 0 (images st)) as [rows |] eqn:E;
      [| discriminate].
    injection Hv as <-. simpl.
    pose proof (render_rows_length _ _ _ _ E) as Hlen.
    split; [exact Hlen |].
    destruct (images st) as [| s a] eqn:Himgs.
    + simpl. destruct rows; [| discriminate].
      repeat split; try done; intros [? ?]; discriminate.
    + simpl. repeat split; try done; eauto.
Qed.

Lemma row_clicks_dense (images : list slot) (l : list ImageEntry.t)
    (ev : event) :
  ev ∈ mjoin (row_clicks <$> imap (fun k => render_row images (0 + k)) l) ->
  exists k e, l !! k = Some e /\ ev ∈ row_clicks (render_row images k e).
Proof.
  intros H. apply list_elem_of_join in H as (evs & Hev & Hevs).
  apply list_elem_of_fmap in Hevs as (r & -> & Hr).
  apply list_elem_of_lookup in Hr as (k & Hk).
  rewrite list_lookup_imap in Hk.
  destruct (l !! k) as [e |] eqn:E; [| discriminate].
  injection Hk as <-. by exists k, e.
Qed.

(** Every click the rendered list offers calls its handler with a row of
    the list. *)
Lemma clicks_in_rows (st : State) (l : list ImageEntry.t) (v : View)
    (ev : event) :
  images st = Some <$> l -> render st = Some v -> ev ∈ clicks v ->
  match ev with
  | MoveUp index => 0 < index < length l
  | MoveDown index => index + 1 < length l
  | Rotate id | Remove id => id ∈ ids l
  | Clear => l <> []
  | Add _ => False
  end.
Proof.
  intros Himgs Hv Hev. unfold render in Hv. rewrite Himgs in Hv.
  rewrite render_rows_dense in Hv. injection Hv as <-.
  unfold clicks in Hev. simpl in Hev. rewrite length_fmap in Hev.
  apply elem_of_app in Hev as [Hev | Hev].
  - destruct l as [| e l]; simpl in Hev; [inversion Hev |].
    apply list_elem_of_singleton in Hev as ->. discriminate.
  - apply row_clicks_dense in Hev as (k & e & Hk & Hev).
    pose proof (lookup_lt_Some _ _ _ Hk) as Hlt.
    assert (Hid : ImageEntry.id e ∈ ids l).
    { unfold ids. apply list_elem_of_fmap. exists e. split; [done |].
      by eapply list_elem_of_lookup_2. }
    unfold row_clicks, render_row in Hev. simpl in Hev.
    rewrite length_fmap in Hev.
    apply elem_of_app in Hev as [Hev | Hev];
      [| apply elem_of_app in Hev as [Hev | Hev]].
    + destruct (Nat.eqb_spec k 0); [inversion Hev |].
      apply list_elem_of_singleton in Hev as ->. lia.
    + destruct (Z.eqb_spec (Z.of_nat k) (Z.of_nat (length l) - 1));
        [inversion Hev |].
      apply list_elem_of_singleton in Hev as ->. lia.
    + apply elem_of_cons in Hev as [-> | Hev]; [exact Hid |].
      apply list_elem_of_singleton in Hev as ->. exact Hid.
Qed.

Lemma row_click_offered (images : list slot) (l : list ImageEntry.t)
    (k : nat) (e : ImageEntry.t) (ev : event) :
  l !! k = Some e -> ev ∈ row_clicks (render_row images k e) ->
  ev ∈ mjoin (row_clicks <$> imap (fun k => render_row images (0 + k)) l).
Proof.
  intros Hk Hev. apply list_elem_of_join. eexists. split; [exact Hev |].
  apply list_elem_of_fmap. eexists. split; [reflexivity |].
  apply list_elem_of_lookup. exists k.
  by rewrite list_lookup_imap, Hk.
Qed.

(** X10. The clicks that the rendered list offers are exactly these: move
    up for every row but the first, move down for every row but the last,
    rotate and remove for the id of every entry, and "Clear all" when the
    list has entries.  So a handler is never called with a row number
    outside the list, nor at a row where its guard would make it return. *)
Theorem clicks_characterised (st : State) (l : list ImageEntry.t) (v : View)
    (ev : event) :
  images st = Some <$> l -> render st = Some v ->
  (ev ∈ clicks v <->
   match ev with
   | MoveUp index => 0 < index < length l
   | MoveDown index => index + 1 < length l
   | Rotate id | Remove id => id ∈ ids l
   | Clear => l <> []
   | Add _ => False
   end).
Proof.
  intros Himgs Hv. split; [exact (clicks_in_rows st l v ev Himgs Hv) |].
  unfold render in Hv. rewrite Himgs in Hv.
  rewrite render_rows_dense in Hv. injection Hv as <-.
  unfold clicks. simpl. rewrite length_fmap.
  assert (Hid : forall id, id ∈ ids l ->
            exists k e, l !! k = Some e /\ ImageEntry.id e = id).
  { intros id Hin. unfold ids in Hin.
    apply list_elem_of_fmap in Hin as (e & -> & He).
    apply list_elem_of_lookup in He as (k & Hk). by exists k, e. }
  destruct ev as [files | id | index | index | id |]; intros Hev.
  - done.
  - destruct (Hid id Hev) as (k & e & Hk & <-).
    apply elem_of_app. right. apply (row_click_offered _ l k e _ Hk).
    unfold row_clicks. simpl. rewrite !elem_of_app, !elem_of_cons. auto.
  - destruct (lookup_lt_is_Some_2 l index) as [e Hk]; [lia |].
    apply elem_of_app. right. apply (row_click_offered _ l index e _ Hk).
    unfold row_clicks. simpl.
    destruct (Nat.eqb_spec index 0); [lia |].
    apply elem_of_app. left. apply list_elem_of_here.
  - destruct (lookup_lt_is_Some_2 l index) as [e Hk]; [lia |].
    apply elem_of_app. right. apply (row_click_offered _ l index e _ Hk).
    unfold row_clicks. simpl. rewrite length_fmap.
    destruct (Z.eqb_spec (Z.of_nat index) (Z.of_nat (length l) - 1)); [lia |].
    apply elem_of_app. right. apply elem_of_app. left. apply list_elem_of_here.
  - destruct (Hid id Hev) as (k & e & Hk & <-).
    apply elem_of_app. right. apply (row_click_offered _ l k e _ Hk).
    unfold row_clicks. simpl. rewrite !elem_of_app, !elem_of_cons. auto.
  - destruct l as [| e l]; [done |]. apply list_elem_of_here.
Qed.

Lemma clicks_characterised_witness :
  images (Sample.state [Sample.entry 0 0; Sample.entry 1 0])
  = Some <$> [Sample.entry 0 0; Sample.entry 1 0]
  /\ exists v,
       render (Sample.state [Sample.entry 0 0; Sample.entry 1 0]) = Some v
       /\ (MoveUp 0 ∈ clicks v
           <-> 0 < 0 < length [Sample.entry 0 0; Sample.entry 1 0]).
Proof.
  split; [reflexivity |]. eexists. split; [reflexivity |].
  exact (clicks_characterised
           (Sample.state [Sample.entry 0 0; Sample.entry 1 0])
           [Sample.entry 0 0; Sample.entry 1 0] _ (MoveUp 0)
           eq_refl eq_refl).
Defined.

(** X11. From the empty list, file selections and clicks on what is
    rendered never make a handler or the rendering throw: the list never
    holds an [undefined], the page renders, and every click it offers and
    every further selection is carried out. *)
Theorem ui_never_throws (randomUUID : nat -> Js.str)
    (createObjectURL : nat -> File -> Js.str) (st : State) :
  ui_reachable randomUUID createObjectURL st ->
  (exists l : list ImageEntry.t, images st = Some <$> l)
  /\ (exists v, render st = Some v
        /\ forall ev, ev ∈ clicks v ->
             exists st', step randomUUID createObjectURL st ev = Some st')
  /\ (forall files,
        exists st', step randomUUID createObjectURL st (Add files) = Some st').
Proof.
  intros Hreach.
  assert (Hoff : forall st l v ev,
            images st = Some <$> l -> render st = Some v -> ev ∈ clicks v ->
            offered st ev).
  { intros st0 l v ev Himgs Hv Hev.
    pose proof (clicks_in_rows st0 l v ev Himgs Hv Hev) as H.
    destruct ev; simpl; try exact I; rewrite Himgs, length_fmap; lia. }
  assert (Hdense : exists l : list ImageEntry.t, images st = Some <$> l).
  { induction Hreach as [| st files st' _ [l Hl] Hstep
                          | st v ev st' _ [l Hl] Hv Hev Hstep].
    - by exists [].
    - destruct (step_offered_dense randomUUID createObjectURL st (Add files)
                  l Hl I) as (st2 & l2 & Hstep2 & Hl2).
      rewrite Hstep in Hstep2. injection Hstep2 as <-. by exists l2.
    - destruct (step_offered_dense randomUUID createObjectURL st ev l Hl
                  (Hoff st l v ev Hl Hv Hev)) as (st2 & l2 & Hstep2 & Hl2).
      rewrite Hstep in Hstep2. injection Hstep2 as <-. by exists l2. }
  destruct Hdense as [l Hl]. split; [by exists l |]. split.
  - destruct (render st) as [v |] eqn:Hv.
    + exists v. split; [done |]. intros ev Hev.
      destruct (step_offered_dense randomUUID createObjectURL st ev l Hl
                  (Hoff st l v ev Hl Hv Hev)) as (st2 & l2 & Hstep2 & _).
      by exists st2.
    + exfalso. unfold render in Hv. rewrite Hl in Hv.
      rewrite render_rows_dense in Hv. discriminate.
  - intros files.
    destruct (step_offered_dense randomUUID createObjectURL st (Add files)
                l Hl I) as (st2 & l2 & Hstep2 & _).
    by exists st2.
Qed.

Lemma ui_never_throws_witness :
  exists st,
    run Sample.randomUUID Sample.createObjectURL initial
      [Add [Sample.png "a.png"; Sample.png "b.png"]; MoveDown 0] = Some st
    /\ ui_reachable Sample.randomUUID Sample.createObjectURL st
    /\ exists l : list ImageEntry.t, images st = Some <$> l.
Proof.
  set (R := Sample.randomUUID). set (U := Sample.createObjectURL).
  set (st1 := default initial
                (step R U initial (Add [Sample.png "a.png"; Sample.png "b.png"]))).
  set (st2 := default initial (step R U st1 (MoveDown 0))).
  assert (H1 : ui_reachable R U st1).
  { apply (ui_select R U initial [Sample.png "a.png"; Sample.png "b.png"] st1
             (ui_initial R U)).
    reflexivity. }
  assert (H2 : ui_reachable R U st2).
  { apply (ui_click R U st1 (default (mkView None [] true None) (render st1))
             (MoveDown 0) st2 H1).
    - reflexivity.
    - vm_compute. apply list_elem_of_further, list_elem_of_here.
    - reflexivity. }
  exists st2. split; [reflexivity |]. split; [exact H2 |].
  exact (proj1 (ui_never_throws R U st2 H2)).
Defined.

(** X12. On a list without duplicate ids a move button is disabled exactly
    when its handler would leave the list as it is: move up on the first
    row, move down on the last. *)
Theorem disabled_iff_no_change (l : list ImageEntry.t) (k : nat)
    (e : ImageEntry.t) :
  NoDup (ids l) -> l !! k = Some e ->
  let a : list slot := Some <$> l in
  (up_disabled (render_row a k e) = true <-> moveUp k a = a)
  /\ (down_disabled (render_row a k e) = true <-> moveDown a k a = a).
Proof.
  intros Hnodup Hk a. subst a. simpl.
  pose proof (lookup_lt_Some _ _ _ Hk) as Hlt.
  assert (Hswap : forall i j x y,
            i <> j -> l !! i = Some x -> l !! j = Some y ->
            Array.swap (Some <$> l) i j <> Some <$> l).
  { intros i j x y Hij Hx Hy Heq.
    rewrite (array_swap_dense l i j x y Hx Hy) in Heq.
    apply (inj (fmap Some)) in Heq.
    assert (Hj : <[j := x]> (<[i := y]> l) !! j = Some x).
    { apply list_lookup_insert_eq. rewrite length_insert.
      by eapply lookup_lt_Some. }
    rewrite Heq, Hy in Hj. injection Hj as ->.
    apply Hij. eapply (NoDup_lookup (ids l) i j (ImageEntry.id x)); [done | |];
      unfold ids; by rewrite list_lookup_fmap, ?Hx, ?Hy. }
  split.
  - unfold moveUp. destruct (Nat.eqb_spec k 0) as [-> | Hne]; [done |].
    split; [discriminate |]. intros Heq. exfalso.
    destruct (lookup_lt_is_Some_2 l (k - 1)) as [x Hx]; [lia |].
    apply (Hswap (k - 1) k x e); [lia | done..].
  - unfold moveDown. rewrite length_fmap.
    destruct (Z.eqb_spec (Z.of_nat k) (Z.of_nat (length l) - 1)) as [_ | Hne];
      [done |].
    split; [discriminate |]. intros Heq. exfalso.
    destruct (lookup_lt_is_Some_2 l (k + 1)) as [y Hy]; [lia |].
    apply (Hswap k (k + 1) e y); [lia | done..].
Qed.

Lemma disabled_iff_no_change_witness :
  NoDup (ids [Sample.entry 0 0; Sample.entry 1 90])
  /\ [Sample.entry 0 0; Sample.entry 1 90] !! 1 = Some (Sample.entry 1 90)
  /\ (down_disabled
        (render_row (Some <$> [Sample.entry 0 0; Sample.entry 1 90]) 1
           (Sample.entry 1 90)) = true
      <-> moveDown (Some <$> [Sample.entry 0 0; Sample.entry 1 90]) 1
            (Some <$> [Sample.entry 0 0; Sample.entry 1 90])
          = Some <$> [Sample.entry 0 0; Sample.entry 1 90]).
Proof.
  assert (Hnodup : NoDup (ids [Sample.entry 0 0; Sample.entry 1 90])).
  { apply (bool_decide_unpack _). vm_compute. exact I. }
  split; [exact Hnodup |]. split; [reflexivity |].
  exact (proj2 (disabled_iff_no_change
                  [Sample.entry 0 0; Sample.entry 1 90] 1 (Sample.entry 1 90)
                  Hnodup eq_refl)).
Defined.

(** ** Assembly, from start to end *)

Section AssemblyFacts.

Variable decode : Js.str -> option (N * N).
Variable toDataURL : Js.str -> Z -> Js.str.
Variable addImage_ok : Js.str -> LayoutRect -> bool.

Local Abbreviation loop := (pages decode toDataURL addImage_ok).
Local Abbreviation gets_on := (renders decode toDataURL addImage_ok).
Local Abbreviation page := (page_of decode toDataURL).

Lemma renders_page_of (e : ImageEntry.t) :
  gets_on e = true ->
  exists p,
    loadImageWithRotation decode toDataURL (Some e) = Resolved p
    /\ page e = Some (dataUrl p, layout (Js.of_N (width p)) (Js.of_N (height p)))
    /\ dataUrl p = toDataURL (ImageEntry.url e) (ImageEntry.rotation e)
    /\ addImage_ok (dataUrl p)
         (layout (Js.of_N (width p)) (Js.of_N (height p))) = true.
Proof.
  unfold renders, page_of.
  destruct (loadImageWithRotation decode toDataURL (Some e)) as [p | |] eqn:E;
    [| discriminate..].
  intros Hok. exists p. repeat split; try done.
  simpl in E. destruct (decode (ImageEntry.url e)) as [[w h] |]; [| discriminate].
  destruct (_ || _); by injection E as <-.
Qed.

Lemma all_render_pages (l : list ImageEntry.t) :
  Forall (fun e => gets_on e = true) l ->
  exists ps,
    page <$> l = Some <$> ps
    /\ forall k e, l !! k = Some e ->
         exists rect,
           ps !! k = Some (toDataURL (ImageEntry.url e) (ImageEntry.rotation e),
                           rect).
Proof.
  induction 1 as [| e l He _ (ps & Hps & Hk)].
  - exists []. split; [done |]. intros k e Hk. discriminate.
  - destruct (renders_page_of e He) as (p & _ & Hp & Hd & _).
    exists ((dataUrl p, layout (Js.of_N (width p)) (Js.of_N (height p))) :: ps).
    split; [by rewrite !fmap_cons, Hp, Hps |].
    intros [| k] e' Hk'; simpl in *.
    + injection Hk' as <-. rewrite Hd. by eexists.
    + by apply Hk.
Qed.

(** The loop over entries that all get onto their pages. *)
Lemma pages_all_render (l : list ImageEntry.t) :
  Forall (fun e => gets_on e = true) l ->
  forall ps i,
    page <$> l = Some <$> ps ->
    loop i (Some <$> l)
    = ((if (0 <? i)%nat then page_calls ps else tail (page_calls ps)),
       Finished).
Proof.
  induction 1 as [| e l He _ IH]; intros ps i Hps.
  - destruct ps; [| discriminate]. by destruct (0 <? i)%nat.
  - destruct ps as [| q ps]; [discriminate |].
    rewrite !fmap_cons in Hps. injection Hps as Hq Hps.
    destruct (renders_page_of e He) as (p & Hload & Hp & _ & Hok).
    rewrite Hp in Hq. injection Hq as <-.
    rewrite fmap_cons. cbn [pages]. rewrite Hload, Hok, (IH ps (S i) Hps).
    simpl. by destruct (0 <? i)%nat.
Qed.

(** The loop up to the first entry that does not get onto its page. *)
Lemma pages_stop (before : list ImageEntry.t) (s : slot) (after : list slot)
    (ex : loop_exit) :
  Forall (fun e => gets_on e = true) before ->
  (forall i, loop i (s :: after)
             = ((if (0 <? i)%nat then [AddPage] else []), ex)) ->
  forall ps i,
    page <$> before = Some <$> ps ->
    loop i ((Some <$> before) ++ s :: after)
    = ((if (0 <? i)%nat then page_calls ps ++ [AddPage]
        else tail (page_calls ps ++ [AddPage])), ex).
Proof.
  intros Hbefore Hstop.
  induction Hbefore as [| e l He _ IH]; intros ps i Hps.
  - destruct ps; [| discriminate]. rewrite fmap_nil, app_nil_l, Hstop.
    by destruct (0 <? i)%nat.
  - destruct ps as [| q ps]; [discriminate |].
    rewrite !fmap_cons in Hps. injection Hps as Hq Hps.
    destruct (renders_page_of e He) as (p & Hload & Hp & _ & Hok).
    rewrite Hp in Hq. injection Hq as <-.
    rewrite fmap_cons. cbn [app pages]. rewrite Hload, Hok, (IH ps (S i) Hps).
    simpl. by destruct (0 <? i)%nat.
Qed.

Lemma pages_finished_iff (rest : list slot) :
  forall i,
    snd (loop i rest) = Finished
    <-> Forall (slot_renders decode toDataURL addImage_ok) rest.
Proof.
  induction rest as [| s rest IH]; intros i.
  - split; [constructor | done].
  - rewrite Forall_cons. cbn [pages]. destruct s as [e |].
    + cbn [slot_renders]. unfold renders.
      destruct (loadImageWithRotation decode toDataURL (Some e)) as [p | |].
      * destruct (addImage_ok _ _).
        -- specialize (IH (S i)). destruct (loop (S i) rest) as [effs ex].
           simpl in *. rewrite IH. split; [by split | by intros [_ ?]].
        -- simpl. split; [discriminate | intros [? _]; discriminate].
      * simpl. split; [discriminate | intros [? _]; discriminate].
      * simpl. split; [discriminate | intros [? _]; discriminate].
    + simpl. split; [discriminate | intros [[] _]].
Qed.

End AssemblyFacts.

(** X13. When every entry decodes and jsPDF takes every image, the export
    runs to its end: one image per entry, in list order, each made from the
    entry's URL at the entry's rotation, with a page break before every
    image but the first; then the document is saved under the cleaned file
    name with [.pdf] appended, and [isGenerating] is back to [false]. *)
Theorem generatePDF_all_render
    (decode : Js.str -> option (N * N)) (toDataURL : Js.str -> Z -> Js.str)
    (addImage_ok : Js.str -> LayoutRect -> bool)
    (st : State) (l : list ImageEntry.t) :
  images st = Some <$> l -> l <> [] ->
  Forall (fun e => renders decode toDataURL addImage_ok e = true) l ->
  exists ps,
    page_of decode toDataURL <$> l = Some <$> ps
    /\ (forall k e, l !! k = Some e ->
          exists rect,
            ps !! k
            = Some (toDataURL (ImageEntry.url e) (ImageEntry.rotation e), rect))
    /\ generatePDF decode toDataURL addImage_ok st
       = (setIsGenerating st false,
          NewPDF :: tail (page_calls ps)
            ++ [Save (Filename.sanitize (filename st) ++ Js.lit ".pdf"%string)],
          Returned)
    /\ added_images (tail (page_calls ps)) = ps.
Proof.
  intros Himgs Hne Hall.
  destruct (all_render_pages decode toDataURL addImage_ok l Hall)
    as (ps & Hps & Hk).
  exists ps. split; [exact Hps |]. split; [exact Hk |]. split.
  - unfold generatePDF. rewrite Himgs, length_fmap.
    destruct l as [| e l]; [done |]. simpl length. cbn [Nat.eqb].
    by rewrite (pages_all_render decode toDataURL addImage_ok _ Hall ps 0 Hps).
  - destruct ps as [| [d r] ps]; [done |]. simpl. f_equal.
    clear. induction ps as [| [d r] ps IH]; [done |]. simpl. by rewrite IH.
Qed.

Lemma generatePDF_all_render_witness :
  images (Sample.state [Sample.entry 0 0; Sample.entry 1 90])
  = Some <$> [Sample.entry 0 0; Sample.entry 1 90]
  /\ [Sample.entry 0 0; Sample.entry 1 90] <> []
  /\ Forall (fun e => renders (Sample.decode_as 800 600) Sample.toDataURL
                        Sample.addImage_ok e = true)
       [Sample.entry 0 0; Sample.entry 1 90]
  /\ exists ps,
       generatePDF (Sample.decode_as 800 600) Sample.toDataURL
         Sample.addImage_ok
         (Sample.state [Sample.entry 0 0; Sample.entry 1 90])
       = (setIsGenerating
            (Sample.state [Sample.entry 0 0; Sample.entry 1 90]) false,
          NewPDF :: tail (page_calls ps)
            ++ [Save (Js.lit "my-document.pdf"%string)],
          Returned)
       /\ length ps = 2.
Proof.
  assert (Hne : [Sample.entry 0 0; Sample.entry 1 90] <> []) by discriminate.
  assert (Hall : Forall (fun e => renders (Sample.decode_as 800 600)
                           Sample.toDataURL Sample.addImage_ok e = true)
                   [Sample.entry 0 0; Sample.entry 1 90]).
  { repeat constructor. }
  split; [reflexivity |]. split; [exact Hne |]. split; [exact Hall |].
  destruct (generatePDF_all_render (Sample.decode_as 800 600) Sample.toDataURL
              Sample.addImage_ok
              (Sample.state [Sample.entry 0 0; Sample.entry 1 90])
              [Sample.entry 0 0; Sample.entry 1 90] eq_refl Hne Hall)
    as (ps & Hps & _ & Hgen & _).
  exists ps. split; [exact Hgen |].
  apply (f_equal length) in Hps. by rewrite !length_fmap in Hps.
Defined.

(** X14. When the entries before one all get onto their pages and that one
    is [undefined], or decodes but is refused by jsPDF, the export ends in
    the catch block: the error is logged, the alert is shown, nothing is
    saved, and [isGenerating] is back to [false].  The pages before are
    added, and the page break for the failing entry as well. *)
Theorem generatePDF_throw_alerts
    (decode : Js.str -> option (N * N)) (toDataURL : Js.str -> Z -> Js.str)
    (addImage_ok : Js.str -> LayoutRect -> bool)
    (st : State) (before : list ImageEntry.t) (s : slot) (after : list slot) :
  images st = (Some <$> before) ++ s :: after ->
  Forall (fun e => renders decode toDataURL addImage_ok e = true) before ->
  (s = None
   \/ exists e, s = Some e /\ is_Some (decode (ImageEntry.url e))
                /\ renders decode toDataURL addImage_ok e = false) ->
  exists ps,
    page_of decode toDataURL <$> before = Some <$> ps
    /\ generatePDF decode toDataURL addImage_ok st
       = (setIsGenerating st false,
          NewPDF :: tail (page_calls ps ++ [AddPage])
            ++ [ConsoleError;
                Alert (Js.lit "Error generating PDF. Please try again."%string)],
          Returned)
    /\ forall name, Save name ∉ tail (page_calls ps ++ [AddPage]).
Proof.
  intros Himgs Hbefore Hs.
  destruct (all_render_pages decode toDataURL addImage_ok before Hbefore)
    as (ps & Hps & _).
  exists ps. split; [exact Hps |].
  assert (Hstop : forall i, pages decode toDataURL addImage_ok i (s :: after)
                    = ((if (0 <? i)%nat then [AddPage] else []), Threw)).
  { intros i. cbn [pages]. destruct Hs as [-> | (e & -> & [dims Hdec] & Hno)].
    - reflexivity.
    - unfold renders in Hno.
      destruct (loadImageWithRotation decode toDataURL (Some e)) as [p | |]
        eqn:E.
      + by rewrite Hno.
      + reflexivity.
      + simpl in E. rewrite Hdec in E. destruct dims.
        destruct (_ || _); discriminate. }
  split.
  - unfold generatePDF. rewrite Himgs.
    assert (Hlen : (length ((Some <$> before) ++ s :: after) =? 0)%nat = false).
    { apply Nat.eqb_neq. rewrite length_app. simpl. lia. }
    rewrite Hlen.
    by rewrite (pages_stop decode toDataURL addImage_ok before s after Threw
                  Hbefore Hstop ps 0 Hps).
  - intros name Hin.
    assert (Hall : Forall page_effect (page_calls ps ++ [AddPage])).
    { apply Forall_app. split; [| by repeat constructor].
      unfold page_calls. apply Forall_bind, Forall_forall.
      intros q _. by repeat constructor. }
    assert (Htl : Forall page_effect (tail (page_calls ps ++ [AddPage]))).
    { destruct (page_calls ps ++ [AddPage]); [done | by inversion Hall]. }
    rewrite Forall_forall in Htl. exact (Htl _ Hin).
Qed.

Lemma generatePDF_throw_alerts_witness :
  images (Sample.state [Sample.entry 0 0; Sample.entry 1 0; Sample.entry 2 0])
  = (Some <$> [Sample.entry 0 0]) ++ Some (Sample.entry 1 0)
      :: [Some (Sample.entry 2 0)]
  /\ exists ps,
       generatePDF (Sample.decode_as 800 600) Sample.toDataURL
         Sample.refuses_second
         (Sample.state [Sample.entry 0 0; Sample.entry 1 0; Sample.entry 2 0])
       = (setIsGenerating
            (Sample.state
               [Sample.entry 0 0; Sample.entry 1 0; Sample.entry 2 0]) false,
          NewPDF :: tail (page_calls ps ++ [AddPage])
            ++ [ConsoleError;
                Alert (Js.lit "Error generating PDF. Please try again."%string)],
          Returned).
Proof.
  split; [reflexivity |].
  assert (Hbefore : Forall (fun e => renders (Sample.decode_as 800 600)
                              Sample.toDataURL Sample.refuses_second e = true)
                      [Sample.entry 0 0]).
  { repeat constructor. }
  assert (Hs : Some (Sample.entry 1 0) = None
               \/ exists e, Some (Sample.entry 1 0) = Some e
                  /\ is_Some (Sample.decode_as 800 600 (ImageEntry.url e))
                  /\ renders (Sample.decode_as 800 600) Sample.toDataURL
                       Sample.refuses_second e = false).
  { right. exists (Sample.entry 1 0). split; [reflexivity |].
    split; [by eexists | vm_compute; reflexivity]. }
  destruct (generatePDF_throw_alerts (Sample.decode_as 800 600)
              Sample.toDataURL Sample.refuses_second
              (Sample.state
                 [Sample.entry 0 0; Sample.entry 1 0; Sample.entry 2 0])
              [Sample.entry 0 0] (Some (Sample.entry 1 0))
              [Some (Sample.entry 2 0)] eq_refl Hbefore Hs)
    as (ps & _ & Hgen & _).
  by exists ps.
Defined.

Lemma setIsGenerating_fields (st : State) (b : bool) :
  images (setIsGenerating st b) = images st
  /\ filename (setIsGenerating st b) = filename st
  /\ created (setIsGenerating st b) = created st
  /\ isGenerating (setIsGenerating st b) = b.
Proof. by destruct st. Qed.

(** X15. Whatever the list, an export leaves the image list and the file
    name alone.  It saves exactly when the list is not empty
    and every entry gets onto its page, and then it saves once, as its last
    call, shows no alert and ends with [isGenerating] at [false]. *)
Theorem generatePDF_saves_iff_all_render
    (decode : Js.str -> option (N * N)) (toDataURL : Js.str -> Z -> Js.str)
    (addImage_ok : Js.str -> LayoutRect -> bool) (st : State) :
  let '(st', effs, ending) := generatePDF decode toDataURL addImage_ok st in
  images st' = images st /\ filename st' = filename st
  /\ created st' = created st
  /\ ((exists name, Save name ∈ effs)
      <-> images st <> []
          /\ Forall (slot_renders decode toDataURL addImage_ok) (images st))
  /\ ((exists name, Save name ∈ effs) ->
      ending = Returned /\ isGenerating st' = false
      /\ (forall msg, Alert msg ∉ effs)
      /\ exists calls,
           effs = calls
                  ++ [Save (Filename.sanitize (filename st)
                            ++ Js.lit ".pdf"%string)]
           /\ forall name, Save name ∉ calls).
Proof.
  unfold generatePDF.
  destruct (images st) as [| s0 a0] eqn:Himgs.
  { simpl. rewrite Himgs. do 3 (split; [done |]). split.
    - split; [intros [name H]; inversion H | intros [? _]; done].
    - intros [name H]. inversion H. }
  rewrite <- Himgs.
  assert (Hlen : (length (images st) =? 0)%nat = false) by by rewrite Himgs.
  rewrite Hlen.
  pose proof (pages_effects decode toDataURL addImage_ok (images st) 0) as Heffs.
  pose proof (pages_finished_iff decode toDataURL addImage_ok (images st) 0)
    as Hfin.
  destruct (pages decode toDataURL addImage_ok 0 (images st)) as [effs ex].
  simpl in Heffs, Hfin. rewrite Forall_forall in Heffs.
  assert (Hne : images st <> []) by by rewrite Himgs.
  assert (Hnosave : forall name, Save name ∉ NewPDF :: effs).
  { intros name H. apply elem_of_cons in H as [H | H]; [discriminate |].
    exact (Heffs _ H). }
  assert (Hnoalert : forall msg, Alert msg ∉ NewPDF :: effs).
  { intros msg H. apply elem_of_cons in H as [H | H]; [discriminate |].
    exact (Heffs _ H). }
  destruct (setIsGenerating_fields st false) as (Hi & Hf & Hc & Hg).
  destruct (setIsGenerating_fields st true) as (Hi' & Hf' & Hc' & Hg').
  destruct ex.
  - do 3 (split; [done |]). split.
    + split; [intros _; split; [done | by apply Hfin] |].
      intros _. eexists. apply list_elem_of_further, elem_of_app. right.
      apply list_elem_of_here.
    + intros _. split; [done |]. split; [done |]. split.
      * intros msg H. rewrite app_comm_cons in H.
        apply elem_of_app in H as [H | H]; [by apply Hnoalert in H |].
        apply list_elem_of_singleton in H. discriminate.
      * exists (NewPDF :: effs). split; [done | exact Hnosave].
  - do 3 (split; [done |]).
    assert (Hno : ~ exists name, Save name ∈
              NewPDF :: effs ++ [ConsoleError;
                Alert (Js.lit "Error generating PDF. Please try again."%string)]).
    { intros [name H]. rewrite app_comm_cons in H.
      apply elem_of_app in H as [H | H]; [by apply Hnosave in H |].
      repeat (apply elem_of_cons in H as [H | H]; [discriminate |]).
      inversion H. }
    split; [| intros H; by destruct Hno].
    split; [intros H; by destruct Hno |].
    intros [_ Hall]. apply Hfin in Hall. discriminate.
  - do 3 (split; [done |]).
    assert (Hno : ~ exists name, Save name ∈ NewPDF :: effs).
    { intros [name H]. by apply Hnosave in H. }
    split; [| intros H; by destruct Hno].
    split; [intros H; by destruct Hno |].
    intros [_ Hall]. apply Hfin in Hall. discriminate.
Qed.

(** ** After an export that never ends *)

Lemma step_keeps_flags (randomUUID : nat -> Js.str)
    (createObjectURL : nat -> File -> Js.str) (st st' : State) (ev : event) :
  step randomUUID createObjectURL st ev = Some st' ->
  isGenerating st' = isGenerating st /\ filename st' = filename st.
Proof.
  destruct ev as [files | id | index | index | id |]; simpl.
  - destruct (handleFileSelect _ _ _ _ _). by intros [= <-].
  - destruct (rotateImage _ _); [| discriminate]. by intros [= <-].
  - by intros [= <-].
  - by intros [= <-].
  - destruct (removeImage _ _); [| discriminate]. by intros [= <-].
  - destruct (clearAll _); [| discriminate]. by intros [= <-].
Qed.

Lemma run_keeps_flags (randomUUID : nat -> Js.str)
    (createObjectURL : nat -> File -> Js.str) (evs : list event) :
  forall st st',
    run randomUUID createObjectURL st evs = Some st' ->
    isGenerating st' = isGenerating st /\ filename st' = filename st.
Proof.
  induction evs as [| ev evs IH]; intros st st' Hrun; simpl in Hrun.
  - by injection Hrun as <-.
  - destruct (step randomUUID createObjectURL st ev) as [st1 |] eqn:E;
      [| discriminate].
    destruct (step_keeps_flags _ _ _ _ _ E) as [Hg Hf].
    destruct (IH _ _ Hrun) as [Hg' Hf']. split; congruence.
Qed.

(** X16. Once an export is left waiting for an image that never loads, no
    selection, rotation, move, removal or clearing brings [isGenerating]
    back to [false]: whenever the bottom bar shows, its create button is
    disabled and reads "Generating...". *)
Theorem suspended_export_blocks_create
    (decode : Js.str -> option (N * N)) (toDataURL : Js.str -> Z -> Js.str)
    (addImage_ok : Js.str -> LayoutRect -> bool)
    (randomUUID : nat -> Js.str) (createObjectURL : nat -> File -> Js.str)
    (st st1 st2 : State) (effs : list effect) (evs : list event) :
  generatePDF decode toDataURL addImage_ok st = (st1, effs, Suspended) ->
  run randomUUID createObjectURL st1 evs = Some st2 ->
  isGenerating st2 = true
  /\ forall v bar,
       render st2 = Some v -> bottom_bar v = Some bar ->
       create_disabled bar = true
       /\ create_label bar = Js.lit "Generating..."%string.
Proof.
  intros Hgen Hrun.
  assert (H1 : isGenerating st1 = true).
  { unfold generatePDF in Hgen.
    destruct (length (images st) =? 0)%nat; [discriminate |].
    destruct (pages decode toDataURL addImage_ok 0 (images st)) as [e ex].
    destruct ex; try discriminate. by injection Hgen as <- _. }
  destruct (run_keeps_flags _ _ _ _ _ Hrun) as [H2 _]. rewrite H1 in H2.
  split; [exact H2 |]. intros v bar Hv Hbar. unfold render in Hv.
  destruct (render_rows _ _ _); [| discriminate].
  injection Hv as <-. simpl in Hbar.
  destruct (0 <? length (images st2))%nat; [| discriminate].
  injection Hbar as <-. simpl. by rewrite H2.
Qed.

Lemma suspended_export_blocks_create_witness :
  exists st1 st2,
    generatePDF Sample.decode_first Sample.toDataURL Sample.addImage_ok
      (Sample.state [Sample.entry 1 0; Sample.entry 0 0])
    = (st1, [NewPDF], Suspended)
    /\ run Sample.randomUUID Sample.createObjectURL st1
         [Remove (Sample.randomUUID 1)] = Some st2
    /\ images st2 = [Some (Sample.entry 0 0)]
    /\ isGenerating st2 = true.
Proof.
  eexists _, _.
  assert (Hgen : generatePDF Sample.decode_first Sample.toDataURL
                   Sample.addImage_ok
                   (Sample.state [Sample.entry 1 0; Sample.entry 0 0])
                 = (setIsGenerating
                      (Sample.state [Sample.entry 1 0; Sample.entry 0 0]) true,
                    [NewPDF], Suspended)).
  { vm_compute. reflexivity. }
  assert (Hrun : run Sample.randomUUID Sample.createObjectURL
                   (setIsGenerating
                      (Sample.state [Sample.entry 1 0; Sample.entry 0 0]) true)
                   [Remove (Sample.randomUUID 1)]
                 = Some (mkState [Some (Sample.entry 0 0)]
                           (Js.lit "my-document"%string) true 2)).
  { vm_compute. reflexivity. }
  split; [exact Hgen |]. split; [exact Hrun |]. split; [reflexivity |].
  exact (proj1 (suspended_export_blocks_create Sample.decode_first
                  Sample.toDataURL Sample.addImage_ok Sample.randomUUID
                  Sample.createObjectURL _ _ _ _ _ Hgen Hrun)).
Defined.

(** ** More on the layout *)

(** X17. The image is scaled until it touches the content box: the rect
    that the code computes in binary64 is 190 wide or 277 high (a small
    raster is enlarged), and it keeps inside the margins of 10 on all four
    sides, exactly and not only up to rounding. *)
Theorem layout_fills_box (pixelWidth pixelHeight : N) :
  (0 < pixelHeight)%N -> (pixelWidth < 2 ^ 53)%N -> (pixelHeight < 2 ^ 53)%N ->
  exists rx ry rw rh : Q,
    layout (Js.of_N pixelWidth) (Js.of_N pixelHeight)
    = mkRect (Js.Fin rx) (Js.Fin ry) (Js.Fin rw) (Js.Fin rh)
    /\ (rw == 190 \/ rh == 277)%Q
    /\ (0 <= rw)%Q
    /\ (10 <= rx)%Q /\ (rx + rw <= 200)%Q
    /\ (10 <= ry)%Q /\ (ry + rh <= 287)%Q.
Proof.
  intros Hh Hw53 Hh53.
  pose proof (imgRatio_value pixelWidth pixelHeight Hh Hw53) as Hd.
  change (Js.of_N pixelWidth) with (Js.Fin (inject_Z (Z.of_N pixelWidth))) in *.
  change (Js.of_N pixelHeight) with (Js.Fin (inject_Z (Z.of_N pixelHeight))) in *.
  destruct (N.eq_dec pixelWidth 0%N) as [-> | Hw0].
  - assert (E : (inject_Z (Z.of_N 0) / inject_Z (Z.of_N pixelHeight) == 0)%Q).
    { unfold Qdiv. apply Qmult_0_l. }
    rewrite (round64_proper _ _ E), round64_0 in Hd.
    rewrite (layout_tall _ _ _ Hd) by lra.
    exists 105%Q, 10%Q, 0%Q, 277%Q.
    split; [vm_compute; reflexivity |].
    split; [right; reflexivity |]. repeat split; lra.
  - destruct (ratio_bounds pixelWidth pixelHeight) as [Hq1 Hq2];
      [lia | exact Hh | exact Hw53 | exact Hh53 |].
    set (q := (inject_Z (Z.of_N pixelWidth) / inject_Z (Z.of_N pixelHeight))%Q) in *.
    destruct (round64_ratio q Hq1 Hq2) as (Hr1 & Hr2 & _ & _).
    set (r := Js.round64 q) in *.
    destruct (Qlt_le_dec (772277914440789 # 1125899906842624)%Q r)
      as [Hwide | Htall].
    + rewrite (layout_wide _ _ r Hd Hwide Hr2).
      destruct (wide_height r Hwide Hr2) as (Ha & Hb & _ & _).
      destruct (centre_y_offset (Js.round64 (190 / r))) as (Hy1 & _ & _);
        [lra | exact Hb |].
      assert (Hin : (Js.round64 (Js.round64 (297 - Js.round64 (190 / r)) / 2)
                     + Js.round64 (190 / r) <= 297 - 10)%Q).
      { apply (offset_inside 297 _ (190 / r) (1 # 17592186044416) 256 8
                 (277 * 17592186044416));
          [ apply Qlt_shift_div_l; lra
          | apply Qlt_shift_div_r; [lra |]
          | lia | reflexivity | lra | reflexivity | vm_compute; reflexivity
          | reflexivity | reflexivity | lra | reflexivity | lra | reflexivity ].
        change (2 ^ (8 + 1))%Q with 512%Q. lra. }
      do 4 eexists. split; [reflexivity |].
      split; [left; reflexivity |]. split; [lra |]. split; [lra |].
      split; [lra |]. split; [exact Hy1 | lra].
    + assert (Hr0 : (0 <= r)%Q) by lra.
      rewrite (layout_tall _ _ r Hd Hr0 Htall).
      destruct (tall_width r Hr0 Htall) as (Ha & Hb).
      destruct (centre_x_offset (Js.round64 (277 * r))) as (Hx1 & _ & _);
        [exact Ha | exact Hb |].
      assert (Hin : (Js.round64 (Js.round64 (210 - Js.round64 (277 * r)) / 2)
                     + Js.round64 (277 * r) <= 210 - 10)%Q).
      { apply (offset_inside 210 _ (277 * r) (1 # 35184372088832) 128 7
                 (190 * 35184372088832));
          [ lra
          | change (2 ^ (7 + 1))%Q with 256%Q; lra
          | lia | reflexivity | lra | reflexivity | vm_compute; reflexivity
          | reflexivity | reflexivity | lra | reflexivity | lra | reflexivity ]. }
      do 4 eexists. split; [reflexivity |].
      split; [right; reflexivity |]. split; [exact Ha |].
      split; [exact Hx1 |]. split; [lra |]. split; lra.
Qed.

Lemma layout_fills_box_witness :
  (0 < 7)%N /\ (3 < 2 ^ 53)%N /\ (7 < 2 ^ 53)%N
  /\ layout (Js.of_N 3) (Js.of_N 7)
     = mkRect (Js.Fin (6423661075646757 # 140737488355328)) (Js.Fin 10)
              (Js.Fin (8353775201662683 # 70368744177664)) (Js.Fin 277)
  /\ exists rx ry rw rh : Q,
       layout (Js.of_N 3) (Js.of_N 7)
       = mkRect (Js.Fin rx) (Js.Fin ry) (Js.Fin rw) (Js.Fin rh)
       /\ (rw == 190 \/ rh == 277)%Q
       /\ (0 <= rw)%Q
       /\ (10 <= rx)%Q /\ (rx + rw <= 200)%Q
       /\ (10 <= ry)%Q /\ (ry + rh <= 287)%Q.
Proof.
  assert (H1 : (0 < 7)%N) by reflexivity.
  assert (H2 : (3 < 2 ^ 53)%N) by reflexivity.
  assert (H3 : (7 < 2 ^ 53)%N) by reflexivity.
  split; [exact H1 |]. split; [exact H2 |]. split; [exact H3 |].
  split; [vm_compute; reflexivity |].
  exact (layout_fills_box 3 7 H1 H2 H3).
Defined.

(** X18. The rect depends on the raster through its aspect ratio only: two
    rasters of the same ratio, such as 800 by 600 and 4000 by 3000, get the
    same rect, bit for bit: the one division that reads the raster is
    rounded from the same real number. *)
Theorem layout_ratio_only (w1 h1 w2 h2 : N) :
  (0 < h1)%N -> (0 < h2)%N ->
  (w1 < 2 ^ 53)%N -> (h1 < 2 ^ 53)%N -> (w2 < 2 ^ 53)%N -> (h2 < 2 ^ 53)%N ->
  (w1 * h2 = w2 * h1)%N ->
  layout (Js.of_N w1) (Js.of_N h1) = layout (Js.of_N w2) (Js.of_N h2).
Proof.
  intros H1 H2 _ _ _ _ Hr.
  assert (E : (Js.of_N w1 / Js.of_N h1)%js = (Js.of_N w2 / Js.of_N h2)%js).
  { unfold Js.of_N, Js.of_Z.
    pose proof (inject_N_pos h1 H1) as Hp1.
    pose proof (inject_N_pos h2 H2) as Hp2.
    rewrite !div_Fin by assumption. apply of_rounded_proper.
    assert (Hx : (inject_Z (Z.of_N w1) * inject_Z (Z.of_N h2)
                  == inject_Z (Z.of_N w2) * inject_Z (Z.of_N h1))%Q).
    { rewrite <- !inject_Z_mult, <- !N2Z.inj_mul, Hr. reflexivity. }
    set (a := inject_Z (Z.of_N w1)) in *. set (b := inject_Z (Z.of_N h1)) in *.
    set (c := inject_Z (Z.of_N w2)) in *. set (d := inject_Z (Z.of_N h2)) in *.
    clearbody a b c d.
    apply (Qmult_inj_r _ _ (b * d)%Q); [intros H0; nra |].
    assert (Ea : (a / b * (b * d) == a * d)%Q) by (field; lra).
    assert (Ec : (c / d * (b * d) == c * b)%Q) by (field; lra).
    rewrite Ea, Ec. exact Hx. }
  unfold layout. by rewrite E.
Qed.

Lemma layout_ratio_only_witness :
  (0 < 800)%N /\ (0 < 4000)%N
  /\ (600 < 2 ^ 53)%N /\ (800 < 2 ^ 53)%N
  /\ (3000 < 2 ^ 53)%N /\ (4000 < 2 ^ 53)%N
  /\ (600 * 4000 = 3000 * 800)%N
  /\ layout (Js.of_N 600) (Js.of_N 800) = layout (Js.of_N 3000) (Js.of_N 4000).
Proof.
  assert (H1 : (0 < 800)%N) by reflexivity.
  assert (H2 : (0 < 4000)%N) by reflexivity.
  assert (H3 : (600 < 2 ^ 53)%N) by reflexivity.
  assert (H4 : (800 < 2 ^ 53)%N) by reflexivity.
  assert (H5 : (3000 < 2 ^ 53)%N) by reflexivity.
  assert (H6 : (4000 < 2 ^ 53)%N) by reflexivity.
  assert (H7 : (600 * 4000 = 3000 * 800)%N) by reflexivity.
  split; [exact H1 |]. split; [exact H2 |]. split; [exact H3 |].
  split; [exact H4 |]. split; [exact H5 |]. split; [exact H6 |].
  split; [exact H7 |].
  exact (layout_ratio_only 600 800 3000 4000 H1 H2 H3 H4 H5 H6 H7).
Defined.

(** ** Rotation and rendering *)

(** X19. A quarter turn of an entry swaps the width and height of the
    raster it renders to. *)
Theorem rotate_swaps_rendered_size
    (decode : Js.str -> option (N * N)) (toDataURL : Js.str -> Z -> Js.str)
    (entry : ImageEntry.t) (w h : N) :
  valid_rotation (ImageEntry.rotation entry) ->
  decode (ImageEntry.url entry) = Some (w, h) ->
  exists p p',
    loadImageWithRotation decode toDataURL (Some entry) = Resolved p
    /\ rotateImage (ImageEntry.id entry) [Some entry]
       = Some [Some (rotate_if (ImageEntry.id entry) entry)]
    /\ loadImageWithRotation decode toDataURL
         (Some (rotate_if (ImageEntry.id entry) entry)) = Resolved p'
    /\ width p' = height p /\ height p' = width p.
Proof.
  intros Hvalid Hdec. destruct entry as [i f u r n]. simpl in *.
  assert (Heq : Js.str_eqb i i = true) by by apply str_eqb_eq.
  unfold rotateImage, Array.map, rotate_if, loadImageWithRotation. simpl.
  rewrite Heq, Hdec. simpl.
  destruct Hvalid as [-> | [-> | [-> | ->]]]; simpl; rewrite ?Hdec;
    do 2 eexists; repeat split; reflexivity.
Qed.

Lemma rotate_swaps_rendered_size_witness :
  valid_rotation (ImageEntry.rotation (Sample.entry 0 90))
  /\ Sample.decode_as 800 600 (ImageEntry.url (Sample.entry 0 90))
     = Some (800, 600)%N
  /\ exists p p',
       loadImageWithRotation (Sample.decode_as 800 600) Sample.toDataURL
         (Some (Sample.entry 0 90)) = Resolved p
       /\ rotateImage (ImageEntry.id (Sample.entry 0 90))
            [Some (Sample.entry 0 90)]
          = Some [Some (rotate_if (ImageEntry.id (Sample.entry 0 90))
                          (Sample.entry 0 90))]
       /\ loadImageWithRotation (Sample.decode_as 800 600) Sample.toDataURL
            (Some (rotate_if (ImageEntry.id (Sample.entry 0 90))
                     (Sample.entry 0 90))) = Resolved p'
       /\ width p' = height p /\ height p' = width p.
Proof.
  assert (Hv : valid_rotation (ImageEntry.rotation (Sample.entry 0 90)))
    by (right; by left).
  split; [exact Hv |]. split; [reflexivity |].
  exact (rotate_swaps_rendered_size (Sample.decode_as 800 600)
           Sample.toDataURL (Sample.entry 0 90) 800 600 Hv eq_refl).
Defined.

(** ** More on the file name *)

Lemma in_class_not_space (c : N) :
  Filename.in_class c = true -> Filename.is_space c = false.
Proof.
  unfold Filename.in_class, Filename.is_space. intros H.
  repeat (apply orb_true_iff in H as [H | H]);
    try (apply andb_true_iff in H as [H1 H2]; apply N.leb_le in H1, H2);
    try apply N.eqb_eq in H;
    repeat (apply orb_false_iff; split);
    try (apply andb_false_iff);
    rewrite ?N.leb_gt, ?N.eqb_neq; lia.
Qed.

Lemma trimStart_no_space (s : Js.str) :
  Forall (fun c => Filename.is_space c = false) s -> Filename.trimStart s = s.
Proof. intros [| c s' Hc _]; [done |]. simpl. by rewrite Hc. Qed.

Lemma trim_no_space (s : Js.str) :
  Forall (fun c => Filename.is_space c = false) s -> Filename.trim s = s.
Proof.
  intros H. unfold Filename.trim, Filename.trimEnd.
  rewrite (trimStart_no_space s H).
  rewrite trimStart_no_space by by apply Forall_reverse.
  apply reverse_involutive.
Qed.

Lemma replace_in_class_id (s : Js.str) :
  Forall (fun c => Filename.in_class c = true) s -> Filename.replace s = s.
Proof.
  intros H. unfold Filename.replace. rewrite <- (list_fmap_id s) at 2.
  apply list_fmap_ext. intros i c Hc.
  rewrite Forall_forall in H.
  by rewrite (H c (list_elem_of_lookup_2 _ _ _ Hc)).
Qed.

Lemma sanitize_in_class (s : Js.str) :
  Forall (fun c => Filename.in_class c = true) (Filename.sanitize s)
  /\ Filename.sanitize s <> [].
Proof.
  unfold Filename.sanitize.
  pose proof (replace_in_class (Filename.trim s)) as H.
  destruct (Filename.replace (Filename.trim s)) as [| c r].
  - split; [vm_compute; repeat constructor | discriminate].
  - split; [exact H | discriminate].
Qed.

(** X20. The cleaned file name is never empty, holds only characters of
    [a-zA-Z0-9-_] (so no white space, dot or path separator), is no longer
    than the input unless the default name stands in, and cleaning it again
    gives it back unchanged. *)
Theorem sanitize_idempotent (filename : Js.str) :
  Filename.sanitize (Filename.sanitize filename) = Filename.sanitize filename
  /\ Filename.sanitize filename <> []
  /\ Forall (fun c => Filename.in_class c = true /\ Filename.is_space c = false)
       (Filename.sanitize filename)
  /\ (Filename.sanitize filename = Js.lit "document"%string
      \/ length (Filename.sanitize filename) <= length filename).
Proof.
  destruct (sanitize_in_class filename) as [Hclass Hne].
  assert (Hnospace : Forall (fun c => Filename.is_space c = false)
                       (Filename.sanitize filename)).
  { eapply Forall_impl; [exact Hclass |]. apply in_class_not_space. }
  split; [| split; [exact Hne | split]].
  - unfold Filename.sanitize at 1.
    rewrite (trim_no_space _ Hnospace), (replace_in_class_id _ Hclass).
    by destruct (Filename.sanitize filename).
  - rewrite Forall_forall in *. intros c Hc. split; auto.
  - unfold Filename.sanitize.
    destruct (Filename.replace (Filename.trim filename)) as [| c r] eqn:E;
      [by left | right].
    rewrite <- E. unfold Filename.replace. rewrite length_fmap.
    destruct (trim_split filename) as (l & r' & Hs & _).
    rewrite Hs at 2. rewrite !length_app. lia.
Qed.

(** ** Where entries come from *)

Lemma slot_holds_swap (P : ImageEntry.t -> Prop) (a : list slot) (i j : nat) :
  Forall (slot_holds P) a -> Forall (slot_holds P) (Array.swap a i j).
Proof.
  intros Ha.
  assert (Hget : forall k, slot_holds P (Array.get a k)).
  { intros k. unfold Array.get. destruct (a !! k) as [s |] eqn:E; [| exact I].
    rewrite Forall_forall in Ha. apply Ha. by eapply list_elem_of_lookup_2. }
  assert (Hset : forall b k v,
            Forall (slot_holds P) b -> slot_holds P v ->
            Forall (slot_holds P) (Array.set b k v)).
  { intros b k v Hb Hv. unfold Array.set. destruct (k <? length b).
    - by apply Forall_insert.
    - apply Forall_app. split; [exact Hb |].
      apply Forall_app. split; [| by constructor].
      by apply Forall_replicate. }
  unfold Array.swap. simpl. auto.
Qed.

(** X21. Every entry of a reachable state is as its selection made it,
    up to rotation: its name is the name of its file, its id is one the
    browser handed out, and its URL is the object URL made for its file
    together with that id.  No handler rewrites these fields. *)
Theorem reachable_entries_as_created (randomUUID : nat -> Js.str)
    (createObjectURL : nat -> File -> Js.str) (st : State) :
  reachable randomUUID createObjectURL st ->
  forall img, Some img ∈ images st ->
    as_created randomUUID createObjectURL (created st) img.
Proof.
  intros Hreach.
  assert (Hall : Forall (slot_holds
                           (as_created randomUUID createObjectURL (created st)))
                   (images st)).
  { induction Hreach as [| st ev st' _ IH Hstep]; [constructor |].
    destruct ev as [files | id | index | index | id |]; simpl in Hstep.
    - unfold handleFileSelect in Hstep.
      destruct (length (List.filter is_image files) =? 0)%nat;
        injection Hstep as <-; simpl; [exact IH |].
      apply Forall_app. split.
      + eapply Forall_impl; [exact IH |]. intros [img |]; [| done]. simpl.
        intros (Hname & n & Hn & Hid & Hurl). split; [done |].
        exists n. split; [lia | done].
      + generalize (List.filter is_image files). intros fs.
        assert (Hgen : forall k,
                  created st <= k ->
                  Forall (slot_holds
                            (as_created randomUUID createObjectURL
                               (k + length fs)))
                    (Some <$> newImages randomUUID createObjectURL k fs)).
        { induction fs as [| f fs IHfs]; intros k Hk; [constructor |].
          cbn [newImages]. rewrite fmap_cons. constructor.
          - simpl. split; [done |]. exists k. split; [lia | done].
          - replace (k + length (f :: fs)) with (S k + length fs)
              by (simpl; lia).
            apply IHfs. lia. }
        by apply Hgen.
    - destruct (rotateImage id (images st)) as [a' |] eqn:E; [| discriminate].
      injection Hstep as <-. simpl.
      apply array_map_Some in E as (l & Hl & ->). rewrite Hl in IH.
      rewrite Forall_fmap in IH. rewrite !Forall_fmap.
      eapply Forall_impl; [exact IH |]. intros img. simpl.
      unfold as_created, rotate_if.
      by destruct (Js.str_eqb (ImageEntry.id img) id).
    - injection Hstep as <-. simpl. unfold moveUp.
      destruct (index =? 0)%nat; [exact IH | by apply slot_holds_swap].
    - injection Hstep as <-. simpl. unfold moveDown.
      destruct (_ =? _)%Z; [exact IH | by apply slot_holds_swap].
    - destruct (removeImage id (images st)) as [a' |] eqn:E; [| discriminate].
      injection Hstep as <-. simpl. unfold removeImage in E.
      destruct (Array.find _ _); [| discriminate].
      apply array_filter_Some in E as (l & Hl & ->). rewrite Hl in IH.
      rewrite Forall_fmap in IH. rewrite Forall_fmap.
      rewrite Forall_forall in *. intros img Hin. apply IH.
      apply list_elem_of_In, List.filter_In in Hin as [Hin _].
      by apply list_elem_of_In.
    - destruct (clearAll (images st)) as [a' |] eqn:E; [| discriminate].
      injection Hstep as <-. unfold clearAll in E.
      destruct (Array.forEach _); [| discriminate].
      injection E as <-. constructor. }
  intros img Hin. rewrite Forall_forall in Hall. exact (Hall _ Hin).
Qed.

Lemma reachable_entries_as_created_witness :
  exists st,
    run Sample.randomUUID Sample.createObjectURL initial Sample.session
    = Some st
    /\ reachable Sample.randomUUID Sample.createObjectURL st
    /\ forall img, Some img ∈ images st ->
         as_created Sample.randomUUID Sample.createObjectURL (created st) img.
Proof.
  eexists. split; [vm_compute; reflexivity |].
  assert (Hreach : reachable Sample.randomUUID Sample.createObjectURL
            (default initial
               (run Sample.randomUUID Sample.createObjectURL initial
                  Sample.session))).
  { apply (run_reachable Sample.randomUUID Sample.createObjectURL
             Sample.session initial _ (reachable_initial _ _)).
    vm_compute. reflexivity. }
  split; [exact Hreach |].
  exact (reachable_entries_as_created Sample.randomUUID Sample.createObjectURL
           _ Hreach).
Defined.
